(** * jexel: the Matrix and Vec classes of [src/math.ts]

    A shallow embedding of the N-dimensional row-major [Matrix] class, of its
    [Vec] specialisation and of the helpers they call, followed by the
    properties of the specification that concern them.

    JavaScript numbers are modelled as exact rationals plus the value [NaN]:
    the arithmetic below never rounds and has no infinities (a division by
    zero gives [NaN]).  Every operation returns the reduced fraction, so a
    number has one representation and Leibniz equality on results is
    numerical equality.  The values [Num q] stand for the finite numbers of
    the program.  A property of element values is stated where this
    arithmetic and the program's agree: in terms of the operations
    themselves, on integers that are held exactly, or with the finiteness
    of the values as a hypothesis. *)

From Stdlib Require Import ZArith QArith Qround Qreduction Qabs Lqa.
From Stdlib Require Import List Lia Bool Arith.
Import ListNotations.

Local Open Scope Z_scope.

(* ================================================================== *)
(** ** Numbers *)
(* ================================================================== *)

Inductive number : Type :=
  | Num (q : Q)
  | NaN.

(** The number that stands for the integer [z]. *)
Definition int (z : Z) : number := Num (inject_Z z).

Definition lift2 (f : Q -> Q -> Q) (a b : number) : number :=
  match a, b with
  | Num x, Num y => Num (Qred (f x y))
  | _, _ => NaN
  end.

(** [a + b], [a - b], [a * b], [a / b]. *)
Definition add : number -> number -> number := lift2 Qplus.
Definition sub : number -> number -> number := lift2 Qminus.
Definition mul : number -> number -> number := lift2 Qmult.
Definition div (a b : number) : number :=
  match a, b with
  | Num x, Num y => if Qeq_bool y 0 then NaN else Num (Qred (x / y))
  | _, _ => NaN
  end.
(** Unary minus. *)
Definition neg (a : number) : number :=
  match a with Num x => Num (Qred (- x)) | NaN => NaN end.

(** [a < b], [a <= b], [a > b], [a >= b]: false as soon as one side is NaN. *)
Definition lt (a b : number) : bool :=
  match a, b with
  | Num x, Num y => negb (Qle_bool y x)
  | _, _ => false
  end.
Definition le (a b : number) : bool :=
  match a, b with
  | Num x, Num y => Qle_bool x y
  | _, _ => false
  end.
Definition gt (a b : number) : bool := lt b a.
Definition ge (a b : number) : bool := le b a.

(** [a === b] and [a !== b] on numbers. *)
Definition strict_eq (a b : number) : bool :=
  match a, b with
  | Num x, Num y => Qeq_bool x y
  | _, _ => false
  end.
Definition strict_ne (a b : number) : bool := negb (strict_eq a b).

(** Rounding towards zero, as the quotient of [%] does. *)
Definition Qtrunc (q : Q) : Z :=
  if Qle_bool 0 q then Qfloor q else Qceiling q.

(** [a % b]: the remainder has the sign of the dividend. *)
Definition js_rem (a b : number) : number :=
  match a, b with
  | Num x, Num y =>
      if Qeq_bool y 0 then NaN
      else Num (Qred (x - y * inject_Z (Qtrunc (x / y))))
  | _, _ => NaN
  end.

Definition Math_floor (a : number) : number :=
  match a with Num x => Num (inject_Z (Qfloor x)) | NaN => NaN end.
Definition Math_abs (a : number) : number :=
  match a with Num x => Num (Qred (Qabs x)) | NaN => NaN end.
Definition Math_min (a b : number) : number :=
  match a, b with
  | Num x, Num y => if Qle_bool x y then a else b
  | _, _ => NaN
  end.
Definition Math_max (a b : number) : number :=
  match a, b with
  | Num x, Num y => if Qle_bool x y then b else a
  | _, _ => NaN
  end.

(** [+(b)] for a boolean [b]. *)
Definition of_bool (b : bool) : number := int (if b then 1 else 0).

(** [mod(a, b)]: the unsigned modulus, [((a % b) + b) % b]. *)
Definition mod_ (a b : number) : number :=
  js_rem (add (js_rem a b) b) b.

(** *** Arrays of numbers *)

(** [a.length]. *)
Definition arr_length {A} (a : list A) : number :=
  int (Z.of_nat (length a)).

(** Is [q] an integer, and which one. *)
Definition Qis_int (q : Q) : bool := Qeq_bool q (inject_Z (Qfloor q)).

(** [a[i]]: reading outside the array gives [undefined], which every use
    below turns into NaN. *)
Definition arr_get (a : list number) (i : number) : number :=
  match i with
  | Num q =>
      if Qis_int q && (0 <=? Qfloor q) then nth (Z.to_nat (Qfloor q)) a NaN
      else NaN
  | NaN => NaN
  end.

Fixpoint list_update {A} (l : list A) (n : nat) (v : A) : list A :=
  match l, n with
  | [], _ => []
  | _ :: t, O => v :: t
  | h :: t, S n' => h :: list_update t n' v
  end.

(** [a[i] = v] for an index inside the array.  (Outside it JavaScript would
    grow the array or add a property; no caller below writes there and the
    model leaves the array as it is.) *)
Definition arr_set (a : list number) (i : number) (v : number) : list number :=
  match i with
  | Num q =>
      if Qis_int q && (0 <=? Qfloor q) then list_update a (Z.to_nat (Qfloor q)) v
      else a
  | NaN => a
  end.

(** The values taken by [i] in [for (let i = 0; i < n; i++)]. *)
Definition upto (n : number) : list number :=
  match n with
  | Num q => map (fun k => int (Z.of_nat k)) (seq 0 (Z.to_nat (Qceiling q)))
  | NaN => []
  end.

(* ================================================================== *)
(** ** Errors *)
(* ================================================================== *)

(** The error classes thrown by the module; [UserError] is whatever a
    caller-supplied callback throws. *)
Inductive error : Type :=
  | ValueError
  | RangeError
  | TypeError
  | UserError.

Inductive result (A : Type) : Type :=
  | Ok (a : A)
  | Err (e : error).
Arguments Ok {A} a.
Arguments Err {A} e.

Definition bind {A B} (r : result A) (k : A -> result B) : result B :=
  match r with
  | Ok a => k a
  | Err e => Err e
  end.

Notation "'do' x <- r ; k" := (bind r (fun x => k))
  (at level 10, x name, r at level 100, k at level 200).
(** [if (b) throw new e(...)] followed by [k]. *)
Notation "'when' b 'throw' e ; k" := (if (b : bool) then Err e else k)
  (at level 10, b at level 100, e at level 100, k at level 200).

(** A loop whose body may throw: the first error ends it. *)
Fixpoint mapM {A B} (f : A -> result B) (l : list A) : result (list B) :=
  match l with
  | [] => Ok []
  | a :: rest =>
      do b <- f a;
      do bs <- mapM f rest;
      Ok (b :: bs)
  end.

Fixpoint foldM {A S} (f : S -> A -> result S) (l : list A) (s : S) : result S :=
  match l with
  | [] => Ok s
  | a :: rest => do s' <- f s a; foldM f rest s'
  end.

(* ================================================================== *)
(** ** Matrix *)
(* ================================================================== *)

Record Matrix : Type := mkMatrix {
  dim : list number;
  data : list number
}.

Definition set_data (m : Matrix) (d : list number) : Matrix :=
  {| dim := dim m; data := d |}.

(** The array that [new Array(length).fill(v)] builds when [length] is
    accepted, as the length of another array always is. *)
Definition Array_fill (length : number) (v : number) : list number :=
  repeat v (List.length (upto length)).

(** The loop of the constructor: every dimension is checked, then multiplied
    into [length]. *)
Fixpoint Matrix_length (dim : list number) (length : number) : result number :=
  match dim with
  | [] => Ok length
  | d :: rest =>
      when le d (int 0) throw ValueError;
      when strict_ne (js_rem d (int 1)) (int 0) throw ValueError;
      Matrix_length rest (mul length d)
  end.

(** [new Array(length).fill(v)] for a [length] that is computed: the
    constructor of arrays takes an integer from 0 to 2^32 - 1 and throws a
    [RangeError] for any other number. *)
Definition MAX_ARRAY_LENGTH : Z := 2 ^ 32 - 1.

Definition Array_new_fill (length : number) (v : number)
  : result (list number) :=
  when strict_ne (js_rem length (int 1)) (int 0) throw RangeError;
  when lt length (int 0) || gt length (int MAX_ARRAY_LENGTH) throw RangeError;
  Ok (Array_fill length v).

(** [new Matrix(dim, data)]; [data = None] is the omitted argument. *)
Definition Matrix_new (dim : list number) (data : option (list number))
  : result Matrix :=
  when (List.length dim <=? 0)%nat throw ValueError;
  do length <- Matrix_length dim (int 1);
  do data <- match data with
             | Some d => Ok d
             | None => Array_new_fill length (int 0)
             end;
  when strict_ne (arr_length data) length throw ValueError;
  Ok {| dim := dim; data := data |}.

(** The buffer filled by the two loops of [Matrix.identity]. *)
Definition identity_data (size : number) : list number :=
  flat_map (fun y => map (fun x => of_bool (strict_eq y x)) (upto size))
           (upto size).

(** [Matrix.identity(size)]. *)
Definition identity (size : number) : result Matrix :=
  Matrix_new [size; size] (Some (identity_data size)).

Definition copy (this : Matrix) : result Matrix :=
  Matrix_new (dim this) (Some (data this)).

Definition shape (this : Matrix) : list number := dim this.

Definition reshape (this : Matrix) (dim' : list number) : result Matrix :=
  Matrix_new dim' (Some (data this)).

Definition is2D (this : Matrix) : bool :=
  (List.length (dim this) =? 2)%nat.
Definition isSquare (this : Matrix) : bool :=
  is2D this && strict_eq (arr_get (dim this) (int 0)) (arr_get (dim this) (int 1)).
Definition isVector (this : Matrix) : bool :=
  is2D this && strict_eq (arr_get (dim this) (int 1)) (int 1).

(** The loop of [getIndex], over the indices and the axes side by side. *)
Fixpoint getIndex_loop (indices dims : list number) (dataI : number)
  : result number :=
  match indices, dims with
  | index :: indices', axis :: dims' =>
      when strict_ne (js_rem index (int 1)) (int 0) throw ValueError;
      when lt index (neg axis) throw RangeError;
      when ge index axis throw RangeError;
      getIndex_loop indices' dims'
        (add (mul dataI axis)
             (add index (mul axis (of_bool (lt index (int 0))))))
  | _, _ => Ok dataI
  end.

Definition getIndex (this : Matrix) (indices : list number) : result number :=
  when negb (List.length indices =? List.length (dim this))%nat throw ValueError;
  getIndex_loop indices (dim this) (int 0).

(** The loop of [getIndices]: [length] and [index] are the two mutable
    locals. *)
Fixpoint getIndices_loop (dims : list number) (length index : number)
  : list number :=
  match dims with
  | [] => []
  | axis :: dims' =>
      let length' := div length axis in
      Math_floor (div index length')
        :: getIndices_loop dims' length' (js_rem index length')
  end.

Definition getIndices (this : Matrix) (index : number) : result (list number) :=
  when lt index (int 0) || ge index (arr_length (data this)) throw RangeError;
  when strict_ne (js_rem index (int 1)) (int 0) throw ValueError;
  Ok (getIndices_loop (dim this) (arr_length (data this)) index).

Definition get (this : Matrix) (indices : list number) : result number :=
  do i <- getIndex this indices;
  Ok (arr_get (data this) i).

(** *** In-place methods

    A method that mutates the receiver is a function from the receiver
    before the call to the receiver after it, paired with the outcome: when
    the call throws, the first component is the state the receiver was left
    in. *)
Definition inplace : Type := Matrix -> Matrix * result unit.

(** Running one in-place method after another; a throw ends the sequence. *)
Definition seq_ (f g : inplace) : inplace :=
  fun this =>
    match f this with
    | (this', Ok _) => g this'
    | (this', Err e) => (this', Err e)
    end.

(** [for (let i = 0; i < n; i++) this.data[i] = f(i, this.data)]. *)
Definition data_loop (f : number -> list number -> number) (n : number)
  (d : list number) : list number :=
  fold_left (fun d i => arr_set d i (f i d)) (upto n) d.

Definition set (value : number) (indices : list number) : inplace :=
  fun this =>
    match getIndex this indices with
    | Ok i => (set_data this (arr_set (data this) i value), Ok tt)
    | Err e => (this, Err e)
    end.

Definition fill (value : number) : inplace :=
  fun this => (set_data this (map (fun _ => value) (data this)), Ok tt).

Definition toFilled (this : Matrix) (value : number) : result Matrix :=
  do c <- copy this;
  Ok (fst (fill value c)).

(** A callback [(value, indices) => number]; it may throw. *)
Definition callback : Type := number -> list number -> result number.

Definition map_ (this : Matrix) (f : callback) : result Matrix :=
  do d <- mapM (fun i => do idx <- getIndices this i;
                         f (arr_get (data this) i) idx)
               (upto (arr_length (data this)));
  Matrix_new (dim this) (Some d).

Fixpoint withMap_loop (f : callback) (todo : list number) (this : Matrix)
  : Matrix * result unit :=
  match todo with
  | [] => (this, Ok tt)
  | i :: rest =>
      match (do idx <- getIndices this i; f (arr_get (data this) i) idx) with
      | Ok v => withMap_loop f rest (set_data this (arr_set (data this) i v))
      | Err e => (this, Err e)
      end
  end.

Definition withMap (f : callback) : inplace :=
  fun this => withMap_loop f (upto (arr_length (data this))) this.

(** The buffer [newData] built by [transpose], column after column. *)
Definition transpose_newData (this : Matrix) : result (list number) :=
  do cols <- mapM (fun x =>
                     mapM (fun y => get this [y; x])
                          (upto (arr_get (dim this) (int 0))))
                  (upto (arr_get (dim this) (int 1)));
  Ok (concat cols).

Definition transpose : inplace :=
  fun this =>
    if negb (is2D this) then (this, Err TypeError)
    else
      match transpose_newData this with
      | Ok newData =>
          (set_data this
             (data_loop (fun i _ => arr_get newData i)
                        (arr_length (data this)) (data this)),
           Ok tt)
      | Err e => (this, Err e)
      end.

(** Runs an in-place method on a fresh copy: the [to...] counterpart. *)
Definition on_copy (this : Matrix) (f : inplace) : result Matrix :=
  do c <- copy this;
  match f c with
  | (c', Ok _) => Ok c'
  | (_, Err e) => Err e
  end.

Definition toTransposed (this : Matrix) : result Matrix :=
  on_copy this transpose.

(** The two shape checks shared by [add], [withAdd], [sub] and [withSub]. *)
Definition same_shape (this mat : Matrix) : result unit :=
  when negb (List.length (dim this) =? List.length (dim mat))%nat throw TypeError;
  when existsb (fun i => strict_ne (arr_get (dim this) i) (arr_get (dim mat) i))
               (upto (arr_length (dim this)))
    throw TypeError;
  Ok tt.

Definition add_ (this mat : Matrix) : result Matrix :=
  do _ <- same_shape this mat;
  Matrix_new (dim this)
    (Some (map (fun i => add (arr_get (data this) i) (arr_get (data mat) i))
               (upto (arr_length (data this))))).

Definition withAdd (mat : Matrix) : inplace :=
  fun this =>
    match same_shape this mat with
    | Ok _ =>
        (set_data this
           (data_loop (fun i d => add (arr_get d i) (arr_get (data mat) i))
                      (arr_length (data this)) (data this)),
         Ok tt)
    | Err e => (this, Err e)
    end.

Definition sub_ (this mat : Matrix) : result Matrix :=
  do _ <- same_shape this mat;
  Matrix_new (dim this)
    (Some (map (fun i => sub (arr_get (data this) i) (arr_get (data mat) i))
               (upto (arr_length (data this))))).

Definition withSub (mat : Matrix) : inplace :=
  fun this =>
    match same_shape this mat with
    | Ok _ =>
        (set_data this
           (data_loop (fun i d => sub (arr_get d i) (arr_get (data mat) i))
                      (arr_length (data this)) (data this)),
         Ok tt)
    | Err e => (this, Err e)
    end.

Definition addScalar (this : Matrix) (a : number) : result Matrix :=
  map_ this (fun value _ => Ok (add value a)).
Definition withAddScalar (a : number) : inplace :=
  withMap (fun value _ => Ok (add value a)).
Definition subScalar (this : Matrix) (a : number) : result Matrix :=
  map_ this (fun value _ => Ok (sub value a)).
Definition withSubScalar (a : number) : inplace :=
  withMap (fun value _ => Ok (sub value a)).
Definition mulScalar (this : Matrix) (a : number) : result Matrix :=
  map_ this (fun value _ => Ok (mul value a)).
Definition withMulScalar (a : number) : inplace :=
  fun this =>
    (set_data this
       (data_loop (fun i d => mul (arr_get d i) a)
                  (arr_length (data this)) (data this)),
     Ok tt).

Definition postMul (this mat : Matrix) : result Matrix :=
  when negb (is2D this) throw TypeError;
  when negb (is2D mat) throw TypeError;
  when strict_ne (arr_get (dim this) (int 1)) (arr_get (dim mat) (int 0))
    throw TypeError;
  let newDim := [arr_get (dim this) (int 0); arr_get (dim mat) (int 1)] in
  do rows <- mapM (fun row =>
               mapM (fun col =>
                 foldM (fun value i =>
                          do a <- get this [row; i];
                          do b <- get mat [i; col];
                          Ok (add value (mul a b)))
                       (upto (arr_get (dim this) (int 1))) (int 0))
                 (upto (arr_get newDim (int 1))))
             (upto (arr_get newDim (int 0)));
  Matrix_new newDim (Some (concat rows)).

Definition preMul (this mat : Matrix) : result Matrix := postMul mat this.

(** The inner loop of [det] for one starting column: the products along the
    forward and the backward wrap-around diagonals. *)
Definition det_diagonals (this : Matrix) (size col : number)
  : result (number * number) :=
  foldM (fun (p : number * number) i =>
           do a <- get this [i; mod_ (add col i) size];
           do b <- get this [i; mod_ (sub col i) size];
           Ok (mul (fst p) a, mul (snd p) b))
        (upto size) (int 1, int 1).

Definition det (this : Matrix) : result number :=
  when negb (is2D this) throw TypeError;
  when negb (isSquare this) throw TypeError;
  let size := arr_get (dim this) (int 0) in
  if strict_eq size (int 1) then Ok (arr_get (data this) (int 0))
  else if strict_eq size (int 2) then
    Ok (sub (mul (arr_get (data this) (int 0)) (arr_get (data this) (int 3)))
            (mul (arr_get (data this) (int 1)) (arr_get (data this) (int 2))))
  else
    foldM (fun sum col =>
             do p <- det_diagonals this size col;
             Ok (add sum (sub (fst p) (snd p))))
          (upto size) (int 0).

(** *** Slicing *)

(** One argument of [slice]: a single index, [[start, stop]] or
    [[start, stop, step]]. *)
Inductive range : Type :=
  | Single (r : number)
  | Pair (start stop : number)
  | Triple (start stop step : number).

(** What the first loop of [slice] leaves in [ranges[i]]: the number it
    found there, or the normalised [[start, stop, step]]. *)
Inductive nrange : Type :=
  | NSingle (r : number)
  | NRange (start stop step : number).

(** [start], [stop] and the explicit step, if any, of a range given as an
    array. *)
Definition slice_bounds (start stop : number) (step3 : option number)
  (axis : number) : result (nrange * number) :=
  when strict_ne (js_rem start (int 1)) (int 0) throw ValueError;
  when lt start (neg axis) throw RangeError;
  when ge start axis throw RangeError;
  let start := add start (mul axis (of_bool (lt start (int 0)))) in
  when strict_ne (js_rem stop (int 1)) (int 0) throw ValueError;
  when lt stop (neg axis) throw RangeError;
  when gt stop axis throw RangeError;
  let stop := add stop (mul axis (of_bool (lt stop (int 0)))) in
  let step := match step3 with
              | Some s => s
              | None => if gt stop start then int 1 else int (-1)
              end in
  when strict_ne (js_rem step (int 1)) (int 0) throw ValueError;
  when strict_eq step (int 0) throw ValueError;
  when lt start stop && lt step (int 0) throw ValueError;
  when lt stop start && gt step (int 0) throw ValueError;
  Ok (NRange start stop step,
      Math_floor (div (Math_abs (sub start stop)) step)).

(** The body of the first loop of [slice] for one range and its axis: the
    normalised range and the entry pushed on [newDim]. *)
Definition slice_range (r : range) (axis : number) : result (nrange * number) :=
  match r with
  | Single r =>
      when lt r (int 0) || ge r axis throw RangeError;
      when strict_ne (js_rem r (int 1)) (int 0) throw ValueError;
      Ok (NSingle r, int 1)
  | Pair start stop => slice_bounds start stop None axis
  | Triple start stop step => slice_bounds start stop (Some step) axis
  end.

Fixpoint slice_ranges (ranges : list range) (dims : list number)
  : result (list nrange * list number) :=
  match ranges, dims with
  | r :: ranges', axis :: dims' =>
      do here <- slice_range r axis;
      do rest <- slice_ranges ranges' dims';
      Ok (fst here :: fst rest, snd here :: snd rest)
  | _, _ => Ok ([], [])
  end.

(** [for (let index = start; index < stop; index += step)] and its
    descending twin: the values [index] takes.  [fuel] bounds the number of
    rounds; [slice_dfs] gives the distance between the bounds, which an
    integral non-zero step of the right sign never needs in full. *)
Fixpoint loop_up (fuel : nat) (index stop step : number) : list number :=
  match fuel with
  | O => []
  | S fuel' =>
      if lt index stop then index :: loop_up fuel' (add index step) stop step
      else []
  end.

Fixpoint loop_down (fuel : nat) (index stop step : number) : list number :=
  match fuel with
  | O => []
  | S fuel' =>
      if gt index stop then index :: loop_down fuel' (add index step) stop step
      else []
  end.

Definition range_indices (start stop step : number) : list number :=
  let fuel := List.length (upto (Math_abs (sub stop start))) in
  if lt start stop then loop_up fuel start stop step
  else loop_down fuel start stop step.

(** The recursive closure [dfs(i)] of [slice].  [indices] is the array the
    closure writes to; a call only writes position [i] and deeper ones, all
    rewritten before they are read, so the array is handed down. *)
Fixpoint slice_dfs (this : Matrix) (ranges : list nrange) (i : number)
  (indices : list number) : result (list number) :=
  match ranges with
  | [] => do v <- get this indices; Ok [v]
  | NSingle r :: rest =>
      slice_dfs this rest (add i (int 1)) (arr_set indices i r)
  | NRange start stop step :: rest =>
      do parts <- mapM (fun index =>
                          slice_dfs this rest (add i (int 1))
                                    (arr_set indices i index))
                       (range_indices start stop step);
      Ok (concat parts)
  end.

Definition slice (this : Matrix) (ranges : list range) : result Matrix :=
  when (List.length (dim this) <? List.length ranges)%nat throw ValueError;
  let ranges :=
    ranges ++ map (fun d => Pair (int 0) d)
                  (skipn (List.length ranges) (dim this)) in
  do checked <- slice_ranges ranges (dim this);
  let indices := Array_fill (arr_length (dim this)) (int 0) in
  do newData <- slice_dfs this (fst checked) (int 0) indices;
  Matrix_new (snd checked) (Some newData).

(* ================================================================== *)
(** ** Vec *)
(* ================================================================== *)

Module Vec.

(** A [Vec] is a [Matrix] built with the dimensions [[size, 1]]. *)
Definition new (size : number) (data : list number) : result Matrix :=
  Matrix_new [size; int 1] (Some data).

Definition isVec (size : number) (mat : Matrix) : bool :=
  isVector mat && strict_eq (arr_get (shape mat) (int 0)) size.

(** [while (data.length < size) data.push(0)]. *)
Definition pad_zeros (size : number) (data : list number) : list number :=
  data ++ repeat (int 0) (List.length (upto size) - List.length data).

(** The static [Vec.toVec(size, mat)]. *)
Definition toVec (size : number) (mat : Matrix) : result Matrix :=
  when negb (isVector mat) throw ValueError;
  do data <- mapM (fun i => get mat [i; int 0])
                  (upto (Math_min size (arr_get (shape mat) (int 0))));
  new size (pad_zeros size data).

Definition size (this : Matrix) : number := arr_get (dim this) (int 0).

(** The instance methods [isVec] and [toVec]. *)
Definition isVec' (this mat : Matrix) : bool := isVec (size this) mat.
Definition toVec' (this mat : Matrix) : result Matrix := toVec (size this) mat.

(** [Vec.copy]: the copy made by [Matrix.copy], cast back. *)
Definition copy (this : Matrix) : result Matrix :=
  do c <- copy this;
  toVec' this c.

Definition magSquared (this : Matrix) : number :=
  fold_left add (map (fun value => mul value value) (data this)) (int 0).

Definition getAxis (this : Matrix) (i : number) : result number :=
  when lt i (int 0) || ge i (size this) throw RangeError;
  when strict_ne (js_rem i (int 1)) (int 0) throw ValueError;
  Ok (arr_get (data this) i).

(** The getters and setters of the named axes; [k] is 1 for [x], 2 for [y],
    3 for [z] and 4 for [w]. *)
Definition axis_get (k : Z) (this : Matrix) : number :=
  if lt (size this) (int k) then NaN else arr_get (data this) (int (k - 1)).
Definition axis_set (k : Z) (value : number) : inplace :=
  fun this =>
    if lt (size this) (int k) then (this, Ok tt)
    else (set_data this (arr_set (data this) (int (k - 1)) value), Ok tt).

Definition x := axis_get 1.
Definition y := axis_get 2.
Definition z := axis_get 3.
Definition w := axis_get 4.
Definition set_x := axis_set 1.
Definition set_y := axis_set 2.
Definition set_z := axis_set 3.
Definition set_w := axis_set 4.

Definition dot (this mat : Matrix) : result number :=
  do vec <- toVec' this mat;
  foldM (fun sum i =>
           do a <- getAxis this i;
           do b <- getAxis vec i;
           Ok (add sum (mul a b)))
        (upto (size this)) (int 0).

Definition project (this mat : Matrix) : result Matrix :=
  do vec <- toVec' this mat;
  do d <- dot this vec;
  do scaled <- mulScalar this (div d (magSquared this));
  toVec' this scaled.

Definition withProject (mat : Matrix) : inplace :=
  fun this =>
    match (do vec <- toVec' this mat; dot this vec) with
    | Ok d => withMulScalar (div d (magSquared this)) this
    | Err e => (this, Err e)
    end.

(** The functions of [Math] that leave the rationals, and [Math.PI], are
    parameters of the methods that call them. *)
Section Trigonometry.

Variable Math_sqrt Math_cos Math_sin : number -> number.
Variable Math_PI : number.

Definition mag (this : Matrix) : number := Math_sqrt (magSquared this).

Definition unit : inplace :=
  fun this =>
    if gt (magSquared this) (int 0)
    then withMulScalar (div (int 1) (mag this)) this
    else (this, Ok tt).

Definition toUnit (this : Matrix) : result Matrix :=
  do v <- toVec' this this;
  match unit v with
  | (v', Ok _) => Ok v'
  | (_, Err e) => Err e
  end.

Definition rotate (angle : number) : inplace :=
  fun this =>
    if strict_ne (size this) (int 2) then (this, Ok tt)
    else
      let vx := x this in
      let angleX := angle in
      let vy := y this in
      let angleY := add angle (int 90) in
      let xX := mul vx (Math_cos (div (mul angleX Math_PI) (int 180))) in
      let xY := mul vx (Math_sin (div (mul angleX Math_PI) (int 180))) in
      let yX := mul vy (Math_cos (div (mul angleY Math_PI) (int 180))) in
      let yY := mul vy (Math_sin (div (mul angleY Math_PI) (int 180))) in
      seq_ (set_x (add xX yX)) (set_y (add xY yY)) this.

Definition toRotate (this : Matrix) (angle : number) : result Matrix :=
  do v <- toVec' this this;
  match rotate angle v with
  | (v', Ok _) => Ok v'
  | (_, Err e) => Err e
  end.

End Trigonometry.

End Vec.

(* ================================================================== *)
(** ** Well-formed matrices and the integer view of index arithmetic *)
(* ================================================================== *)

Definition prodZ (dz : list Z) : Z := fold_right Z.mul 1 dz.

(** [shaped m dz]: the state every constructed matrix is in, with the
    dimensions [dz]: positive integers whose product is the buffer length. *)
Definition shaped (m : Matrix) (dz : list Z) : Prop :=
  dim m = map int dz /\ dz <> [] /\ Forall (fun d => 0 < d) dz /\
  Z.of_nat (length (data m)) = prodZ dz.

Definition wf (m : Matrix) : Prop := exists dz, shaped m dz.

(** The matrix that [Matrix.identity(n)] returns. *)
Definition identity_matrix (n : Z) : Matrix :=
  {| dim := [int n; int n]; data := identity_data (int n) |}.

(** A multi-index [zs] that [getIndex] accepts on the dimensions [dz]. *)
Definition valid_index (zs dz : list Z) : Prop :=
  Forall2 (fun z d => - d <= z < d) zs dz.

(** A negative index counts from the end of its axis. *)
Definition normZ (d z : Z) : Z := if z <? 0 then z + d else z.

Fixpoint normalize (zs dz : list Z) : list Z :=
  match zs, dz with
  | z :: zs', d :: dz' => normZ d z :: normalize zs' dz'
  | _, _ => []
  end.

(** The row-major offset of a multi-index, and the digits of an offset. *)
Fixpoint flatZ (zs dz : list Z) : Z :=
  match zs, dz with
  | z :: zs', d :: dz' => normZ d z * prodZ dz' + flatZ zs' dz'
  | _, _ => 0
  end.

Fixpoint unflatZ (dz : list Z) (f : Z) : list Z :=
  match dz with
  | [] => []
  | _ :: dz' => f / prodZ dz' :: unflatZ dz' (f mod prodZ dz')
  end.

(** *** The determinant scheme in the words of the specification

    For each starting column [c], the product of the forward diagonal
    [M[i, (c+i) mod size]] minus the product of the backward diagonal
    [M[i, (c-i) mod size]], summed over the columns.  [M] is given by its
    rows, flattened. *)
Definition entryZ (M : list Z) (size i j : Z) : Z :=
  nth (Z.to_nat (i * size + j)) M 0.

Definition rangeZ (n : Z) : list Z := map Z.of_nat (seq 0 (Z.to_nat n)).

Definition productZ (l : list Z) : Z := fold_left Z.mul l 1.
Definition sumZ (l : list Z) : Z := fold_left Z.add l 0.

Definition wrap_diagonal_sum (size : Z) (M : list Z) : Z :=
  sumZ (map (fun c =>
               productZ (map (fun i => entryZ M size i ((c + i) mod size))
                             (rangeZ size))
               - productZ (map (fun i => entryZ M size i ((c - i) mod size))
                               (rangeZ size)))
            (rangeZ size)).

(** A number other than NaN. *)
Definition is_num (x : number) : Prop := x <> NaN.

(** What every arithmetic operation returns: NaN or a reduced fraction. *)
Definition normal (x : number) : Prop :=
  match x with
  | Num q => Qred q = q
  | NaN => True
  end.

(** The sum [sum += xs[i] * ys[i]] over the first [n] positions. *)
Definition dot_sum (xs ys : list number) (idx : list nat) (s : number) : number :=
  fold_left (fun s i => add s (mul (nth i xs NaN) (nth i ys NaN))) idx s.

(** *** Calls of the in-place methods

    One constructor for each method that mutates its receiver, with the
    arguments of the call. *)
Inductive method : Type :=
  | call_set (value : number) (indices : list number)
  | call_fill (value : number)
  | call_withMap (f : callback)
  | call_transpose
  | call_withAdd (mat : Matrix)
  | call_withSub (mat : Matrix)
  | call_withAddScalar (a : number)
  | call_withSubScalar (a : number)
  | call_withMulScalar (a : number)
  | call_set_axis (k : Z) (value : number)
  | call_unit
  | call_rotate (angle : number)
  | call_withProject (mat : Matrix).

Definition run (Math_sqrt Math_cos Math_sin : number -> number)
  (Math_PI : number) (c : method) : inplace :=
  match c with
  | call_set value indices => set value indices
  | call_fill value => fill value
  | call_withMap f => withMap f
  | call_transpose => transpose
  | call_withAdd mat => withAdd mat
  | call_withSub mat => withSub mat
  | call_withAddScalar a => withAddScalar a
  | call_withSubScalar a => withSubScalar a
  | call_withMulScalar a => withMulScalar a
  | call_set_axis k value => Vec.axis_set k value
  | call_unit => Vec.unit Math_sqrt
  | call_rotate angle => Vec.rotate Math_cos Math_sin Math_PI angle
  | call_withProject mat => Vec.withProject mat
  end.

(** The methods that have no check of their own and call nothing that has
    one: they cannot throw. *)
Definition never_raises (c : method) : bool :=
  match c with
  | call_fill _ | call_withAddScalar _ | call_withSubScalar _
  | call_withMulScalar _ | call_set_axis _ _ | call_unit | call_rotate _ => true
  | call_set _ _ | call_withMap _ | call_transpose | call_withAdd _
  | call_withSub _ | call_withProject _ => false
  end.

(** A finite number.  The values [Num q] stand for the finite numbers of the
    program; NaN is not one of them, and neither are the two infinities,
    which the model leaves out. *)
Definition finite (x : number) : Prop := exists q, x = Num q.

(** The callback of the counterexample to C6: it throws on the element of
    index 1 and adds 10 to the others. *)
Definition throwing_callback : callback :=
  fun value indices =>
    if strict_eq (arr_get indices (int 0)) (int 1) then Err UserError
    else Ok (add value (int 10)).

(** *** Dimensions accepted by the constructor *)

(** The number [x] is the integer [z]. *)
Definition repr (x : number) (z : Z) : Prop :=
  exists q, x = Num q /\ (q == inject_Z z)%Q.

(** A non-empty list of positive integers whose product is [count]. *)
Definition valid_dims (dim' : list number) (count : nat) : Prop :=
  dim' <> [] /\
  exists dz, Forall2 repr dim' dz /\ Forall (fun d => 0 < d) dz /\
             prodZ dz = Z.of_nat count.

(** *** Matrices as objects

    The arrays of the program live in a store, and a matrix object holds
    the addresses of its [dim] and [data] arrays.  [[...a]] allocates a
    fresh array; the in-place methods write into the array at [data_at]. *)
Module Heap.

Definition loc : Type := nat.
Definition heap : Type := list (list number).

Record object : Type := mkObject {
  dim_at : loc;
  data_at : loc
}.

Definition alloc (h : heap) (a : list number) : heap * loc :=
  (h ++ [a], length h).
Definition read (h : heap) (l : loc) : list number := nth l h [].
Definition write (h : heap) (l : loc) (a : list number) : heap :=
  list_update h l a.

Definition allocated (h : heap) (o : object) : Prop :=
  (dim_at o < length h)%nat /\ (data_at o < length h)%nat.

(** The matrix an object stands for. *)
Definition value (h : heap) (o : object) : Matrix :=
  {| dim := read h (dim_at o); data := read h (data_at o) |}.

(** [new Matrix(dim, data)]: the checks of [Matrix_new], and the two copies
    [[...dim]] and [[...data]] (or the zero-filled array) as new arrays. *)
Definition construct (h : heap) (dims : list number)
  (buffer : option (list number)) : result (heap * object) :=
  do m <- Matrix_new dims buffer;
  let (h1, ld) := alloc h (dim m) in
  let (h2, la) := alloc h1 (data m) in
  Ok (h2, {| dim_at := ld; data_at := la |}).

(** [this.reshape(dim)]: [new Matrix(dim, this.data)]. *)
Definition reshape (h : heap) (this : object) (dim' : list number)
  : result (heap * object) :=
  construct h dim' (Some (read h (data_at this))).

(** An in-place method called on an object: its writes go to the object's
    [data] array. *)
Definition call (f : inplace) (h : heap) (o : object) : heap * result unit :=
  let (m', r) := f (value h o) in
  (write h (data_at o) (data m'), r).

End Heap.

(** The buffer of an [r] x [c] matrix read column after column. *)
Definition transposed (r c : Z) (d : list number) : list number :=
  flat_map (fun x => map (fun y => nth (Z.to_nat (y * c + x)) d NaN) (rangeZ r))
           (rangeZ c).

(** The values of [index] in the loops of [slice_dfs], computed directly:
    [count] values from [start], [step] apart. *)
Definition stepsZ (count : nat) (start step : Z) : list Z :=
  map (fun k => start + Z.of_nat k * step) (seq 0 count).

(* ================================================================== *)
(** ** Further definitions *)
(* ================================================================== *)

(** The zero-filled buffer of a matrix built without data. *)
Definition zeros (n : nat) : list number := repeat (int 0) n.

(** A number that is an integer (NaN is not). *)
Definition integral (x : number) : Prop := exists z, repr x z.

(** *** Integers that a number holds exactly

    Up to [MAX_SAFE_INTEGER] in absolute value every integer is a number of
    the program, and a sum, a difference, a product or a remainder of such
    integers that stays in the range is computed without rounding. *)
Definition MAX_SAFE_INTEGER : Z := 2 ^ 53 - 1.

Definition safe_integer (z : Z) : Prop :=
  - MAX_SAFE_INTEGER <= z <= MAX_SAFE_INTEGER.

(** *** The scalar helpers of the module *)

Definition clampMin (value min : number) : number := Math_max value min.
Definition clampMax (value max : number) : number := Math_min value max.

(** [clamp]: the bounds are swapped first when [min > max]. *)
Definition clamp (value min max : number) : number :=
  if gt min max then clampMax (clampMin value max) min
  else clampMax (clampMin value min) max.

Definition clampAngleDegs (angle : number) : number := mod_ angle (int 360).

Definition angleDiffDegs (src dst : number) : number :=
  let src := clampAngleDegs src in
  let dst := clampAngleDegs dst in
  let diff := clampAngleDegs (sub dst src) in
  if gt diff (int 180) then sub diff (int 360) else diff.

(** *** The matrix product, entry by entry *)

(** [value += this.get(row, i) * mat.get(i, col)] for [i] from 0 to [k - 1],
    on the two buffers. *)
Definition product_entry (da db : list number) (k c row col : nat) : number :=
  fold_left (fun value i =>
               add value (mul (nth (row * k + i) da NaN)
                              (nth (i * c + col) db NaN)))
            (seq 0 k) (int 0).

Definition product_data (da db : list number) (r k c : nat) : list number :=
  flat_map (fun row => map (fun col => product_entry da db k c row col)
                           (seq 0 c))
           (seq 0 r).

(** *** The cross product and the transform matrix *)

(** [Vec.getCrossMat]: the matrix that, premultiplied, takes the cross
    product with this vector. *)
Definition getCrossMat (this : Matrix) : result Matrix :=
  do vec <- Vec.toVec (int 3) this;
  let x := Vec.x vec in
  let y := Vec.y vec in
  let z := Vec.z vec in
  Matrix_new [int 3; int 3]
    (Some [int 0; neg z; y; z; int 0; neg x; neg y; x; int 0]).

Definition cross (this mat : Matrix) : result Matrix :=
  do aMat <- getCrossMat this;
  do b <- Vec.toVec (int 3) mat;
  do p <- postMul aMat b;
  Vec.toVec (int 3) p.

(** [getTransformMatrix]: the 4 x 4 matrix is local to the call, so only
    its final state is returned. *)
Definition getTransformMatrix (translate rotation : Matrix) : result Matrix :=
  when negb (is2D rotation) throw TypeError;
  when strict_ne (arr_get (shape rotation) (int 0)) (int 3)
       || strict_ne (arr_get (shape rotation) (int 1)) (int 3)
    throw TypeError;
  do mat <- Matrix_new [int 4; int 4]
              (Some [int 0; int 0; int 0; Vec.x translate;
                     int 0; int 0; int 0; Vec.y translate;
                     int 0; int 0; int 0; Vec.z translate;
                     int 0; int 0; int 0; int 1]);
  foldM (fun mat x =>
           foldM (fun mat y =>
                    do v <- get rotation [x; y];
                    match set v [x; y] mat with
                    | (mat', Ok _) => Ok mat'
                    | (_, Err e) => Err e
                    end)
                 (upto (int 3)) mat)
        (upto (int 3)) mat.

(** *** The ranges that [slice] serves, in integers *)

(** One argument of [slice] with integer entries: a single index, or
    [[s, t]] and [[s, t, p]]. *)
Inductive selector : Type :=
  | One (r : Z)
  | Span (s t : Z) (p : option Z).

Definition to_range (sel : selector) : range :=
  match sel with
  | One r => Single (int r)
  | Span s t None => Pair (int s) (int t)
  | Span s t (Some p) => Triple (int s) (int t) (int p)
  end.

(** The step of an ascending range: the one given, or 1. *)
Definition span_step (p : option Z) : Z :=
  match p with Some p => p | None => 1 end.

(** [served d sel]: on an axis of length [d], a single index inside the
    axis, or a range that ascends once its bounds are counted from the end
    where negative, with a positive step that divides the distance. *)
Definition served (d : Z) (sel : selector) : Prop :=
  match sel with
  | One r => 0 <= r < d
  | Span s t p =>
      - d <= s < d /\ - d <= t <= d /\ normZ d s < normZ d t /\
      0 < span_step p /\ (span_step p | normZ d t - normZ d s)
  end.

(** The first index taken on the axis, the distance between two indices
    taken, and their number. *)
Definition first_index (d : Z) (sel : selector) : Z :=
  match sel with One r => r | Span s _ _ => normZ d s end.
Definition stride (sel : selector) : Z :=
  match sel with One _ => 1 | Span _ _ p => span_step p end.
Definition count (d : Z) (sel : selector) : Z :=
  match sel with
  | One _ => 1
  | Span s t p => (normZ d t - normZ d s) / span_step p
  end.

Fixpoint counts (dz : list Z) (sels : list selector) : list Z :=
  match dz, sels with
  | d :: dz', sel :: sels' => count d sel :: counts dz' sels'
  | _, _ => []
  end.

(** The element of the source that position [ks] of the slice shows. *)
Fixpoint picked (dz : list Z) (sels : list selector) (ks : list Z) : list Z :=
  match dz, sels, ks with
  | d :: dz', sel :: sels', k :: ks' =>
      first_index d sel + k * stride sel :: picked dz' sels' ks'
  | _, _, _ => []
  end.

(** The ranges after [slice] has completed them: the axes left without a
    range are taken whole. *)
Definition all_axes (dz : list Z) (sels : list selector) : list selector :=
  sels ++ map (fun d => Span 0 d None) (skipn (length sels) dz).

(** What the first loop of [slice] leaves in [ranges], and the multi-indices
    that [dfs] visits below the prefix it was given, in order. *)
Definition to_nrange (d : Z) (sel : selector) : nrange :=
  match sel with
  | One r => NSingle (int r)
  | Span s t p => NRange (int (normZ d s)) (int (normZ d t)) (int (span_step p))
  end.

Fixpoint nranges (dz : list Z) (sels : list selector) : list nrange :=
  match dz, sels with
  | d :: dz', sel :: sels' => to_nrange d sel :: nranges dz' sels'
  | _, _ => []
  end.

Fixpoint visited (dz : list Z) (sels : list selector) (prefix : list Z)
  : list (list Z) :=
  match dz, sels with
  | d :: dz', sel :: sels' =>
      flat_map (fun k => visited dz' sels'
                           (prefix ++ [first_index d sel + k * stride sel]))
               (rangeZ (count d sel))
  | _, _ => [prefix]
  end.

(* ================================================================== *)
(** ** Integers among the numbers *)
(* ================================================================== *)

Arguments int : simpl never.
Arguments add : simpl never.
Arguments sub : simpl never.
Arguments mul : simpl never.
Arguments div : simpl never.
Arguments neg : simpl never.
Arguments lt : simpl never.
Arguments le : simpl never.
Arguments gt : simpl never.
Arguments ge : simpl never.
Arguments strict_eq : simpl never.
Arguments strict_ne : simpl never.
Arguments js_rem : simpl never.
Arguments mod_ : simpl never.
Arguments of_bool : simpl never.
Arguments Math_floor : simpl never.
Arguments Math_abs : simpl never.
Arguments Math_min : simpl never.
Arguments arr_get : simpl never.
Arguments arr_set : simpl never.
Arguments arr_length : simpl never.
Arguments upto : simpl never.

Lemma Qred_inject_Z (z : Z) : Qred (inject_Z z) = inject_Z z.
Proof.
  unfold inject_Z, Qred.
  pose proof (Z.ggcd_gcd z 1) as Hg. pose proof (Z.ggcd_correct_divisors z 1) as Hd.
  destruct (Z.ggcd z 1) as [g [aa bb]]. cbn [fst snd] in *.
  rewrite Z.gcd_1_r in Hg. destruct Hd as [Ha Hb].
  rewrite Hg in Ha, Hb.
  replace aa with z by lia. replace bb with 1 by lia. reflexivity.
Qed.

Lemma Qred_int (q : Q) (z : Z) : (q == inject_Z z)%Q -> Qred q = inject_Z z.
Proof. intros H. rewrite (Qred_complete _ _ H). apply Qred_inject_Z. Qed.

Lemma int_inj (a b : Z) : int a = int b -> a = b.
Proof. unfold int, inject_Z. congruence. Qed.

Lemma add_int (a b : Z) : add (int a) (int b) = int (a + b).
Proof. unfold add, lift2, int. f_equal. apply Qred_int. now rewrite inject_Z_plus. Qed.

Lemma sub_int (a b : Z) : sub (int a) (int b) = int (a - b).
Proof.
  unfold sub, lift2, int. f_equal. apply Qred_int.
  unfold Z.sub, Qminus. now rewrite inject_Z_plus, inject_Z_opp.
Qed.

Lemma mul_int (a b : Z) : mul (int a) (int b) = int (a * b).
Proof. unfold mul, lift2, int. f_equal. apply Qred_int. now rewrite inject_Z_mult. Qed.

Lemma neg_int (a : Z) : neg (int a) = int (- a).
Proof. unfold neg, int. f_equal. apply Qred_int. now rewrite inject_Z_opp. Qed.

Lemma le_int (a b : Z) : le (int a) (int b) = (a <=? b).
Proof.
  unfold le, int. apply eq_true_iff_eq.
  rewrite Qle_bool_iff, Z.leb_le, Zle_Qle. reflexivity.
Qed.

Lemma lt_int (a b : Z) : lt (int a) (int b) = (a <? b).
Proof.
  unfold lt. change (negb (le (int b) (int a)) = (a <? b)).
  rewrite le_int. rewrite Z.ltb_antisym. reflexivity.
Qed.

Lemma ge_int (a b : Z) : ge (int a) (int b) = (b <=? a).
Proof. apply le_int. Qed.

Lemma gt_int (a b : Z) : gt (int a) (int b) = (b <? a).
Proof. apply lt_int. Qed.

Lemma strict_eq_int (a b : Z) : strict_eq (int a) (int b) = (a =? b).
Proof.
  unfold strict_eq, int. apply eq_true_iff_eq.
  rewrite Qeq_bool_iff, Z.eqb_eq. split.
  - apply inject_Z_injective.
  - now intros ->.
Qed.

Lemma strict_ne_int (a b : Z) : strict_ne (int a) (int b) = negb (a =? b).
Proof. unfold strict_ne. now rewrite strict_eq_int. Qed.

Lemma of_bool_int (b : bool) : of_bool b = int (if b then 1 else 0).
Proof. reflexivity. Qed.

Lemma Qeq_bool_int_0 (b : Z) : Qeq_bool (inject_Z b) 0 = (b =? 0).
Proof. apply (strict_eq_int b 0). Qed.

(** The quotient of two integers, seen as a fraction. *)
Lemma Qdiv_int (a b : Z) :
  b <> 0 ->
  (inject_Z a / inject_Z b)%Q = (a * Z.sgn b # Z.to_pos (Z.abs b))%Q.
Proof.
  intros Hb. unfold Qdiv, Qinv, Qmult, inject_Z. simpl.
  destruct b as [|p|p]; [contradiction| |]; simpl; reflexivity.
Qed.

Lemma Qfloor_div_int (a b : Z) :
  b <> 0 -> Qfloor (inject_Z a / inject_Z b) = a / b.
Proof.
  intros Hb. rewrite Qdiv_int by lia. unfold Qfloor.
  rewrite Z2Pos.id by lia.
  destruct (Z.lt_total b 0) as [Hn|[?|Hp]]; [|lia|].
  - rewrite Z.sgn_neg, Z.abs_neq by lia.
    replace (a * -1) with (- a) by lia. apply Z.div_opp_opp. lia.
  - now rewrite Z.sgn_pos, Z.mul_1_r, Z.abs_eq by lia.
Qed.

Lemma Qtrunc_div_int (a b : Z) :
  b <> 0 -> Qtrunc (inject_Z a / inject_Z b) = Z.quot a b.
Proof.
  intros Hb. rewrite Qdiv_int by assumption. unfold Qtrunc, Qle_bool, Qceiling, Qfloor, Qopp.
  cbn [Qnum Qden]. rewrite Z.mul_1_r, Z.mul_0_l.
  assert (Hp : Z.pos (Z.to_pos (Z.abs b)) = Z.abs b) by (apply Z2Pos.id; lia).
  rewrite Hp.
  destruct (Z.leb_spec 0 (a * Z.sgn b)) as [Hs|Hs].
  - rewrite <- Z.quot_div_nonneg by lia.
    destruct (Z.lt_total b 0) as [Hn|[?|Hpos]]; [|lia|].
    + replace (a * Z.sgn b) with (- a) in * by (rewrite Z.sgn_neg; lia).
      rewrite Z.abs_neq by lia. now rewrite Z.quot_opp_opp by lia.
    + replace (a * Z.sgn b) with a in * by (rewrite Z.sgn_pos; lia).
      now rewrite Z.abs_eq by lia.
  - destruct (Z.lt_total b 0) as [Hn|[?|Hpos]]; [|lia|].
    + replace (a * Z.sgn b) with (- a) in * by (rewrite Z.sgn_neg; lia).
      rewrite Z.abs_neq, Z.opp_involutive by lia.
      rewrite <- Z.quot_div_nonneg by lia. rewrite Z.quot_opp_r by lia. lia.
    + replace (a * Z.sgn b) with a in * by (rewrite Z.sgn_pos; lia).
      rewrite Z.abs_eq by lia.
      rewrite <- Z.quot_div_nonneg by lia. rewrite Z.quot_opp_l by lia. lia.
Qed.

Lemma js_rem_int (a b : Z) : b <> 0 -> js_rem (int a) (int b) = int (Z.rem a b).
Proof.
  intros Hb. unfold js_rem, int. rewrite Qeq_bool_int_0.
  destruct (Z.eqb_spec b 0) as [|_]; [contradiction|].
  f_equal. apply Qred_int. rewrite Qtrunc_div_int by assumption.
  unfold Qminus. rewrite <- inject_Z_mult, <- inject_Z_opp, <- inject_Z_plus.
  pose proof (Z.quot_rem' a b).
  replace (a + - (b * (a ÷ b))) with (Z.rem a b) by lia. reflexivity.
Qed.

Lemma js_rem_int_1 (a : Z) : js_rem (int a) (int 1) = int 0.
Proof. rewrite js_rem_int by lia. now rewrite Z.rem_1_r. Qed.

Lemma is_integer_int (a : Z) : strict_ne (js_rem (int a) (int 1)) (int 0) = false.
Proof. now rewrite js_rem_int_1. Qed.

Lemma js_rem_int_nonneg (a b : Z) :
  0 <= a -> 0 < b -> js_rem (int a) (int b) = int (a mod b).
Proof. intros. rewrite js_rem_int by lia. now rewrite Z.rem_mod_nonneg by lia. Qed.

Lemma mod_int (a b : Z) : 0 < b -> mod_ (int a) (int b) = int (a mod b).
Proof.
  intros Hb. unfold mod_. rewrite js_rem_int by lia. rewrite add_int.
  pose proof (Z.rem_bound_abs a b ltac:(lia)) as Hr.
  assert (0 <= Z.rem a b + b) by lia.
  rewrite js_rem_int_nonneg by lia. f_equal.
  rewrite Z.add_mod by lia. rewrite Z.mod_same, Z.add_0_r by lia.
  rewrite Z.mod_mod by lia.
  pose proof (Z.quot_rem' a b).
  rewrite <- (Z.mod_add (Z.rem a b) (a ÷ b) b) by lia.
  f_equal. lia.
Qed.

Lemma floor_div_int (a b : Z) :
  b <> 0 -> Math_floor (div (int a) (int b)) = int (a / b).
Proof.
  intros Hb. unfold div, int. rewrite Qeq_bool_int_0.
  destruct (Z.eqb_spec b 0); [lia|]. unfold Math_floor. do 2 f_equal.
  rewrite (Qfloor_comp _ _ (Qred_correct _)). now apply Qfloor_div_int.
Qed.

Lemma div_int_exact (a b : Z) :
  b <> 0 -> (b | a) -> div (int a) (int b) = int (a / b).
Proof.
  intros Hb [k ->]. unfold div, int. rewrite Qeq_bool_int_0.
  destruct (Z.eqb_spec b 0); [lia|]. f_equal. apply Qred_int.
  rewrite Z.div_mul by assumption. rewrite inject_Z_mult.
  field. intros H0. apply n. apply inject_Z_injective. exact H0.
Qed.

Lemma Math_floor_int (a : Z) : Math_floor (int a) = int a.
Proof. unfold Math_floor, int. now rewrite Qfloor_Z. Qed.

Lemma Math_abs_int (a : Z) : Math_abs (int a) = int (Z.abs a).
Proof.
  unfold Math_abs, int. f_equal. apply Qred_int.
  unfold Qabs, inject_Z. simpl. reflexivity.
Qed.

Lemma Math_min_int (a b : Z) : Math_min (int a) (int b) = int (Z.min a b).
Proof.
  pose proof (le_int a b) as H. unfold le, int in H.
  unfold Math_min, int. rewrite H.
  destruct (Z.leb_spec a b); do 2 f_equal; lia.
Qed.

Lemma Qis_int_inject (a : Z) : Qis_int (inject_Z a) = true.
Proof. unfold Qis_int. rewrite Qfloor_Z. apply Qeq_bool_refl. Qed.

Lemma arr_get_int (l : list number) (i : Z) :
  0 <= i -> arr_get l (int i) = nth (Z.to_nat i) l NaN.
Proof.
  intros Hi. unfold arr_get, int. rewrite Qis_int_inject, Qfloor_Z.
  destruct (Z.leb_spec 0 i); [reflexivity|lia].
Qed.

Lemma arr_set_int (l : list number) (i : Z) (v : number) :
  0 <= i -> arr_set l (int i) v = list_update l (Z.to_nat i) v.
Proof.
  intros Hi. unfold arr_set, int. rewrite Qis_int_inject, Qfloor_Z.
  destruct (Z.leb_spec 0 i); [reflexivity|lia].
Qed.

Lemma upto_int (n : Z) :
  upto (int n) = map (fun k => int (Z.of_nat k)) (seq 0 (Z.to_nat n)).
Proof. unfold upto, int. now rewrite Qceiling_Z. Qed.

Lemma length_upto_int (n : Z) : length (upto (int n)) = Z.to_nat n.
Proof. rewrite upto_int. now rewrite length_map, length_seq. Qed.

(* ================================================================== *)
(** ** Index mapping *)
(* ================================================================== *)

Lemma prodZ_pos (dz : list Z) : Forall (fun d => 0 < d) dz -> 0 < prodZ dz.
Proof. induction 1; simpl; [lia|]. apply Z.mul_pos_pos; assumption. Qed.

Lemma normZ_bounds (d z : Z) : - d <= z < d -> 0 <= normZ d z < d.
Proof. unfold normZ. destruct (Z.ltb_spec z 0); lia. Qed.

Lemma normZ_nonneg (d z : Z) : 0 <= z -> normZ d z = z.
Proof. unfold normZ. destruct (Z.ltb_spec z 0); lia. Qed.

Lemma flatZ_bounds (zs dz : list Z) :
  valid_index zs dz -> 0 <= flatZ zs dz < prodZ dz.
Proof.
  induction 1 as [|z d zs dz Hz _ IH]; simpl; [lia|].
  apply normZ_bounds in Hz. nia.
Qed.

Lemma valid_index_pos (zs dz : list Z) :
  valid_index zs dz -> Forall (fun d => 0 < d) dz.
Proof. induction 1; constructor; [lia|assumption]. Qed.

(** The loop of [getIndex] computes [flatZ], by accumulation from the left. *)
Lemma getIndex_loop_int (zs dz : list Z) (acc : Z) :
  valid_index zs dz ->
  getIndex_loop (map int zs) (map int dz) (int acc)
  = Ok (int (acc * prodZ dz + flatZ zs dz)).
Proof.
  intros H. revert acc. induction H as [|z d zs dz Hz _ IH]; intros acc; simpl.
  - do 2 f_equal. lia.
  - rewrite is_integer_int, neg_int, lt_int, ge_int.
    destruct (Z.ltb_spec z (- d)); [lia|]. destruct (Z.leb_spec d z); [lia|].
    rewrite lt_int, of_bool_int, !mul_int, !add_int, IH. do 2 f_equal.
    unfold normZ. destruct (z <? 0); lia.
Qed.

Lemma getIndex_int (m : Matrix) (zs dz : list Z) :
  dim m = map int dz -> valid_index zs dz ->
  getIndex m (map int zs) = Ok (int (flatZ zs dz)).
Proof.
  intros Hd H. unfold getIndex. rewrite Hd, !length_map.
  rewrite (Forall2_length H), Nat.eqb_refl. simpl.
  now rewrite (getIndex_loop_int zs dz 0 H).
Qed.

(** The loop of [getIndices] computes [unflatZ]. *)
Lemma getIndices_loop_int (dz : list Z) (f : Z) :
  Forall (fun d => 0 < d) dz -> 0 <= f ->
  getIndices_loop (map int dz) (int (prodZ dz)) (int f)
  = map int (unflatZ dz f).
Proof.
  intros H. revert f. induction H as [|d dz Hd Hpos IH]; intros f Hf; simpl; [reflexivity|].
  pose proof (prodZ_pos dz Hpos) as HP.
  rewrite div_int_exact by (try lia; exists (prodZ dz); lia).
  replace (d * prodZ dz / d) with (prodZ dz) by (rewrite Z.mul_comm, Z.div_mul; lia).
  rewrite floor_div_int, js_rem_int_nonneg by lia.
  rewrite IH by (apply Z.mod_pos_bound; lia). reflexivity.
Qed.

Lemma getIndices_int (m : Matrix) (dz : list Z) (f : Z) :
  shaped m dz -> 0 <= f < prodZ dz ->
  getIndices m (int f) = Ok (map int (unflatZ dz f)).
Proof.
  intros (Hd & _ & Hpos & Hlen) Hf. unfold getIndices, arr_length.
  rewrite lt_int, ge_int, is_integer_int, Hlen, Hd.
  destruct (Z.ltb_spec f 0); [lia|]. destruct (Z.leb_spec (prodZ dz) f); [lia|].
  simpl. now rewrite getIndices_loop_int by (assumption || lia).
Qed.

Lemma unflatZ_valid (dz : list Z) (f : Z) :
  Forall (fun d => 0 < d) dz -> 0 <= f < prodZ dz ->
  Forall2 (fun z d => 0 <= z < d) (unflatZ dz f) dz.
Proof.
  intros H. revert f. induction H as [|d dz Hd Hpos IH]; intros f Hf; simpl in *.
  - constructor.
  - pose proof (prodZ_pos dz Hpos) as HP. constructor.
    + split; [apply Z.div_pos; lia|]. apply Z.div_lt_upper_bound; lia.
    + apply IH. apply Z.mod_pos_bound; lia.
Qed.

Lemma flatZ_unflatZ (dz : list Z) (f : Z) :
  Forall (fun d => 0 < d) dz -> 0 <= f < prodZ dz ->
  flatZ (unflatZ dz f) dz = f.
Proof.
  intros H. revert f. induction H as [|d dz Hd Hpos IH]; intros f Hf; simpl in *; [lia|].
  pose proof (prodZ_pos dz Hpos) as HP.
  rewrite IH by (apply Z.mod_pos_bound; lia).
  rewrite normZ_nonneg by (apply Z.div_pos; lia).
  pose proof (Z.div_mod f (prodZ dz)). lia.
Qed.

Lemma unflatZ_flatZ (zs dz : list Z) :
  valid_index zs dz -> unflatZ dz (flatZ zs dz) = normalize zs dz.
Proof.
  induction 1 as [|z d zs dz Hz Hv IH]; simpl; [reflexivity|].
  pose proof (flatZ_bounds zs dz Hv) as Hb.
  rewrite Z.add_comm, Z.div_add, Z.mod_add by lia.
  rewrite Z.div_small, Z.mod_small by lia. simpl. now rewrite IH.
Qed.

Lemma normalize_nonneg (zs dz : list Z) :
  length zs = length dz -> Forall (fun z => 0 <= z) zs -> normalize zs dz = zs.
Proof.
  intros Hl H. revert dz Hl. induction H as [|z zs Hz _ IH]; intros [|d dz] Hl;
    simpl in *; try reflexivity; try discriminate.
  rewrite normZ_nonneg by assumption. f_equal. apply IH. lia.
Qed.

Lemma normalize_fixed (zs dz : list Z) :
  valid_index zs dz -> normalize zs dz = zs -> Forall (fun z => 0 <= z) zs.
Proof.
  induction 1 as [|z d zs dz Hz _ IH]; simpl; intros E; constructor.
  - injection E as E _. unfold normZ in E. destruct (Z.ltb_spec z 0); lia.
  - apply IH. now injection E.
Qed.

Lemma valid_weaken (zs dz : list Z) :
  Forall2 (fun z d => 0 <= z < d) zs dz -> valid_index zs dz.
Proof. induction 1; constructor; [lia|assumption]. Qed.

(* ================================================================== *)
(** ** The index round trip (C3) *)
(* ================================================================== *)

(** C3, as stated, fails: on a one-axis matrix of 3 elements the valid
    multi-index [-1] is sent to the offset 2, and [getIndices] gives back
    [2], not [-1]: [getIndices] always answers with indices counted from the
    start of the axis. *)
Lemma getIndices_getIndex_negative :
  let m := {| dim := [int 3]; data := [int 0; int 1; int 2] |} in
  Matrix_new [int 3] (Some [int 0; int 1; int 2]) = Ok m /\
  valid_index [-1] [3] /\
  (do f <- getIndex m [int (-1)]; getIndices m f) = Ok [int 2] /\
  [int 2] <> [int (-1)].
Proof.
  cbv zeta. split; [reflexivity|]. split.
  - constructor; [lia|constructor].
  - split; [reflexivity|]. intros H. injection H as H. discriminate H.
Qed.

(** C3, amended: on a well-formed matrix, for every valid multi-index
    (each component integral and in [[-dim[j], dim[j])]),
    [getIndices(getIndex(idx))] is [idx] with every negative component
    [i_j] replaced by [i_j + dim[j]], which is [idx] itself exactly when no
    component is negative; and for every valid flat offset [f],
    [getIndex(getIndices(f))] is [f]. *)
Theorem getIndex_getIndices_roundtrip (m : Matrix) (dz : list Z) :
  shaped m dz ->
  (forall zs, valid_index zs dz ->
     (do f <- getIndex m (map int zs); getIndices m f)
     = Ok (map int (normalize zs dz))
     /\ (normalize zs dz = zs <-> Forall (fun z => 0 <= z) zs))
  /\
  (forall f, 0 <= f < Z.of_nat (length (data m)) ->
     (do idx <- getIndices m (int f); getIndex m idx) = Ok (int f)).
Proof.
  intros Hm. pose proof Hm as (Hd & _ & Hpos & Hlen). split.
  - intros zs Hv. split.
    + rewrite (getIndex_int m zs dz Hd Hv). cbn [bind].
      rewrite (getIndices_int m dz _ Hm (flatZ_bounds zs dz Hv)).
      now rewrite unflatZ_flatZ.
    + split.
      * now apply normalize_fixed.
      * apply normalize_nonneg. exact (Forall2_length Hv).
  - intros f Hf. rewrite Hlen in Hf.
    rewrite (getIndices_int m dz f Hm Hf). cbn [bind].
    pose proof (unflatZ_valid dz f Hpos Hf) as Hv.
    rewrite (getIndex_int m _ dz Hd (valid_weaken _ _ Hv)).
    now rewrite flatZ_unflatZ.
Qed.

Lemma getIndex_getIndices_roundtrip_witness :
  let m := {| dim := [int 2; int 3];
              data := [int 0; int 1; int 2; int 3; int 4; int 5] |} in
  shaped m [2; 3] /\
  (do f <- getIndex m [int (-1); int 1]; getIndices m f) = Ok [int 1; int 1] /\
  (do idx <- getIndices m (int 4); getIndex m idx) = Ok (int 4).
Proof.
  cbv zeta.
  assert (Hm : shaped {| dim := [int 2; int 3];
                         data := [int 0; int 1; int 2; int 3; int 4; int 5] |}
                      [2; 3]).
  { split; [reflexivity|]. split; [discriminate|]. split; [|reflexivity].
    repeat constructor. }
  split; [exact Hm|].
  destruct (getIndex_getIndices_roundtrip _ _ Hm) as [H1 H2]. split.
  - refine (proj1 (H1 [-1; 1] _)). repeat constructor; simpl; lia.
  - apply H2. simpl. lia.
Defined.

(* ================================================================== *)
(** ** Transposing twice (C1) *)
(* ================================================================== *)

(** C1 at a 2x3 matrix: [transpose] rebuilds the buffer column by column but
    never swaps the two dimensions, so the result still has the shape
    [[2, 3]], and the second transposition reads it with the strides of the
    first: the buffer [0..5] comes back as [0, 4, 3, 2, 1, 5]. *)
Theorem transpose_twice_2x3 :
  let m := {| dim := [int 2; int 3]; data := map int [0; 1; 2; 3; 4; 5] |} in
  Matrix_new [int 2; int 3] (Some (map int [0; 1; 2; 3; 4; 5])) = Ok m /\
  transpose m
  = ({| dim := [int 2; int 3]; data := map int [0; 3; 1; 4; 2; 5] |}, Ok tt) /\
  seq_ transpose transpose m
  = ({| dim := [int 2; int 3]; data := map int [0; 4; 3; 2; 1; 5] |}, Ok tt) /\
  (do t <- toTransposed m; toTransposed t)
  = Ok {| dim := [int 2; int 3]; data := map int [0; 4; 3; 2; 1; 5] |}.
Proof. cbv zeta. repeat split; vm_compute; reflexivity. Qed.

(* ================================================================== *)
(** ** The length of a sliced axis (C2) *)
(* ================================================================== *)

(** C2 at the descending range [[2, 0]] of a 3-element axis: the bounds pass
    every check and the step defaults to -1, but the axis length is computed
    as [floor(|2 - 0| / -1) = -2], dividing by the step and not by its
    absolute value, and the constructor rejects the dimension. *)
Theorem slice_descending_range :
  let m := {| dim := [int 3]; data := map int [0; 1; 2] |} in
  Matrix_new [int 3] (Some (map int [0; 1; 2])) = Ok m /\
  slice_range (Pair (int 2) (int 0)) (int 3)
  = Ok (NRange (int 2) (int 0) (int (-1)), int (-2)) /\
  slice_dfs m [NRange (int 2) (int 0) (int (-1))] (int 0) [int 0]
  = Ok [int 2; int 1] /\
  slice m [Pair (int 2) (int 0)] = Err ValueError.
Proof. cbv zeta. repeat split; vm_compute; reflexivity. Qed.

(* ================================================================== *)
(** ** The determinant of the 4x4 test matrix (C5) *)
(* ================================================================== *)

(** C5: [det] of the 4x4 matrix of the test suite is 120, and 120 is the
    sum over the starting columns of the forward wrap-around diagonal
    product minus the backward one. *)
Theorem det_4x4_scenario :
  let M := [1; 1; 1; 1; 1; 2; 4; 8; 1; -2; 4; -8; 1; 3; 9; 27] in
  (do m <- Matrix_new [int 4; int 4] (Some (map int M)); det m) = Ok (int 120) /\
  wrap_diagonal_sum 4 M = 120.
Proof. cbv zeta. split; vm_compute; reflexivity. Qed.

(* ================================================================== *)
(** ** The constructor and element access on well-formed matrices *)
(* ================================================================== *)

Lemma Matrix_length_int (dz : list Z) (acc : Z) :
  Forall (fun d => 0 < d) dz ->
  Matrix_length (map int dz) (int acc) = Ok (int (acc * prodZ dz)).
Proof.
  intros H. revert acc. induction H as [|d dz Hd _ IH]; intros acc; simpl.
  - do 2 f_equal. lia.
  - rewrite le_int, is_integer_int. destruct (Z.leb_spec d 0); [lia|].
    rewrite mul_int, IH. do 2 f_equal. lia.
Qed.

Lemma Matrix_new_int (dz : list Z) (d : list number) :
  dz <> [] -> Forall (fun d => 0 < d) dz ->
  Z.of_nat (length d) = prodZ dz ->
  Matrix_new (map int dz) (Some d) = Ok {| dim := map int dz; data := d |}.
Proof.
  intros Hne Hpos Hlen. unfold Matrix_new.
  destruct dz as [|d0 dz]; [contradiction|]. cbn [map length Nat.leb].
  change (int d0 :: map int dz) with (map int (d0 :: dz)).
  rewrite Matrix_length_int by assumption. cbn [bind].
  unfold arr_length. rewrite strict_ne_int, Hlen.
  replace (1 * prodZ (d0 :: dz)) with (prodZ (d0 :: dz)) by lia.
  now rewrite Z.eqb_refl.
Qed.

Lemma Matrix_new_shaped (dz : list Z) (d : option (list number)) (m : Matrix) :
  Matrix_new (map int dz) d = Ok m -> shaped m dz.
Proof.
  unfold Matrix_new. destruct dz as [|d0 dz]; [discriminate|].
  cbn [map length Nat.leb].
  change (int d0 :: map int dz) with (map int (d0 :: dz)).
  assert (Hpos : forall l acc r,
             Matrix_length (map int l) acc = Ok r -> Forall (fun d => 0 < d) l).
  { induction l as [|a l IH]; intros acc r; simpl; [constructor|].
    rewrite le_int. destruct (Z.leb_spec a 0); [discriminate|].
    rewrite is_integer_int. intros Hr. constructor; [lia|eauto]. }
  destruct (Matrix_length (map int (d0 :: dz)) (int 1)) as [len|e] eqn:E;
    [|cbn [bind]; discriminate].
  pose proof (Hpos _ _ _ E) as HP.
  rewrite Matrix_length_int, Z.mul_1_l in E by assumption.
  injection E as <-. cbn [bind].
  assert (Hfin : forall buf,
             (if strict_ne (arr_length buf) (int (d0 * prodZ dz))
              then Err ValueError
              else Ok {| dim := map int (d0 :: dz); data := buf |}) = Ok m ->
             shaped m (d0 :: dz)).
  { intros buf. unfold arr_length. rewrite strict_ne_int.
    match goal with
    | |- context [negb (?a =? ?b)] => destruct (Z.eqb_spec a b) as [E|]
    end; cbn [negb]; [|discriminate].
    intros [= <-]. split; [reflexivity|]. split; [discriminate|].
    split; [assumption|exact E]. }
  destruct d as [d1|]; cbn [bind]; [apply Hfin|].
  destruct (Array_new_fill _ _) as [d1|e]; cbn [bind]; [apply Hfin|discriminate].
Qed.

Lemma get_int (m : Matrix) (zs dz : list Z) :
  dim m = map int dz -> valid_index zs dz ->
  get m (map int zs) = Ok (nth (Z.to_nat (flatZ zs dz)) (data m) NaN).
Proof.
  intros Hd Hv. unfold get. rewrite (getIndex_int m zs dz Hd Hv). cbn [bind].
  rewrite arr_get_int; [reflexivity|]. apply (flatZ_bounds zs dz Hv).
Qed.

(** Element [(i, j)] of a two-axis matrix sits at offset [i * cols + j]. *)
Lemma get_2D (m : Matrix) (r c i j : Z) :
  dim m = [int r; int c] -> 0 <= i < r -> 0 <= j < c ->
  get m [int i; int j] = Ok (nth (Z.to_nat (i * c + j)) (data m) NaN).
Proof.
  intros Hd Hi Hj. change [int i; int j] with (map int [i; j]).
  rewrite (get_int m [i; j] [r; c] Hd) by (repeat constructor; lia).
  cbn [flatZ prodZ fold_right]. rewrite !normZ_nonneg by lia.
  do 3 f_equal. lia.
Qed.

Lemma upto_rangeZ (n : Z) : upto (int n) = map int (rangeZ n).
Proof. rewrite upto_int. unfold rangeZ. now rewrite map_map. Qed.

Lemma in_rangeZ (n i : Z) : In i (rangeZ n) <-> 0 <= i < n.
Proof.
  unfold rangeZ. rewrite in_map_iff. split.
  - intros (k & <- & Hk). apply in_seq in Hk. lia.
  - intros H. exists (Z.to_nat i). split; [lia|]. apply in_seq. lia.
Qed.

Lemma length_rangeZ (n : Z) : length (rangeZ n) = Z.to_nat n.
Proof. unfold rangeZ. now rewrite length_map, length_seq. Qed.

Lemma nth_rangeZ (n : Z) (k : nat) (d : Z) :
  (k < Z.to_nat n)%nat -> nth k (rangeZ n) d = Z.of_nat k.
Proof.
  intros Hk. unfold rangeZ.
  rewrite (nth_indep _ d (Z.of_nat 0)) by (now rewrite length_map, length_seq).
  rewrite map_nth, seq_nth by assumption. reflexivity.
Qed.

Lemma length_flat_map_uniform {A B} (f : A -> list B) (l : list A) (n : nat) :
  (forall a, In a l -> length (f a) = n) ->
  length (flat_map f l) = (length l * n)%nat.
Proof.
  induction l as [|a l IH]; intros H; simpl; [reflexivity|].
  rewrite length_app. rewrite (H a) by (simpl; auto).
  rewrite IH; [reflexivity|]. intros b Hb. apply H. simpl. auto.
Qed.

Lemma nth_flat_map_uniform {A B} (f : A -> list B) (l : list A) (n i j : nat)
  (da : A) (db : B) :
  (forall a, In a l -> length (f a) = n) ->
  (i < length l)%nat -> (j < n)%nat ->
  nth (i * n + j) (flat_map f l) db = nth j (f (nth i l da)) db.
Proof.
  revert i. induction l as [|a l IH]; intros i H Hi Hj; simpl in Hi; [lia|].
  simpl. destruct i as [|i].
  - simpl. rewrite app_nth1 by (rewrite H; simpl; auto). reflexivity.
  - rewrite app_nth2 by (rewrite H by (simpl; auto); simpl; lia).
    rewrite H by (simpl; auto).
    replace (S i * n + j - n)%nat with (i * n + j)%nat by (simpl; lia).
    apply IH; [intros; apply H; simpl; auto|lia|assumption].
Qed.

Lemma nth_map_inside {A B} (f : A -> B) (l : list A) (k : nat) (db : B) (da : A) :
  (k < length l)%nat -> nth k (map f l) db = f (nth k l da).
Proof.
  intros Hk. rewrite (nth_indep _ db (f da)) by (now rewrite length_map).
  apply map_nth.
Qed.

Lemma mapM_Ok {A B} (f : A -> result B) (g : A -> B) (l : list A) :
  (forall a, In a l -> f a = Ok (g a)) -> mapM f l = Ok (map g l).
Proof.
  induction l as [|a l IH]; intros H; [reflexivity|]. cbn [mapM map].
  rewrite H by (simpl; auto). cbn [bind].
  rewrite IH by (intros; apply H; simpl; auto). reflexivity.
Qed.


(* ================================================================== *)
(** ** Transposition on well-formed matrices *)
(* ================================================================== *)

Lemma mapM_map {A B C} (f : B -> result C) (h : A -> B) (l : list A) :
  mapM f (map h l) = mapM (fun a => f (h a)) l.
Proof.
  induction l as [|a l IH]; [reflexivity|]. cbn [map mapM]. now rewrite IH.
Qed.

Lemma length_list_update {A} (l : list A) (n : nat) (v : A) :
  length (list_update l n v) = length l.
Proof.
  revert n. induction l as [|a l IH]; intros [|n]; simpl; auto.
Qed.

Lemma nth_list_update_eq {A} (l : list A) (n : nat) (v d : A) :
  (n < length l)%nat -> nth n (list_update l n v) d = v.
Proof.
  revert n. induction l as [|a l IH]; intros [|n] H; simpl in *; try lia; auto.
  apply IH. lia.
Qed.

Lemma nth_list_update_neq {A} (l : list A) (n k : nat) (v d : A) :
  n <> k -> nth k (list_update l n v) d = nth k l d.
Proof.
  revert n k. induction l as [|a l IH]; intros [|n] [|k] H; simpl; auto; lia.
Qed.

(** A loop that stores [g i] at every position [i] of [idx]. *)
Lemma fold_update_length (g : nat -> number) (idx : list nat) (d : list number) :
  length (fold_left (fun d i => list_update d i (g i)) idx d) = length d.
Proof.
  revert d. induction idx as [|i idx IH]; intros d; [reflexivity|].
  cbn [fold_left]. now rewrite IH, length_list_update.
Qed.

Lemma fold_update_nth (g : nat -> number) (idx : list nat) (d : list number)
  (j : nat) :
  (j < length d)%nat -> In j idx ->
  nth j (fold_left (fun d i => list_update d i (g i)) idx d) NaN = g j.
Proof.
  revert d. induction idx as [|i idx IH]; intros d Hj Hin; [destruct Hin|].
  cbn [fold_left]. destruct (in_dec Nat.eq_dec j idx) as [Hrest|Hrest].
  - apply IH; [now rewrite length_list_update|assumption].
  - destruct Hin as [->|Hin]; [|contradiction].
    assert (G : forall l d', ~ In j l ->
              nth j (fold_left (fun d i => list_update d i (g i)) l d') NaN
              = nth j d' NaN).
    { clear. induction l as [|a l IHl]; intros d' Hn; [reflexivity|].
      cbn [fold_left]. rewrite IHl by (intros ?; apply Hn; simpl; auto).
      apply nth_list_update_neq. intros ->. apply Hn. simpl. auto. }
    rewrite G by assumption. now apply nth_list_update_eq.
Qed.

(** [for (let i = 0; i < this.data.length; i++) this.data[i] = newData[i]]
    with a buffer of the right length. *)
Lemma data_loop_copy (newData d : list number) :
  length newData = length d ->
  data_loop (fun i _ => arr_get newData i) (arr_length d) d = newData.
Proof.
  intros Hl. unfold data_loop, arr_length. rewrite upto_int, Nat2Z.id.
  rewrite <- (map_id (seq 0 (length d))) at 1. rewrite map_map.
  assert (E : forall idx d0,
             fold_left (fun d i => arr_set d i (arr_get newData i))
                       (map (fun k => int (Z.of_nat k)) idx) d0
             = fold_left (fun d i => list_update d i (nth i newData NaN)) idx d0).
  { induction idx as [|i idx IH]; intros d0; [reflexivity|].
    cbn [map fold_left].
    rewrite arr_set_int, arr_get_int, Nat2Z.id by lia. apply IH. }
  rewrite E. apply (nth_ext _ _ NaN NaN).
  - now rewrite fold_update_length.
  - intros j Hj. rewrite fold_update_length in Hj.
    apply fold_update_nth; [assumption|]. apply in_seq. lia.
Qed.

Lemma length_transposed (r c : Z) (d : list number) :
  length (transposed r c d) = (Z.to_nat c * Z.to_nat r)%nat.
Proof.
  unfold transposed.
  rewrite (length_flat_map_uniform _ _ (Z.to_nat r))
    by (intros; now rewrite length_map, length_rangeZ).
  now rewrite length_rangeZ.
Qed.

(** Position [(x, y)] of the rebuilt buffer holds element [(y, x)]. *)
Lemma nth_transposed (r c : Z) (d : list number) (i j : nat) :
  (i < Z.to_nat c)%nat -> (j < Z.to_nat r)%nat ->
  nth (i * Z.to_nat r + j) (transposed r c d) NaN
  = nth (j * Z.to_nat c + i) d NaN.
Proof.
  intros Hi Hj. unfold transposed.
  rewrite (nth_flat_map_uniform _ _ (Z.to_nat r) _ _ 0)
    by (try (intros; now rewrite length_map, length_rangeZ);
        try rewrite length_rangeZ; lia).
  rewrite (nth_map_inside _ _ _ NaN 0) by (rewrite length_rangeZ; lia).
  rewrite !(nth_rangeZ _ _ 0) by lia. f_equal. lia.
Qed.

Lemma transpose_newData_shaped (m : Matrix) (r c : Z) :
  shaped m [r; c] -> transpose_newData m = Ok (transposed r c (data m)).
Proof.
  intros (Hd & _ & Hpos & _).
  assert (Hr : 0 < r) by (inversion Hpos; assumption).
  assert (Hc : 0 < c) by (inversion Hpos as [|? ? _ H]; inversion H; assumption).
  unfold transpose_newData. rewrite Hd. cbn [map].
  rewrite !arr_get_int by lia.
  change (Z.to_nat 0) with 0%nat. change (Z.to_nat 1) with 1%nat. cbn [nth].
  rewrite !upto_rangeZ, mapM_map.
  rewrite (mapM_Ok _ (fun x => map (fun y => nth (Z.to_nat (y * c + x)) (data m) NaN)
                                   (rangeZ r))).
  - cbn [bind]. unfold transposed. now rewrite flat_map_concat_map.
  - intros x Hx. apply in_rangeZ in Hx. rewrite mapM_map. apply mapM_Ok.
    intros y Hy. apply in_rangeZ in Hy.
    apply (get_2D m r c); (assumption || lia).
Qed.

Lemma transpose_shaped (m : Matrix) (r c : Z) :
  shaped m [r; c] ->
  transpose m = (set_data m (transposed r c (data m)), Ok tt).
Proof.
  intros Hs. pose proof Hs as (Hd & _ & Hpos & Hlen).
  cbn [prodZ fold_right] in Hlen.
  assert (Hr : 0 < r) by (inversion Hpos; assumption).
  assert (Hc : 0 < c) by (inversion Hpos as [|? ? _ H]; inversion H; assumption).
  assert (H2 : is2D m = true) by (unfold is2D; now rewrite Hd).
  unfold transpose. rewrite H2. cbn [negb].
  rewrite (transpose_newData_shaped m r c Hs).
  rewrite data_loop_copy; [reflexivity|]. rewrite length_transposed. nia.
Qed.

Lemma transposed_involutive (n : Z) (d : list number) :
  0 < n -> Z.of_nat (length d) = n * n ->
  transposed n n (transposed n n d) = d.
Proof.
  intros Hn Hl. apply (nth_ext _ _ NaN NaN).
  - rewrite length_transposed. nia.
  - intros k Hk. rewrite length_transposed in Hk.
    set (w := Z.to_nat n) in *. assert (Hw : (0 < w)%nat) by (unfold w; lia).
    rewrite (Nat.div_mod_eq k w), (Nat.mul_comm w).
    assert (k / w < w)%nat by (apply Nat.Div0.div_lt_upper_bound; lia).
    assert (k mod w < w)%nat by (apply Nat.mod_upper_bound; lia).
    unfold w. rewrite nth_transposed by assumption.
    now rewrite nth_transposed by assumption.
Qed.

(** On a square matrix the dimensions need no swap and [transpose] is an
    involution, in place and through [toTransposed]. *)
Theorem transpose_twice_square (m : Matrix) (n : Z) :
  shaped m [n; n] ->
  seq_ transpose transpose m = (m, Ok tt) /\
  (do t <- toTransposed m; toTransposed t) = Ok m.
Proof.
  intros Hs. pose proof Hs as (Hd & Hne & Hpos & Hlen).
  cbn [prodZ fold_right] in Hlen.
  assert (Hs' : shaped (set_data m (transposed n n (data m))) [n; n]).
  { split; [exact Hd|]. split; [exact Hne|]. split; [exact Hpos|].
    cbn [set_data data prodZ fold_right]. rewrite length_transposed.
    assert (0 < n) by (inversion Hpos; assumption). nia. }
  assert (Hn : 0 < n) by (inversion Hpos; assumption).
  assert (Hdata : transposed n n (transposed n n (data m)) = data m)
    by (apply transposed_involutive; lia).
  assert (Htwice : seq_ transpose transpose m = (m, Ok tt)).
  { unfold seq_. rewrite (transpose_shaped m n n Hs).
    rewrite (transpose_shaped _ n n Hs'). cbn [set_data data dim].
    rewrite Hdata. now destruct m. }
  split; [exact Htwice|].
  assert (Hcopy : forall m' : Matrix, shaped m' [n; n] -> copy m' = Ok m').
  { intros m' (Hd' & _ & Hpos' & Hlen'). unfold copy. rewrite Hd'.
    rewrite Matrix_new_int by (assumption || discriminate).
    rewrite <- Hd'. now destruct m'. }
  unfold toTransposed, on_copy. rewrite (Hcopy m Hs). cbn [bind].
  rewrite (transpose_shaped m n n Hs). cbn [bind].
  rewrite (Hcopy _ Hs'). cbn [bind].
  rewrite (transpose_shaped _ n n Hs'). cbn [set_data data dim].
  rewrite Hdata. now destruct m.
Qed.

(* ================================================================== *)
(** ** The determinant of the identity (C4) *)
(* ================================================================== *)

Section Identity.

Variable n : Z.
Hypothesis n_pos : 1 <= n.

Lemma identity_data_length :
  Z.of_nat (length (identity_data (int n))) = n * n.
Proof.
  unfold identity_data.
  rewrite (length_flat_map_uniform _ _ (Z.to_nat n))
    by (intros; now rewrite length_map, length_upto_int).
  rewrite length_upto_int. lia.
Qed.

Lemma identity_int : identity (int n) = Ok (identity_matrix n).
Proof.
  unfold identity. change [int n; int n] with (map int [n; n]).
  apply Matrix_new_int.
  - discriminate.
  - repeat constructor; lia.
  - rewrite identity_data_length. simpl. lia.
Qed.

Lemma identity_entry (i j : Z) :
  0 <= i < n -> 0 <= j < n ->
  get (identity_matrix n) [int i; int j] = Ok (int (if i =? j then 1 else 0)).
Proof.
  intros Hi Hj. rewrite (get_2D (identity_matrix n) n n) by (reflexivity || lia). f_equal.
  unfold identity_matrix, identity_data. cbn [data].
  replace (Z.to_nat (i * n + j))
    with (Z.to_nat i * Z.to_nat n + Z.to_nat j)%nat by lia.
  rewrite (nth_flat_map_uniform _ _ (Z.to_nat n) _ _ NaN)
    by (try (intros; now rewrite length_map, length_upto_int);
        try rewrite length_upto_int; lia).
  rewrite upto_rangeZ.
  rewrite (nth_map_inside int _ _ NaN 0) by (rewrite length_rangeZ; lia).
  rewrite (nth_rangeZ n) by lia.
  rewrite (nth_map_inside _ _ _ NaN NaN) by (rewrite length_map, length_rangeZ; lia).
  rewrite (nth_map_inside int _ _ NaN 0) by (rewrite length_rangeZ; lia).
  rewrite (nth_rangeZ n) by lia.
  rewrite strict_eq_int, !Z2Nat.id by lia. reflexivity.
Qed.

(** One round of the inner loop of [det], on the identity. *)
Lemma det_diagonals_identity_loop (c : Z) (rows : list Z) (a b : Z) :
  0 <= c < n -> Forall (fun i => 0 <= i < n) rows ->
  foldM (fun (p : number * number) i =>
           do a <- get (identity_matrix n) [i; mod_ (add (int c) i) (int n)];
           do b <- get (identity_matrix n) [i; mod_ (sub (int c) i) (int n)];
           Ok (mul (fst p) a, mul (snd p) b))
        (map int rows) (int a, int b)
  = Ok (int (fold_left Z.mul
               (map (fun i => if i =? (c + i) mod n then 1 else 0) rows) a),
        int (fold_left Z.mul
               (map (fun i => if i =? (c - i) mod n then 1 else 0) rows) b)).
Proof.
  intros Hc H. revert a b.
  induction H as [|i rows Hi _ IH]; intros a b; [reflexivity|].
  cbn [map foldM fold_left].
  rewrite add_int, sub_int, !mod_int by lia.
  rewrite !identity_entry by (try apply Z.mod_pos_bound; lia).
  cbn [bind fst snd]. rewrite !mul_int. apply IH.
Qed.

Lemma det_diagonals_identity (c : Z) :
  0 <= c < n ->
  det_diagonals (identity_matrix n) (int n) (int c)
  = Ok (int (productZ
               (map (fun i => if i =? (c + i) mod n then 1 else 0) (rangeZ n))),
        int (productZ
               (map (fun i => if i =? (c - i) mod n then 1 else 0) (rangeZ n)))).
Proof.
  intros Hc. unfold det_diagonals. rewrite upto_rangeZ.
  apply det_diagonals_identity_loop; [assumption|].
  apply Forall_forall. intros i. apply in_rangeZ.
Qed.

End Identity.

Lemma fold_left_mul_zero (l : list Z) (a : Z) :
  In 0 l -> fold_left Z.mul l a = 0.
Proof.
  assert (Z0 : forall l', fold_left Z.mul l' 0 = 0).
  { induction l' as [|y l' IHl]; simpl; [reflexivity|exact IHl]. }
  revert a. induction l as [|x l IH]; intros a H; simpl; [destruct H|].
  destruct H as [E|H].
  - subst x. rewrite Z.mul_0_r. apply Z0.
  - now apply IH.
Qed.

Lemma fold_left_mul_ones (l : list Z) (a : Z) :
  Forall (fun x => x = 1) l -> fold_left Z.mul l a = a.
Proof.
  intros H. revert a. induction H as [|x l -> _ IH]; intros a; simpl; [reflexivity|].
  rewrite Z.mul_1_r. apply IH.
Qed.

(** The products along the wrap-around diagonals of the identity: only the
    forward diagonal that starts in column 0 avoids every zero. *)
Lemma forward_diagonal_identity (n c : Z) :
  1 <= n -> 0 <= c < n ->
  productZ (map (fun i => if i =? (c + i) mod n then 1 else 0) (rangeZ n))
  = if c =? 0 then 1 else 0.
Proof.
  intros Hn Hc. unfold productZ. destruct (Z.eqb_spec c 0) as [->|Hne].
  - apply fold_left_mul_ones. apply Forall_forall. intros x Hx.
    apply in_map_iff in Hx. destruct Hx as (i & <- & Hi). apply in_rangeZ in Hi.
    rewrite Z.add_0_l, Z.mod_small, Z.eqb_refl by lia. reflexivity.
  - apply fold_left_mul_zero. apply in_map_iff. exists 0. split.
    + rewrite Z.add_0_r, Z.mod_small by lia.
      destruct (Z.eqb_spec 0 c); [lia|reflexivity].
    + apply in_rangeZ. lia.
Qed.

Lemma backward_diagonal_identity (n c : Z) :
  3 <= n -> 0 <= c < n ->
  productZ (map (fun i => if i =? (c - i) mod n then 1 else 0) (rangeZ n)) = 0.
Proof.
  intros Hn Hc. unfold productZ. apply fold_left_mul_zero. apply in_map_iff.
  destruct (Z.eqb_spec c 0) as [->|Hne].
  - exists 1. split; [|apply in_rangeZ; lia].
    replace ((0 - 1) mod n) with (n - 1).
    + destruct (Z.eqb_spec 1 (n - 1)); [lia|reflexivity].
    + apply (Z.mod_unique_pos _ _ (-1)); lia.
  - exists 0. split; [|apply in_rangeZ; lia].
    rewrite Z.sub_0_r, Z.mod_small by lia.
    destruct (Z.eqb_spec 0 c); [lia|reflexivity].
Qed.

(** The outer loop of [det] on the identity, from a running sum [s] over
    the columns [cols]. *)
Lemma det_identity_columns (n : Z) (cols : list Z) (s : Z) :
  3 <= n -> Forall (fun c => 0 <= c < n) cols ->
  foldM (fun sum col =>
           do p <- det_diagonals (identity_matrix n) (int n) col;
           Ok (add sum (sub (fst p) (snd p))))
        (map int cols) (int s)
  = Ok (int (fold_left (fun s c => s + (if c =? 0 then 1 else 0)) cols s)).
Proof.
  intros Hn H. revert s. induction H as [|c cols Hc _ IH]; intros s; [reflexivity|].
  cbn [map foldM fold_left].
  rewrite det_diagonals_identity by lia. cbn [bind fst snd].
  rewrite forward_diagonal_identity, backward_diagonal_identity by lia.
  rewrite sub_int, add_int, Z.sub_0_r. apply IH.
Qed.

Lemma count_column_zero (k start : nat) (s : Z) :
  (1 <= start)%nat ->
  fold_left (fun s c => s + (if c =? 0 then 1 else 0))
            (map Z.of_nat (seq start k)) s = s.
Proof.
  revert start s. induction k as [|k IH]; intros start s Hs; simpl; [reflexivity|].
  destruct (Z.eqb_spec (Z.of_nat start) 0); [lia|].
  rewrite Z.add_0_r. apply IH. lia.
Qed.

(** C4: for every integer [n >= 1], [Matrix.identity(n)] is built and its
    [det()] returns exactly 1; from [n = 3] on the value comes out of the
    wrap-around diagonal scheme. *)
Theorem det_identity (n : Z) :
  1 <= n -> (do m <- identity (int n); det m) = Ok (int 1).
Proof.
  intros Hn. rewrite identity_int by assumption. cbn [bind].
  destruct (Z.eq_dec n 1) as [->|H1]; [vm_compute; reflexivity|].
  destruct (Z.eq_dec n 2) as [->|H2]; [vm_compute; reflexivity|].
  unfold det, isSquare, is2D.
  change (dim (identity_matrix n)) with [int n; int n].
  cbn [length Nat.eqb negb andb].
  rewrite !arr_get_int by lia.
  change (Z.to_nat 0) with 0%nat. change (Z.to_nat 1) with 1%nat. cbn [nth].
  rewrite !strict_eq_int, Z.eqb_refl. cbn [negb].
  destruct (Z.eqb_spec n 1); [lia|]. destruct (Z.eqb_spec n 2); [lia|].
  rewrite upto_rangeZ.
  rewrite det_identity_columns
    by (try lia; apply Forall_forall; intros i; apply in_rangeZ).
  do 2 f_equal. unfold rangeZ.
  replace (Z.to_nat n) with (S (Z.to_nat n - 1)) by lia.
  cbn [seq map fold_left]. rewrite count_column_zero by lia. reflexivity.
Qed.

Lemma det_identity_witness :
  (do m <- identity (int 5); det m) = Ok (int 1).
Proof. apply (det_identity 5). lia. Defined.

(* ================================================================== *)
(** ** Casting to a vector (C8) *)
(* ================================================================== *)

Lemma Matrix_new_Some_inv (d dat : list number) (m : Matrix) :
  Matrix_new d (Some dat) = Ok m -> m = {| dim := d; data := dat |}.
Proof.
  unfold Matrix_new. destruct (length d <=? 0)%nat; [discriminate|].
  destruct (Matrix_length d (int 1)); cbn [bind]; [|discriminate].
  destruct (strict_ne _ _); [discriminate|]. now intros [= <-].
Qed.

Lemma map_nth_seq {A} (l : list A) (d : A) (n : nat) :
  (n <= length l)%nat -> map (fun k => nth k l d) (seq 0 n) = firstn n l.
Proof.
  revert n. induction l as [|a l IH]; intros n Hn; simpl in Hn.
  - now replace n with 0%nat by lia.
  - destruct n as [|n]; [reflexivity|]. cbn [seq map firstn nth]. f_equal.
    rewrite <- seq_shift, map_map. apply IH. lia.
Qed.

(** The vector-shaped matrices among the well-formed ones. *)
Lemma isVector_shaped (mat : Matrix) :
  wf mat -> isVector mat = true -> exists k, shaped mat [k; 1].
Proof.
  intros [dz Hs] Hv. pose proof Hs as (Hd & _ & _ & _).
  unfold isVector, is2D in Hv. apply andb_prop in Hv. destruct Hv as [H2 H1].
  rewrite Hd, length_map in H2. apply Nat.eqb_eq in H2.
  destruct dz as [|k [|d1 [|? ?]]]; try discriminate.
  rewrite Hd in H1. cbn [map] in H1. rewrite arr_get_int in H1 by lia.
  change (Z.to_nat 1) with 1%nat in H1. cbn [nth] in H1.
  rewrite strict_eq_int in H1. apply Z.eqb_eq in H1. subst d1. now exists k.
Qed.

(** The elements read by the first loop of [toVec]. *)
Lemma toVec_leading (mat : Matrix) (k n : Z) :
  shaped mat [k; 1] -> 0 <= n <= k ->
  mapM (fun i => get mat [i; int 0]) (upto (int n))
  = Ok (firstn (Z.to_nat n) (data mat)).
Proof.
  intros (Hd & _ & Hpos & Hlen) Hn. cbn [prodZ fold_right] in Hlen.
  rewrite upto_rangeZ.
  rewrite (mapM_Ok _ (fun i => match i with
                               | Num q => nth (Z.to_nat (Qfloor q)) (data mat) NaN
                               | NaN => NaN
                               end)).
  - f_equal. unfold rangeZ. rewrite !map_map.
    rewrite <- (map_nth_seq (data mat) NaN) by lia.
    apply map_ext. intros a. unfold int. now rewrite Qfloor_Z, Nat2Z.id.
  - intros a Ha. apply in_map_iff in Ha. destruct Ha as (i & <- & Hi).
    apply in_rangeZ in Hi. rewrite (get_2D mat k 1) by (assumption || lia).
    unfold int. rewrite Qfloor_Z. do 3 f_equal. lia.
Qed.

Lemma toVec_shaped (mat : Matrix) (N k : Z) :
  1 <= N -> shaped mat [k; 1] ->
  Vec.toVec (int N) mat
  = Ok {| dim := [int N; int 1];
          data := firstn (Z.to_nat (Z.min N k)) (data mat)
                  ++ repeat (int 0) (Z.to_nat (N - Z.min N k)) |}.
Proof.
  intros HN Hs. pose proof Hs as (Hd & _ & Hpos & Hlen).
  cbn [prodZ fold_right] in Hlen.
  assert (Hk : 0 < k) by (inversion Hpos; assumption).
  unfold Vec.toVec, isVector, is2D, shape. rewrite Hd. cbn [map length Nat.eqb].
  rewrite !arr_get_int by lia.
  change (Z.to_nat 0) with 0%nat. change (Z.to_nat 1) with 1%nat. cbn [nth].
  rewrite strict_eq_int, Z.eqb_refl. cbn [andb negb].
  rewrite Math_min_int, (toVec_leading mat k) by (assumption || lia).
  cbn [bind]. unfold Vec.new, Vec.pad_zeros.
  rewrite length_upto_int, length_firstn.
  replace (Z.to_nat N - Nat.min (Z.to_nat (Z.min N k)) (length (data mat)))%nat
    with (Z.to_nat (N - Z.min N k)) by lia.
  change [int N; int 1] with (map int [N; 1]). apply Matrix_new_int.
  - discriminate.
  - repeat constructor; lia.
  - rewrite length_app, length_firstn, repeat_length. cbn [prodZ fold_right]. lia.
Qed.

(** C8: [toVec(N, mat)] throws the invalid-value error when [mat] is not
    vector-shaped; otherwise it returns a vector of size [N] whose first
    [min(N, mat.dim[0])] entries are the leading entries of [mat] and whose
    other entries are 0.  The 2-vector (100, -200) cast to size 4 is
    (100, -200, 0, 0), and that one cast to size 2 is (100, -200).  ([N] is
    any positive integer, 2, 3 and 4 among them.) *)
Theorem toVec_spec (N : Z) (mat : Matrix) :
  1 <= N -> wf mat ->
  (isVector mat = false -> Vec.toVec (int N) mat = Err ValueError) /\
  (isVector mat = true ->
   exists k v,
     arr_get (dim mat) (int 0) = int k /\
     Vec.toVec (int N) mat = Ok v /\
     dim v = [int N; int 1] /\
     Vec.isVec (int N) v = true /\
     length (data v) = Z.to_nat N /\
     firstn (Z.to_nat (Z.min N k)) (data v)
       = firstn (Z.to_nat (Z.min N k)) (data mat) /\
     skipn (Z.to_nat (Z.min N k)) (data v)
       = repeat (int 0) (Z.to_nat (N - Z.min N k))) /\
  (let v2 := {| dim := [int 2; int 1]; data := [int 100; int (-200)] |} in
   let v4 := {| dim := [int 4; int 1];
                data := [int 100; int (-200); int 0; int 0] |} in
   Vec.toVec (int 4) v2 = Ok v4 /\ Vec.toVec (int 2) v4 = Ok v2).
Proof.
  intros HN Hwf. split; [|split].
  - intros Hv. unfold Vec.toVec. now rewrite Hv.
  - intros Hv. destruct (isVector_shaped mat Hwf Hv) as [k Hs].
    pose proof Hs as (Hd & _ & Hpos & Hlen). cbn [prodZ fold_right] in Hlen.
    assert (Hk : 0 < k) by (inversion Hpos; assumption).
    exists k. eexists. split; [|split; [apply (toVec_shaped mat N k HN Hs)|]].
    + rewrite Hd. cbn [map]. now rewrite arr_get_int by lia.
    + cbn [dim data].
      assert (Hl : length (firstn (Z.to_nat (Z.min N k)) (data mat))
                   = Z.to_nat (Z.min N k)) by (rewrite length_firstn; lia).
      split; [reflexivity|]. split; [|split; [|split]].
      * unfold Vec.isVec, isVector, is2D, shape. cbn [dim length Nat.eqb].
        rewrite !arr_get_int by lia.
        change (Z.to_nat 0) with 0%nat. change (Z.to_nat 1) with 1%nat.
        cbn [nth]. now rewrite !strict_eq_int, !Z.eqb_refl.
      * rewrite length_app, Hl, repeat_length. lia.
      * rewrite <- Hl at 1. rewrite firstn_app, Nat.sub_diag, firstn_all.
        cbn [firstn]. now rewrite app_nil_r.
      * rewrite <- Hl at 1. rewrite skipn_app, Nat.sub_diag, skipn_all.
        reflexivity.
  - cbv zeta. split; vm_compute; reflexivity.
Qed.

Lemma toVec_spec_witness :
  let v2 := {| dim := [int 2; int 1]; data := [int 100; int (-200)] |} in
  wf v2 /\ isVector v2 = true /\
  exists v, Vec.toVec (int 3) v2 = Ok v /\
            skipn 2 (data v) = [int 0].
Proof.
  cbv zeta.
  assert (Hwf : wf {| dim := [int 2; int 1]; data := [int 100; int (-200)] |}).
  { exists [2; 1]. split; [reflexivity|]. split; [discriminate|].
    split; [repeat constructor|reflexivity]. }
  split; [exact Hwf|]. split; [reflexivity|].
  destruct (toVec_spec 3 _ ltac:(lia) Hwf) as (_ & H & _).
  destruct (H eq_refl) as (k & v & Hk & Hv & _ & _ & _ & _ & Hs).
  exists v. split; [exact Hv|].
  apply int_inj in Hk. subst k. exact Hs.
Defined.

(* ================================================================== *)
(** ** The dot product (C7) *)
(* ================================================================== *)

Lemma mul_comm (x y : number) : mul x y = mul y x.
Proof.
  destruct x as [p|], y as [q|]; try reflexivity.
  unfold mul, lift2. f_equal. apply Qred_complete. apply Qmult_comm.
Qed.

Lemma mul_zero_r (q : Q) : mul (Num q) (int 0) = int 0.
Proof.
  unfold mul, lift2, int. f_equal. apply Qred_int. apply Qmult_0_r.
Qed.

Lemma add_zero_r (s : number) : normal s -> add s (int 0) = s.
Proof.
  destruct s as [q|]; [|reflexivity]. cbv beta iota delta [normal]. intros Hq.
  unfold add, lift2, int. f_equal. rewrite <- Hq at 2.
  apply Qred_complete. apply Qplus_0_r.
Qed.

Lemma add_normal (x y : number) : normal (add x y).
Proof.
  destruct x as [p|], y as [q|]; try exact I.
  cbv beta iota delta [normal add lift2]. apply Qred_complete. apply Qred_correct.
Qed.

Lemma int_normal (z : Z) : normal (int z).
Proof. apply Qred_inject_Z. Qed.

Lemma dot_sum_normal (xs ys : list number) (idx : list nat) (s : number) :
  normal s -> normal (dot_sum xs ys idx s).
Proof.
  revert s. induction idx as [|i idx IH]; intros s Hs; [exact Hs|].
  apply IH. apply add_normal.
Qed.

Lemma dot_sum_ext (xs ys xs' ys' : list number) (idx : list nat) (s : number) :
  (forall i, In i idx ->
     mul (nth i xs NaN) (nth i ys NaN) = mul (nth i xs' NaN) (nth i ys' NaN)) ->
  dot_sum xs ys idx s = dot_sum xs' ys' idx s.
Proof.
  revert s. induction idx as [|i idx IH]; intros s H; [reflexivity|].
  cbn [dot_sum fold_left]. rewrite H by (simpl; auto).
  apply IH. intros j Hj. apply H. simpl. auto.
Qed.

Lemma dot_sum_app (xs ys : list number) (i1 i2 : list nat) (s : number) :
  dot_sum xs ys (i1 ++ i2) s = dot_sum xs ys i2 (dot_sum xs ys i1 s).
Proof. apply fold_left_app. Qed.

(** Past the end of the shorter vector the longer one meets the padding
    zeros: the sum does not move, provided the component is a number. *)
Lemma dot_sum_padding (xs ys : list number) (idx : list nat) (s : number) :
  normal s ->
  (forall i, In i idx -> is_num (nth i xs NaN) /\ nth i ys NaN = int 0) ->
  dot_sum xs ys idx s = s.
Proof.
  revert s. induction idx as [|i idx IH]; intros s Hs H; [reflexivity|].
  cbn [dot_sum fold_left]. destruct (H i (or_introl eq_refl)) as [Hx Hy].
  rewrite Hy. destruct (nth i xs NaN) as [q|]; [|now elim Hx].
  rewrite mul_zero_r, add_zero_r by assumption.
  apply IH; [assumption|]. intros j Hj. apply H. simpl. auto.
Qed.

Lemma nth_firstn_lt {A} (l : list A) (n i : nat) (d : A) :
  (i < n)%nat -> nth i (firstn n l) d = nth i l d.
Proof.
  revert n i. induction l as [|a l IH]; intros n i Hi.
  - now rewrite firstn_nil.
  - destruct n as [|n]; [lia|]. destruct i as [|i]; [reflexivity|].
    cbn [firstn nth]. apply IH. lia.
Qed.

Lemma nth_skipn_shift {A} (l : list A) (n i : nat) (d : A) :
  nth i (skipn n l) d = nth (n + i) l d.
Proof.
  revert l. induction n as [|n IH]; intros l; [reflexivity|].
  destruct l as [|a l]; [now destruct i|]. cbn [skipn Nat.add nth]. apply IH.
Qed.

(** The two sums agree when the receiver is the shorter vector. *)
Lemma dot_sum_comm (da db : list number) (n m : nat) :
  length da = n -> length db = m -> (n <= m)%nat ->
  Forall is_num (skipn n db) ->
  dot_sum da (firstn n db ++ repeat (int 0) (n - n)) (seq 0 n) (int 0)
  = dot_sum db (firstn n da ++ repeat (int 0) (m - n)) (seq 0 m) (int 0).
Proof.
  intros Ha Hb Hnm Hnum.
  assert (Hsplit : seq 0 m = seq 0 n ++ seq n (m - n)).
  { replace m with (n + (m - n))%nat at 1 by lia. apply seq_app. }
  rewrite Hsplit, dot_sum_app.
  rewrite (dot_sum_padding db _ (seq n (m - n))).
  - apply dot_sum_ext. intros i Hi. apply in_seq in Hi.
    rewrite !app_nth1 by (rewrite length_firstn; lia).
    rewrite !nth_firstn_lt by lia. apply mul_comm.
  - apply dot_sum_normal, int_normal.
  - intros i Hi. apply in_seq in Hi. split.
    + rewrite Forall_forall in Hnum.
      replace i with (n + (i - n))%nat by lia. rewrite <- nth_skipn_shift.
      apply Hnum. apply nth_In. rewrite length_skipn. lia.
    + rewrite app_nth2 by (rewrite length_firstn; lia).
      rewrite length_firstn, Ha, Nat.min_id.
      apply nth_repeat_lt. lia.
Qed.

Lemma getAxis_int (a : Matrix) (n i : Z) :
  shaped a [n; 1] -> 0 <= i < n ->
  Vec.getAxis a (int i) = Ok (nth (Z.to_nat i) (data a) NaN).
Proof.
  intros (Hd & _) Hi. unfold Vec.getAxis, Vec.size. rewrite Hd. cbn [map].
  rewrite (arr_get_int _ 0) by lia. change (Z.to_nat 0) with 0%nat. cbn [nth].
  rewrite lt_int, ge_int, is_integer_int.
  destruct (Z.ltb_spec i 0); [lia|]. destruct (Z.leb_spec n i); [lia|].
  cbn [orb]. now rewrite arr_get_int by lia.
Qed.

Lemma dot_loop (a v : Matrix) (n : Z) (idx : list nat) (s : number) :
  shaped a [n; 1] -> shaped v [n; 1] ->
  Forall (fun i => (i < Z.to_nat n)%nat) idx ->
  foldM (fun sum i =>
           do x <- Vec.getAxis a i;
           do y <- Vec.getAxis v i;
           Ok (add sum (mul x y)))
        (map (fun k => int (Z.of_nat k)) idx) s
  = Ok (dot_sum (data a) (data v) idx s).
Proof.
  intros Ha Hv H. revert s. induction H as [|i idx Hi _ IH]; intros s; [reflexivity|].
  cbn [map foldM].
  rewrite (getAxis_int a n), (getAxis_int v n) by (assumption || lia).
  cbn [bind]. rewrite Nat2Z.id. apply IH.
Qed.

(** [a.dot(b)] on two vectors, as a sum over the positions of [a]. *)
Lemma dot_shaped (a b : Matrix) (n m : Z) :
  shaped a [n; 1] -> shaped b [m; 1] ->
  Vec.dot a b
  = Ok (dot_sum (data a)
                (firstn (Z.to_nat (Z.min n m)) (data b)
                 ++ repeat (int 0) (Z.to_nat (n - Z.min n m)))
                (seq 0 (Z.to_nat n)) (int 0)).
Proof.
  intros Ha Hb. pose proof Ha as (Hd & _ & Hpos & Hlen).
  assert (Hn : 0 < n) by (inversion Hpos; assumption).
  unfold Vec.dot, Vec.toVec', Vec.size. rewrite Hd. cbn [map].
  rewrite (arr_get_int _ 0) by lia. change (Z.to_nat 0) with 0%nat. cbn [nth].
  rewrite (toVec_shaped b n m) by (assumption || lia). cbn [bind].
  rewrite upto_int.
  rewrite (dot_loop a _ n); [reflexivity|assumption| |].
  - split; [reflexivity|]. split; [discriminate|]. split; [assumption|].
    cbn [data prodZ fold_right] in *.
    destruct Hb as (_ & _ & Hposb & Hlenb). cbn [prodZ fold_right] in Hlenb.
    assert (0 < m) by (inversion Hposb; assumption).
    rewrite length_app, length_firstn, repeat_length. lia.
  - apply Forall_forall. intros i Hi. apply in_seq in Hi. lia.
Qed.

Lemma dot_comm_le (a b : Matrix) (n m : Z) :
  shaped a [n; 1] -> shaped b [m; 1] -> n <= m ->
  Forall is_num (skipn (Z.to_nat n) (data b)) ->
  Vec.dot a b = Vec.dot b a.
Proof.
  intros Ha Hb Hnm Hnum.
  rewrite (dot_shaped a b n m Ha Hb), (dot_shaped b a m n Hb Ha).
  destruct Ha as (_ & _ & Hposa & Hlena), Hb as (_ & _ & Hposb & Hlenb).
  cbn [prodZ fold_right] in Hlena, Hlenb.
  assert (0 < n) by (inversion Hposa; assumption).
  rewrite Z.min_l, (Z.min_r m n) by lia. f_equal.
  replace (Z.to_nat (n - n)) with (Z.to_nat n - Z.to_nat n)%nat by lia.
  replace (Z.to_nat (m - n)) with (Z.to_nat m - Z.to_nat n)%nat by lia.
  apply dot_sum_comm; (assumption || lia).
Qed.

(** C7, as stated, fails: the longer vector meets the padding zeros only
    when it is the receiver, and NaN times zero is NaN (as an infinity times
    zero is).  With [a = (1, 1)]
    and [b = (1, 1, NaN)], [a.dot(b)] is 2 and [b.dot(a)] is NaN. *)
Lemma dot_not_commutative_NaN :
  let a := {| dim := [int 2; int 1]; data := [int 1; int 1] |} in
  let b := {| dim := [int 3; int 1]; data := [int 1; int 1; NaN] |} in
  Vec.new (int 2) [int 1; int 1] = Ok a /\
  Vec.new (int 3) [int 1; int 1; NaN] = Ok b /\
  Vec.dot a b = Ok (int 2) /\
  Vec.dot b a = Ok NaN /\
  int 2 <> NaN.
Proof. cbv zeta. repeat split; try (vm_compute; reflexivity). discriminate. Qed.

(** C7, amended: for vectors [a] of size [N] and [b] of size [M], both in
    {2, 3, 4}, [a.dot(b)] and [b.dot(a)] return the same value provided the
    components of the longer vector past the size of the shorter one are
    finite (neither NaN nor an infinity: only a finite number times the
    padding zero is zero); no condition when the sizes are equal. *)
Theorem dot_commutative (N M : Z) (da db : list number) (a b : Matrix) :
  In N [2; 3; 4] -> In M [2; 3; 4] ->
  Vec.new (int N) da = Ok a -> Vec.new (int M) db = Ok b ->
  Forall finite (skipn (Z.to_nat (Z.min N M)) da) ->
  Forall finite (skipn (Z.to_nat (Z.min N M)) db) ->
  exists v, Vec.dot a b = Ok v /\ Vec.dot b a = Ok v.
Proof.
  intros _ _ Ha Hb Hfa Hfb.
  assert (Hnum : forall l, Forall finite l -> Forall is_num l).
  { intros l H. apply (Forall_impl _ (P := finite)); [|exact H].
    intros x (q & ->). discriminate. }
  pose proof (Hnum _ Hfa) as Hna. pose proof (Hnum _ Hfb) as Hnb.
  clear Hfa Hfb Hnum.
  pose proof (Matrix_new_shaped [N; 1] (Some da) a Ha) as Hsa.
  pose proof (Matrix_new_shaped [M; 1] (Some db) b Hb) as Hsb.
  apply Matrix_new_Some_inv in Ha, Hb.
  assert (Hda : data a = da) by now subst a.
  assert (Hdb : data b = db) by now subst b.
  rewrite <- Hda in Hna. rewrite <- Hdb in Hnb.
  destruct (Z.le_ge_cases N M) as [Hle|Hge].
  - rewrite Z.min_l in Hnb by lia.
    rewrite (dot_comm_le a b N M Hsa Hsb Hle Hnb).
    rewrite (dot_shaped b a M N Hsb Hsa). eexists. split; reflexivity.
  - rewrite Z.min_r in Hna by lia.
    rewrite <- (dot_comm_le b a M N Hsb Hsa Hge Hna).
    rewrite (dot_shaped b a M N Hsb Hsa). eexists. split; reflexivity.
Qed.

Lemma dot_commutative_witness :
  exists v,
    Vec.dot {| dim := [int 2; int 1]; data := [int 5; int 8] |}
            {| dim := [int 4; int 1];
               data := [int (-10); int 7; int 9; int (-12)] |} = Ok v /\
    Vec.dot {| dim := [int 4; int 1];
               data := [int (-10); int 7; int 9; int (-12)] |}
            {| dim := [int 2; int 1]; data := [int 5; int 8] |} = Ok v.
Proof.
  apply (dot_commutative 2 4 [int 5; int 8] [int (-10); int 7; int 9; int (-12)]).
  - simpl. auto.
  - simpl. auto.
  - reflexivity.
  - reflexivity.
  - simpl. constructor.
  - simpl. repeat constructor; eexists; reflexivity.
Defined.

(* ================================================================== *)
(** ** Failure of the in-place methods (C6) *)
(* ================================================================== *)

(** [getIndices] accepts every position of the buffer, and looks at the
    receiver's dimensions and buffer length only. *)
Lemma getIndices_position (this : Matrix) (k : nat) :
  (k < length (data this))%nat ->
  getIndices this (int (Z.of_nat k))
  = Ok (getIndices_loop (dim this) (arr_length (data this)) (int (Z.of_nat k))).
Proof.
  intros Hk. unfold getIndices, arr_length.
  rewrite lt_int, ge_int, is_integer_int.
  destruct (Z.ltb_spec (Z.of_nat k) 0); [lia|].
  destruct (Z.leb_spec (Z.of_nat (length (data this))) (Z.of_nat k)); [lia|].
  reflexivity.
Qed.

Lemma getIndices_set_data (this : Matrix) (d : list number) (i : number) :
  length d = length (data this) ->
  getIndices (set_data this d) i = getIndices this i.
Proof.
  intros Hl. unfold getIndices, arr_length, set_data. cbn [data dim].
  now rewrite Hl.
Qed.

(** The loop of [withMap] from position [start] on: when it throws, the
    callback threw at some position [k]; the elements before [k] hold what
    the callback returned, the others are untouched. *)
Lemma withMap_loop_throws (f : callback) (cnt start : nat)
  (this this' : Matrix) (e : error) :
  (start + cnt = length (data this))%nat ->
  withMap_loop f (map (fun k => int (Z.of_nat k)) (seq start cnt)) this
  = (this', Err e) ->
  dim this' = dim this /\
  length (data this') = length (data this) /\
  exists k idx,
    (start <= k < start + cnt)%nat /\
    getIndices this (int (Z.of_nat k)) = Ok idx /\
    f (nth k (data this) NaN) idx = Err e /\
    (forall j, (j < start \/ k <= j)%nat ->
       nth j (data this') NaN = nth j (data this) NaN) /\
    (forall j, (start <= j < k)%nat ->
       exists idxj,
         getIndices this (int (Z.of_nat j)) = Ok idxj /\
         f (nth j (data this) NaN) idxj = Ok (nth j (data this') NaN)).
Proof.
  revert start this. induction cnt as [|cnt IH]; intros start this Hlen; [discriminate|].
  cbn [seq map withMap_loop].
  rewrite getIndices_position by lia. cbn [bind].
  rewrite arr_get_int by lia. rewrite Nat2Z.id.
  set (idx := getIndices_loop (dim this) (arr_length (data this))
                (int (Z.of_nat start))).
  destruct (f (nth start (data this) NaN) idx) as [v|e'] eqn:Ef.
  - rewrite arr_set_int, Nat2Z.id by lia. intros Hrun.
    apply IH in Hrun; [|cbn [set_data data]; rewrite length_list_update; lia].
    cbn [set_data data dim] in Hrun. rewrite length_list_update in Hrun.
    destruct Hrun as (Hdim & Hl & k & idxk & Hk & Hgk & Hfk & Hout & Hin).
    split; [exact Hdim|]. split; [exact Hl|].
    rewrite (getIndices_set_data this) in Hgk by apply length_list_update.
    rewrite nth_list_update_neq in Hfk by lia.
    exists k, idxk. split; [lia|]. split; [exact Hgk|]. split; [exact Hfk|]. split.
    + intros j Hj. rewrite Hout by lia. apply nth_list_update_neq. lia.
    + intros j Hj. destruct (Nat.eq_dec j start) as [->|Hne].
      * exists idx. split; [apply getIndices_position; lia|].
        rewrite Hout by lia. rewrite nth_list_update_eq by lia. exact Ef.
      * destruct (Hin j ltac:(lia)) as (idxj & Hgj & Hfj).
        rewrite (getIndices_set_data this) in Hgj by apply length_list_update.
        rewrite nth_list_update_neq in Hfj by lia. now exists idxj.
  - intros [= <- <-]. split; [reflexivity|]. split; [reflexivity|].
    exists start, idx. split; [lia|]. split; [apply getIndices_position; lia|].
    split; [exact Ef|]. split; [reflexivity|]. intros j Hj. lia.
Qed.

Lemma withMap_throws (f : callback) (this this' : Matrix) (e : error) :
  withMap f this = (this', Err e) ->
  dim this' = dim this /\
  length (data this') = length (data this) /\
  exists k idx,
    (k < length (data this))%nat /\
    getIndices this (int (Z.of_nat k)) = Ok idx /\
    f (nth k (data this) NaN) idx = Err e /\
    (forall j, (k <= j)%nat -> nth j (data this') NaN = nth j (data this) NaN) /\
    (forall j, (j < k)%nat ->
       exists idxj,
         getIndices this (int (Z.of_nat j)) = Ok idxj /\
         f (nth j (data this) NaN) idxj = Ok (nth j (data this') NaN)).
Proof.
  unfold withMap, arr_length. rewrite upto_int, Nat2Z.id. intros H.
  apply withMap_loop_throws in H; [|reflexivity].
  destruct H as (Hd & Hl & k & idx & Hk & Hg & Hf & Hout & Hin).
  split; [exact Hd|]. split; [exact Hl|]. exists k, idx.
  split; [lia|]. split; [exact Hg|]. split; [exact Hf|]. split.
  - intros j Hj. apply Hout. lia.
  - intros j Hj. apply Hin. lia.
Qed.

(** A callback that never throws makes [withMap] return. *)
Lemma withMap_total (f : callback) (this this' : Matrix) (e : error) :
  (forall v idx, f v idx <> Err e) -> withMap f this <> (this', Err e).
Proof.
  intros Hf H. apply withMap_throws in H.
  destruct H as (_ & _ & k & idx & _ & _ & Hk & _). exact (Hf _ _ Hk).
Qed.


Lemma withMap_returns (f : callback) (this : Matrix) :
  (forall v idx e, f v idx <> Err e) ->
  exists this', withMap f this = (this', Ok tt).
Proof.
  intros Hf. destruct (withMap f this) as [this' [[]|e]] eqn:E.
  - now exists this'.
  - exfalso. revert E. apply withMap_total. intros v idx. apply Hf.
Qed.



(* ================================================================== *)
(** ** Reshaping (C9) *)
(* ================================================================== *)

Lemma repr_int (z : Z) : repr (int z) z.
Proof. exists (inject_Z z). split; reflexivity. Qed.

Lemma le_repr (x : number) (z : Z) : repr x z -> le x (int 0) = (z <=? 0).
Proof.
  intros (q & -> & Hq). unfold le, int. apply eq_true_iff_eq.
  rewrite Qle_bool_iff, Z.leb_le, Hq, <- Zle_Qle. reflexivity.
Qed.

Lemma Qtrunc_inject_Z (q : Q) (z : Z) : (q == inject_Z z)%Q -> Qtrunc q = z.
Proof.
  intros Hq. unfold Qtrunc. destruct (Qle_bool 0 q).
  - now rewrite (Qfloor_comp _ _ Hq), Qfloor_Z.
  - now rewrite (Qceiling_comp _ _ Hq), Qceiling_Z.
Qed.

Lemma is_integer_repr (x : number) (z : Z) :
  repr x z -> strict_ne (js_rem x (int 1)) (int 0) = false.
Proof.
  intros (q & -> & Hq). unfold js_rem, int.
  change (Qeq_bool (inject_Z 1) 0) with false. cbv iota.
  rewrite (Qtrunc_inject_Z (q / inject_Z 1) z)
    by (rewrite Hq; unfold Qdiv; change (/ inject_Z 1)%Q with 1%Q;
        apply Qmult_1_r).
  rewrite (Qred_int _ 0).
  - apply (strict_ne_int 0 0).
  - rewrite Hq. change (inject_Z 1) with 1%Q. change (inject_Z 0) with 0%Q. ring.
Qed.

Lemma is_integer_inv (x : number) :
  strict_ne (js_rem x (int 1)) (int 0) = false -> exists z, repr x z.
Proof.
  destruct x as [q|]; [|discriminate]. unfold js_rem, int.
  change (Qeq_bool (inject_Z 1) 0) with false. cbv iota.
  unfold strict_ne, strict_eq. intros H. apply negb_false_iff in H.
  apply Qeq_bool_iff in H. rewrite Qred_correct in H.
  exists (Qtrunc (q / inject_Z 1)), q. split; [reflexivity|].
  change (inject_Z 1) with 1%Q in *. change (inject_Z 0) with 0%Q in H.
  rewrite <- (Qplus_0_r (inject_Z _)), <- H. ring.
Qed.

Lemma mul_repr (a : Z) (x : number) (z : Z) :
  repr x z -> mul (int a) x = int (a * z).
Proof.
  intros (q & -> & Hq). unfold mul, lift2, int. f_equal. apply Qred_int.
  now rewrite Hq, inject_Z_mult.
Qed.

Lemma Matrix_length_repr (dim' : list number) (dz : list Z) (acc : Z) :
  Forall2 repr dim' dz -> Forall (fun d => 0 < d) dz ->
  Matrix_length dim' (int acc) = Ok (int (acc * prodZ dz)).
Proof.
  intros H. revert acc. induction H as [|x z dim' dz Hx _ IH]; intros acc Hpos.
  - simpl. do 2 f_equal. lia.
  - inversion Hpos as [|? ? Hz Hpos']; subst. cbn [Matrix_length].
    rewrite (le_repr x z Hx), (is_integer_repr x z Hx).
    destruct (Z.leb_spec z 0); [lia|].
    rewrite (mul_repr acc x z Hx), IH by assumption.
    assert (E : acc * z * prodZ dz = acc * prodZ (z :: dz))
      by (change (prodZ (z :: dz)) with (z * prodZ dz); ring).
    now rewrite E.
Qed.

Lemma Matrix_length_inv (dim' : list number) (acc : Z) (r : number) :
  Matrix_length dim' (int acc) = Ok r ->
  exists dz, Forall2 repr dim' dz /\ Forall (fun d => 0 < d) dz.
Proof.
  revert acc. induction dim' as [|x dim' IH]; intros acc.
  - intros _. exists []. split; constructor.
  - cbn [Matrix_length]. destruct (le x (int 0)) eqn:Hle; [discriminate|].
    destruct (strict_ne (js_rem x (int 1)) (int 0)) eqn:Hint; [discriminate|].
    destruct (is_integer_inv x Hint) as [z Hz].
    rewrite (mul_repr acc x z Hz). intros H.
    destruct (IH _ H) as (dz & Hdz & Hpos). exists (z :: dz).
    rewrite (le_repr x z Hz) in Hle. apply Z.leb_gt in Hle.
    split; constructor; assumption.
Qed.

Lemma Matrix_length_error (dim' : list number) (acc : number) (e : error) :
  Matrix_length dim' acc = Err e -> e = ValueError.
Proof.
  revert acc. induction dim' as [|x dim' IH]; intros acc; [discriminate|].
  cbn [Matrix_length]. destruct (le x (int 0)); [congruence|].
  destruct (strict_ne _ _); [congruence|]. apply IH.
Qed.

(** The constructor on given data: success exactly on [valid_dims]. *)
Lemma Matrix_new_valid (dim' dat : list number) :
  valid_dims dim' (length dat) ->
  Matrix_new dim' (Some dat) = Ok {| dim := dim'; data := dat |}.
Proof.
  intros (Hne & dz & Hdz & Hpos & Hprod). unfold Matrix_new.
  destruct dim' as [|x dim']; [contradiction|]. cbn [length Nat.leb].
  rewrite (Matrix_length_repr _ dz 1 Hdz Hpos). cbn [bind].
  unfold arr_length. rewrite strict_ne_int, Z.mul_1_l, Hprod, Z.eqb_refl.
  reflexivity.
Qed.

Lemma Matrix_new_invalid (dim' dat : list number) :
  ~ valid_dims dim' (length dat) ->
  Matrix_new dim' (Some dat) = Err ValueError.
Proof.
  intros Hn. unfold Matrix_new.
  destruct dim' as [|x dim']; [reflexivity|]. cbn [length Nat.leb].
  destruct (Matrix_length (x :: dim') (int 1)) as [len|e] eqn:E; cbn [bind].
  - destruct (Matrix_length_inv _ _ _ E) as (dz & Hdz & Hpos).
    rewrite (Matrix_length_repr _ dz 1 Hdz Hpos), Z.mul_1_l in E.
    injection E as <-. unfold arr_length. rewrite strict_ne_int.
    destruct (Z.eqb_spec (Z.of_nat (length dat)) (prodZ dz)) as [Heq|_];
      [|reflexivity].
    elim Hn. split; [discriminate|]. exists dz. auto.
  - now rewrite (Matrix_length_error _ _ _ E).
Qed.

Lemma heap_read_alloc_old (h : Heap.heap) (a : list number) (l : Heap.loc) :
  (l < length h)%nat -> Heap.read (fst (Heap.alloc h a)) l = Heap.read h l.
Proof. intros Hl. unfold Heap.read, Heap.alloc. cbn [fst]. now apply app_nth1. Qed.

Lemma heap_read_alloc_new (h : Heap.heap) (a : list number) :
  Heap.read (fst (Heap.alloc h a)) (snd (Heap.alloc h a)) = a.
Proof.
  unfold Heap.read, Heap.alloc. cbn [fst snd].
  rewrite app_nth2, Nat.sub_diag by lia. reflexivity.
Qed.

Lemma heap_read_write_other (h : Heap.heap) (l l' : Heap.loc) (a : list number) :
  l <> l' -> Heap.read (Heap.write h l a) l' = Heap.read h l'.
Proof. intros Hl. unfold Heap.read, Heap.write. now apply nth_list_update_neq. Qed.

(** C9: [reshape(dim')] succeeds exactly when [dim'] is a non-empty list of
    positive integers whose product is the receiver's element count.  It
    then returns a new matrix of shape [dim'] with the receiver's data in
    the same order, held in arrays of its own: no later in-place call on
    the result changes the receiver.  Otherwise it throws the invalid-value
    error.  The receiver is unmodified in every case. *)
Theorem reshape_spec (h : Heap.heap) (this : Heap.object) (dim' : list number) :
  Heap.allocated h this ->
  let m := Heap.value h this in
  (valid_dims dim' (length (data m)) ->
   reshape m dim' = Ok {| dim := dim'; data := data m |} /\
   exists h' o,
     Heap.reshape h this dim' = Ok (h', o) /\
     Heap.value h' o = {| dim := dim'; data := data m |} /\
     Heap.value h' this = m /\
     Heap.allocated h' o /\
     ~ Heap.allocated h o /\
     (forall f : inplace, Heap.value (fst (Heap.call f h' o)) this = m))
  /\
  (~ valid_dims dim' (length (data m)) ->
   reshape m dim' = Err ValueError /\
   Heap.reshape h this dim' = Err ValueError).
Proof.
  intros [Hdim Hdata] m. split.
  - intros Hv. pose proof (Matrix_new_valid dim' (data m) Hv) as Hnew.
    split; [exact Hnew|].
    unfold Heap.reshape, Heap.construct.
    change (Heap.read h (Heap.data_at this)) with (data m).
    rewrite Hnew. cbn [bind dim data Heap.alloc].
    eexists. eexists. split; [reflexivity|].
    assert (Hthis : Heap.value ((h ++ [dim']) ++ [data m]) this = m).
    { unfold Heap.value, Heap.read. rewrite <- !app_assoc.
      now rewrite !app_nth1 by assumption. }
    split; [|split; [exact Hthis|split; [|split]]].
    + unfold Heap.value, Heap.read. cbn [Heap.dim_at Heap.data_at]. f_equal.
      * rewrite app_nth1 by (rewrite length_app; simpl; lia).
        rewrite app_nth2, Nat.sub_diag by lia. reflexivity.
      * rewrite app_nth2, Nat.sub_diag by lia. reflexivity.
    + unfold Heap.allocated. cbn [Heap.dim_at Heap.data_at].
      rewrite !length_app. simpl. lia.
    + unfold Heap.allocated. cbn [Heap.dim_at Heap.data_at].
      rewrite !length_app. simpl. lia.
    + intros f. unfold Heap.call.
      destruct (f _) as [m' r]. cbn [fst].
      rewrite <- Hthis at 2. unfold Heap.value.
      cbn [Heap.data_at]. rewrite !heap_read_write_other
        by (rewrite length_app; simpl; lia). reflexivity.
  - intros Hn. pose proof (Matrix_new_invalid dim' (data m) Hn) as Hnew.
    split; [exact Hnew|].
    unfold Heap.reshape, Heap.construct.
    change (Heap.read h (Heap.data_at this)) with (data m).
    now rewrite Hnew.
Qed.

Lemma reshape_spec_witness :
  let h := [[int 2; int 3]; map int [0; 1; 2; 3; 4; 5]] in
  let this := {| Heap.dim_at := 0%nat; Heap.data_at := 1%nat |} in
  Heap.allocated h this /\
  valid_dims [int 3; int 2] 6%nat /\
  reshape (Heap.value h this) [int 3; int 2]
  = Ok {| dim := [int 3; int 2]; data := map int [0; 1; 2; 3; 4; 5] |}.
Proof.
  cbv zeta.
  assert (Ha : Heap.allocated [[int 2; int 3]; map int [0; 1; 2; 3; 4; 5]]
                 {| Heap.dim_at := 0%nat; Heap.data_at := 1%nat |}).
  { split; simpl; lia. }
  assert (Hv : valid_dims [int 3; int 2] 6%nat).
  { split; [discriminate|]. exists [3; 2].
    split; [repeat constructor; apply repr_int|].
    split; [repeat constructor|reflexivity]. }
  split; [exact Ha|]. split; [exact Hv|].
  exact (proj1 (proj1 (reshape_spec _ _ [int 3; int 2] Ha) Hv)).
Defined.

(* ================================================================== *)
(** ** A single negative index in [slice] (C10) *)
(* ================================================================== *)

Lemma slice_range_single_negative (r axis : number) :
  lt r (int 0) = true -> slice_range (Single r) axis = Err RangeError.
Proof. intros Hr. unfold slice_range. now rewrite Hr. Qed.

(** The first loop of [slice] stops at the first range it rejects. *)
Lemma slice_ranges_first_error (ranges : list range) (dims : list number)
  (j : nat) (rg : range) (e : error) :
  nth_error ranges j = Some rg -> (j < length dims)%nat ->
  slice_range rg (nth j dims NaN) = Err e ->
  (forall i ri, (i < j)%nat -> nth_error ranges i = Some ri ->
     exists ok, slice_range ri (nth i dims NaN) = Ok ok) ->
  slice_ranges ranges dims = Err e.
Proof.
  revert ranges dims. induction j as [|j IH]; intros [|r0 ranges] [|axis dims];
    simpl; intros Hj Hl He Hbefore; try discriminate; try lia.
  - injection Hj as ->. now rewrite He.
  - destruct (Hbefore 0%nat r0 ltac:(lia) eq_refl) as [ok Hok]. simpl in Hok.
    rewrite Hok. cbn [bind].
    rewrite (IH ranges dims Hj ltac:(lia) He); [reflexivity|].
    intros i ri Hi Hri. apply (Hbefore (S i) ri); [lia|exact Hri].
Qed.

Lemma slice_ranges_some_error (ranges : list range) (dims : list number)
  (j : nat) (rg : range) (e : error) :
  nth_error ranges j = Some rg -> (j < length dims)%nat ->
  (forall axis, slice_range rg axis = Err e) ->
  exists e', slice_ranges ranges dims = Err e'.
Proof.
  revert ranges dims. induction j as [|j IH]; intros [|r0 ranges] [|axis dims];
    simpl; intros Hj Hl He; try discriminate; try lia.
  - injection Hj as ->. rewrite He. now exists e.
  - destruct (slice_range r0 axis) as [ok|e0]; cbn [bind]; [|now exists e0].
    destruct (IH ranges dims Hj ltac:(lia) He) as [e' ->]. now exists e'.
Qed.

Lemma nth_arr_get (l : list number) (i : nat) :
  nth i l NaN = arr_get l (int (Z.of_nat i)).
Proof. now rewrite arr_get_int, Nat2Z.id by lia. Qed.

(** In-range integral bounds of a range given as an array never raise the
    range error, and a negative one is shifted by the length of the axis. *)
Lemma slice_bounds_negative (axis s t : Z) (step3 : option number) :
  0 < axis -> - axis <= s < axis -> - axis <= t <= axis ->
  slice_bounds (int s) (int t) step3 (int axis) <> Err RangeError /\
  forall nr len,
    slice_bounds (int s) (int t) step3 (int axis) = Ok (nr, len) ->
    exists step, nr = NRange (int (normZ axis s)) (int (normZ axis t)) step.
Proof.
  intros Ha Hs Ht. unfold slice_bounds.
  rewrite !is_integer_int, neg_int, !lt_int, ge_int, gt_int.
  destruct (Z.ltb_spec s (- axis)); [lia|]. destruct (Z.leb_spec axis s); [lia|].
  destruct (Z.ltb_spec t (- axis)); [lia|]. destruct (Z.ltb_spec axis t); [lia|].
  rewrite !of_bool_int, !mul_int, !add_int.
  replace (s + axis * (if s <? 0 then 1 else 0)) with (normZ axis s)
    by (unfold normZ; destruct (s <? 0); lia).
  replace (t + axis * (if t <? 0 then 1 else 0)) with (normZ axis t)
    by (unfold normZ; destruct (t <? 0); lia).
  repeat match goal with
         | |- context [if ?b then Err ValueError else _] => destruct b
         end;
    (split; [discriminate|]); intros nr len Hok; try discriminate;
    injection Hok as <- _; eexists; reflexivity.
Qed.

(** C10: a negative number given as a single-integer range is rejected with
    the range error, whatever the axis: no call of [slice] with such a range
    returns, and the error is the range error whenever the ranges before it
    pass their checks (and there are not too many ranges).  The bounds of
    [[start, stop]] and [[start, stop, step]] ranges, in contrast, may be
    negative: they never raise the range error when in
    [[-dim[j], dim[j]]], and are shifted by [dim[j]]. *)
Theorem slice_single_negative (this : Matrix) (ranges : list range) (j : nat)
  (r : number) :
  nth_error ranges j = Some (Single r) -> lt r (int 0) = true ->
  (forall axis, slice_range (Single r) axis = Err RangeError) /\
  (exists e, slice this ranges = Err e) /\
  ((length ranges <= length (dim this))%nat ->
   (forall i ri, (i < j)%nat -> nth_error ranges i = Some ri ->
      exists ok, slice_range ri (arr_get (dim this) (int (Z.of_nat i))) = Ok ok) ->
   slice this ranges = Err RangeError) /\
  (forall axis s t step3,
     0 < axis -> - axis <= s < 0 -> - axis <= t <= axis ->
     slice_bounds (int s) (int t) step3 (int axis) <> Err RangeError /\
     forall nr len,
       slice_bounds (int s) (int t) step3 (int axis) = Ok (nr, len) ->
       exists stop step, nr = NRange (int (s + axis)) stop step).
Proof.
  intros Hj Hr.
  assert (Hjl : (j < length ranges)%nat) by (apply nth_error_Some; congruence).
  split; [intros; now apply slice_range_single_negative|]. split; [|split].
  - unfold slice. destruct (Nat.ltb_spec (length (dim this)) (length ranges)).
    + now exists ValueError.
    + destruct (slice_ranges_some_error
                  (ranges ++ map (fun d => Pair (int 0) d)
                                 (skipn (length ranges) (dim this)))
                  (dim this) j (Single r) RangeError) as [e' He'].
      * rewrite nth_error_app1 by assumption. exact Hj.
      * lia.
      * intros. now apply slice_range_single_negative.
      * rewrite He'. now exists e'.
  - intros Hlen Hbefore. unfold slice.
    destruct (Nat.ltb_spec (length (dim this)) (length ranges)); [lia|].
    rewrite (slice_ranges_first_error _ (dim this) j (Single r) RangeError);
      [reflexivity| | | |].
    + rewrite nth_error_app1 by assumption. exact Hj.
    + lia.
    + now apply slice_range_single_negative.
    + intros i ri Hi Hri. rewrite nth_error_app1 in Hri by lia.
      rewrite nth_arr_get. now apply Hbefore.
  - intros axis s t step3 Ha Hs Ht.
    destruct (slice_bounds_negative axis s t step3 Ha ltac:(lia) Ht) as [H1 H2].
    split; [exact H1|]. intros nr len H. destruct (H2 nr len H) as [step ->].
    unfold normZ. destruct (Z.ltb_spec s 0); [|lia]. eauto.
Qed.

Lemma slice_single_negative_witness :
  let m := {| dim := [int 2; int 3]; data := map int [0; 1; 2; 3; 4; 5] |} in
  slice m [Pair (int (-1)) (int 2); Single (int (-1))] = Err RangeError.
Proof.
  cbv zeta.
  refine (proj1 (proj2 (proj2 (slice_single_negative _
            [Pair (int (-1)) (int 2); Single (int (-1))] 1 (int (-1))
            eq_refl eq_refl))) _ _).
  - simpl. lia.
  - intros [|i] ri Hi Hri; [|lia]. injection Hri as <-.
    eexists. vm_compute. reflexivity.
Defined.

(* ================================================================== *)
(** ** The loops of [slice] and the ranges it cannot serve *)
(* ================================================================== *)

Lemma stepsZ_succ (k : nat) (s p : Z) :
  stepsZ (S k) s p = s :: stepsZ k (s + p) p.
Proof.
  unfold stepsZ. cbn [seq map]. f_equal; [lia|].
  rewrite <- seq_shift, map_map. apply map_ext. intros a. lia.
Qed.

(** The ascending loop ends on its own: the fuel is never used up, and the
    number of rounds is the distance divided by the step, rounded up. *)
Lemma loop_up_int (fuel : nat) (s t p : Z) :
  0 < p -> (Z.to_nat (t - s) <= fuel)%nat ->
  loop_up fuel (int s) (int t) (int p)
  = map int (stepsZ (Z.to_nat ((t - s + p - 1) / p)) s p).
Proof.
  intros Hp. revert s. induction fuel as [|fuel IH]; intros s Hf.
  - replace (Z.to_nat ((t - s + p - 1) / p)) with 0%nat; [reflexivity|].
    assert ((t - s + p - 1) / p <= 0); [|lia].
    apply Z.lt_succ_r. apply Z.div_lt_upper_bound; lia.
  - cbn [loop_up]. rewrite lt_int. destruct (Z.ltb_spec s t) as [Hlt|Hge].
    + rewrite add_int, IH by lia.
      replace (t - s + p - 1) with ((t - (s + p) + p - 1) + 1 * p) by lia.
      rewrite Z.div_add by lia.
      assert (0 <= (t - (s + p) + p - 1) / p) by (apply Z.div_pos; lia).
      replace (Z.to_nat ((t - (s + p) + p - 1) / p + 1))
        with (S (Z.to_nat ((t - (s + p) + p - 1) / p))) by lia.
      now rewrite stepsZ_succ.
    + replace (Z.to_nat ((t - s + p - 1) / p)) with 0%nat; [reflexivity|].
      assert ((t - s + p - 1) / p <= 0); [|lia].
      apply Z.lt_succ_r. apply Z.div_lt_upper_bound; lia.
Qed.

Lemma loop_down_int (fuel : nat) (s t p : Z) :
  p < 0 -> (Z.to_nat (s - t) <= fuel)%nat ->
  loop_down fuel (int s) (int t) (int p)
  = map int (stepsZ (Z.to_nat ((s - t - p - 1) / - p)) s p).
Proof.
  intros Hp. revert s. induction fuel as [|fuel IH]; intros s Hf.
  - replace (Z.to_nat ((s - t - p - 1) / - p)) with 0%nat; [reflexivity|].
    assert ((s - t - p - 1) / - p <= 0); [|lia].
    apply Z.lt_succ_r. apply Z.div_lt_upper_bound; lia.
  - cbn [loop_down]. rewrite gt_int. destruct (Z.ltb_spec t s) as [Hlt|Hge].
    + rewrite add_int, IH by lia.
      replace (s - t - p - 1) with ((s + p - t - p - 1) + 1 * - p) by lia.
      rewrite Z.div_add by lia.
      assert (0 <= (s + p - t - p - 1) / - p) by (apply Z.div_pos; lia).
      replace (Z.to_nat ((s + p - t - p - 1) / - p + 1))
        with (S (Z.to_nat ((s + p - t - p - 1) / - p))) by lia.
      now rewrite stepsZ_succ.
    + replace (Z.to_nat ((s - t - p - 1) / - p)) with 0%nat; [reflexivity|].
      assert ((s - t - p - 1) / - p <= 0); [|lia].
      apply Z.lt_succ_r. apply Z.div_lt_upper_bound; lia.
Qed.

(** The indices visited on one axis, for the three shapes of a checked
    range. *)
Lemma range_indices_int (s t p : Z) :
  (s < t -> 0 < p ->
   range_indices (int s) (int t) (int p)
   = map int (stepsZ (Z.to_nat ((t - s + p - 1) / p)) s p)) /\
  (t < s -> p < 0 ->
   range_indices (int s) (int t) (int p)
   = map int (stepsZ (Z.to_nat ((s - t - p - 1) / - p)) s p)) /\
  (s = t -> range_indices (int s) (int t) (int p) = []).
Proof.
  unfold range_indices. rewrite sub_int, Math_abs_int, length_upto_int, lt_int.
  repeat split.
  - intros Hlt Hp. destruct (Z.ltb_spec s t); [|lia]. apply loop_up_int; lia.
  - intros Hlt Hp. destruct (Z.ltb_spec s t); [lia|]. apply loop_down_int; lia.
  - intros ->. rewrite Z.ltb_irrefl, Z.sub_diag. reflexivity.
Qed.

Lemma slice_ranges_ok_nth (ranges : list range) (dims : list number)
  (nrs : list nrange) (nd : list number) (j : nat) (rg : range) :
  slice_ranges ranges dims = Ok (nrs, nd) ->
  nth_error ranges j = Some rg -> (j < length dims)%nat ->
  exists nr len,
    slice_range rg (nth j dims NaN) = Ok (nr, len) /\ nth_error nd j = Some len.
Proof.
  revert dims nrs nd j. induction ranges as [|r0 ranges IH];
    intros [|axis dims] nrs nd [|j]; simpl; intros Hok Hj Hl;
    try discriminate; try lia.
  - injection Hj as ->.
    destruct (slice_range rg axis) as [[nr len]|]; [|discriminate].
    cbn [bind fst snd] in Hok.
    destruct (slice_ranges ranges dims) as [[nrs' nd']|]; [|discriminate].
    cbn [bind fst snd] in Hok. injection Hok as <- <-. now exists nr, len.
  - destruct (slice_range r0 axis) as [[nr0 len0]|]; [|discriminate].
    cbn [bind fst snd] in Hok.
    destruct (slice_ranges ranges dims) as [[nrs' nd']|] eqn:E; [|discriminate].
    cbn [bind fst snd] in Hok. injection Hok as <- <-.
    apply (IH dims nrs' nd' j E Hj). lia.
Qed.

Lemma Matrix_length_nonpositive (nd : list number) (j : nat) (len acc : number) :
  nth_error nd j = Some len -> le len (int 0) = true ->
  Matrix_length nd acc = Err ValueError.
Proof.
  revert j acc. induction nd as [|d nd IH]; intros [|j] acc Hj Hle;
    simpl in Hj; try discriminate.
  - injection Hj as ->. cbn [Matrix_length]. now rewrite Hle.
  - cbn [Matrix_length]. destruct (le d (int 0)); [reflexivity|].
    destruct (strict_ne _ _); [reflexivity|]. now apply (IH j).
Qed.

(** The length pushed on [newDim] for a range that does not ascend: the
    distance is divided by a negative step (or is zero). *)
Lemma slice_bounds_not_ascending (axis s t : Z) (step3 : option Z)
  (nr : nrange) (len : number) :
  slice_bounds (int s) (int t) (option_map int step3) (int axis) = Ok (nr, len) ->
  normZ axis t <= normZ axis s ->
  le len (int 0) = true.
Proof.
  unfold slice_bounds. cbv zeta.
  rewrite !is_integer_int, neg_int, !lt_int, ge_int, !gt_int.
  destruct (s <? - axis); [discriminate|]. destruct (axis <=? s); [discriminate|].
  destruct (t <? - axis); [discriminate|]. destruct (axis <? t); [discriminate|].
  rewrite !of_bool_int, !mul_int, !add_int.
  replace (s + axis * (if s <? 0 then 1 else 0)) with (normZ axis s)
    by (unfold normZ; destruct (s <? 0); lia).
  replace (t + axis * (if t <? 0 then 1 else 0)) with (normZ axis t)
    by (unfold normZ; destruct (t <? 0); lia).
  set (s' := normZ axis s). set (t' := normZ axis t). intros Hok Hdesc.
  rewrite !lt_int, !gt_int in Hok.
  match type of Hok with
  | context [js_rem ?X (int 1)] => set (step := X) in Hok
  end.
  assert (Hstep : exists p, step = int p).
  { unfold step. destruct step3 as [p0|]; cbn [option_map]; [now exists p0|].
    destruct (s' <? t'); [now exists 1|now exists (-1)]. }
  destruct Hstep as (p & Hp).
  rewrite Hp in Hok. rewrite is_integer_int, strict_eq_int, !lt_int, gt_int in Hok.
  destruct (Z.eqb_spec p 0); [discriminate|].
  destruct (Z.ltb_spec s' t'); [lia|]. cbn [andb] in Hok.
  destruct (Z.ltb_spec t' s') as [Hlt|Hge]; cbn [andb] in Hok.
  - destruct (Z.ltb_spec 0 p); [discriminate|].
    injection Hok as _ <-. rewrite sub_int, Math_abs_int, floor_div_int by lia.
    rewrite le_int. apply Z.leb_le.
    pose proof (Z.div_mod (Z.abs (s' - t')) p ltac:(lia)) as Hdm.
    pose proof (Z.mod_neg_bound (Z.abs (s' - t')) p ltac:(lia)) as Hmb.
    assert (0 < Z.abs (s' - t')) by lia. nia.
  - destruct (0 <? p); cbn [andb] in Hok;
      injection Hok as _ <-; rewrite sub_int, Math_abs_int, floor_div_int by lia;
      replace (s' - t') with 0 by lia; now rewrite le_int.
Qed.

(** Every call of [slice] fails when one of its ranges is an array whose
    bounds, once shifted, do not ascend (it descends, or it is empty): the
    length computed for its axis is negative or zero and the constructor
    rejects it. *)
Theorem slice_not_ascending_fails (this : Matrix) (dz : list Z)
  (ranges : list range) (j : nat) (s t : Z) (step3 : option Z) :
  shaped this dz -> (length ranges <= length dz)%nat ->
  nth_error ranges j
  = Some (match step3 with
          | Some p => Triple (int s) (int t) (int p)
          | None => Pair (int s) (int t)
          end) ->
  normZ (nth j dz 0) t <= normZ (nth j dz 0) s ->
  exists e, slice this ranges = Err e.
Proof.
  intros (Hd & _) Hlen Hj Hdesc.
  assert (Hjl : (j < length ranges)%nat) by (apply nth_error_Some; congruence).
  unfold slice. rewrite Hd, length_map.
  destruct (Nat.ltb_spec (length dz) (length ranges)); [lia|].
  destruct (slice_ranges _ _) as [[nrs nd]|e] eqn:E; cbn [bind fst snd];
    [|now exists e].
  assert (Hj' : nth_error
                  (ranges ++ map (fun d => Pair (int 0) d)
                                 (skipn (length ranges) (map int dz))) j
                = Some (match step3 with
                        | Some p => Triple (int s) (int t) (int p)
                        | None => Pair (int s) (int t)
                        end))
    by (rewrite nth_error_app1 by assumption; exact Hj).
  destruct (slice_ranges_ok_nth _ _ _ _ j _ E Hj') as (nr & len & Hr & Hnd).
  { rewrite length_map. lia. }
  rewrite (nth_map_inside int _ _ NaN 0) in Hr by lia.
  assert (Hle : le len (int 0) = true).
  { apply (slice_bounds_not_ascending (nth j dz 0) s t step3 nr); [|exact Hdesc].
    destruct step3; exact Hr. }
  destruct (slice_dfs _ _ _ _) as [newData|e]; cbn [bind]; [|now exists e].
  unfold Matrix_new. destruct (length nd <=? 0)%nat; [now exists ValueError|].
  rewrite (Matrix_length_nonpositive nd j len _ Hnd Hle). now exists ValueError.
Qed.

(** Two more calls that the length formula turns down: a step that does not
    divide the distance (the loop visits 0 and 2, the length says 1), and an
    empty range. *)
Example slice_step_not_dividing :
  slice {| dim := [int 3]; data := map int [0; 1; 2] |}
        [Triple (int 0) (int 3) (int 2)] = Err ValueError /\
  slice_range (Triple (int 0) (int 3) (int 2)) (int 3)
  = Ok (NRange (int 0) (int 3) (int 2), int 1) /\
  range_indices (int 0) (int 3) (int 2) = [int 0; int 2].
Proof. repeat split; vm_compute; reflexivity. Qed.

Example slice_empty_range :
  slice {| dim := [int 3]; data := map int [0; 1; 2] |}
        [Pair (int 1) (int 1)] = Err ValueError.
Proof. vm_compute; reflexivity. Qed.

(** Ascending ranges whose step divides the distance are served, with
    negative bounds counted from the end of the axis. *)
Example slice_ascending :
  slice {| dim := [int 2; int 3]; data := map int [0; 1; 2; 3; 4; 5] |}
        [Single (int 1); Triple (int (-3)) (int 2) (int 2)]
  = Ok {| dim := [int 1; int 1]; data := [int 3] |} /\
  slice {| dim := [int 2; int 3]; data := map int [0; 1; 2; 3; 4; 5] |}
        [Single (int 1); Pair (int (-2)) (int 3)]
  = Ok {| dim := [int 1; int 2]; data := map int [4; 5] |}.
Proof. split; vm_compute; reflexivity. Qed.

(* ================================================================== *)
(** ** The constructor and the invariant of every matrix *)
(* ================================================================== *)

(** Whatever the arguments, a matrix that [new Matrix(dim, data)] returns
    has the dimensions it was given, a non-empty list of positive integers
    whose product is the length of its buffer; the buffer is the data
    given, or zeros when none was. *)
Theorem Matrix_new_invariant (d : list number) (dat : option (list number))
  (m : Matrix) :
  Matrix_new d dat = Ok m ->
  dim m = d /\
  valid_dims d (length (data m)) /\
  match dat with
  | Some b => data m = b
  | None => data m = zeros (length (data m))
  end.
Proof.
  unfold Matrix_new. destruct d as [|x d]; [discriminate|].
  cbn [length Nat.leb].
  destruct (Matrix_length (x :: d) (int 1)) as [len|e] eqn:E;
    cbn [bind]; [|discriminate].
  destruct (Matrix_length_inv _ _ _ E) as (dz & Hdz & Hpos).
  rewrite (Matrix_length_repr _ dz 1 Hdz Hpos), Z.mul_1_l in E.
  injection E as <-.
  assert (Hfin : forall buf,
             (if strict_ne (arr_length buf) (int (prodZ dz))
              then Err ValueError
              else Ok {| dim := x :: d; data := buf |}) = Ok m ->
             dim m = x :: d /\ valid_dims (x :: d) (length (data m)) /\
             data m = buf).
  { intros buf. unfold arr_length. rewrite strict_ne_int.
    destruct (Z.eqb_spec (Z.of_nat (length buf)) (prodZ dz)) as [Hl|];
      cbn [negb]; [|discriminate].
    intros [= <-]. cbn [dim data]. split; [reflexivity|].
    split; [|reflexivity]. split; [discriminate|]. exists dz. auto. }
  destruct dat as [b|]; cbn [bind]; [apply Hfin|].
  unfold Array_new_fill.
  destruct (strict_ne _ _); [discriminate|].
  destruct (_ || _); [discriminate|]. cbn [bind]. intros H.
  destruct (Hfin _ H) as (H1 & H2 & H3).
  split; [exact H1|]. split; [exact H2|].
  rewrite H3 at 1. unfold Array_fill, zeros. f_equal.
  rewrite H3. unfold Array_fill. now rewrite repeat_length.
Qed.

Lemma Matrix_new_invariant_witness :
  exists m, Matrix_new [int 2; int 3] None = Ok m /\
            dim m = [int 2; int 3] /\ data m = zeros 6.
Proof.
  exists {| dim := [int 2; int 3]; data := zeros 6 |}.
  assert (H : Matrix_new [int 2; int 3] None
              = Ok {| dim := [int 2; int 3]; data := zeros 6 |})
    by (vm_compute; reflexivity).
  split; [exact H|].
  destruct (Matrix_new_invariant _ _ _ H) as (Hd & _ & Hz).
  split; [exact Hd|exact Hz].
Defined.

(** Built without data, a matrix of valid dimensions is filled with as many
    zeros as the product of the dimensions, as long as that product is a
    length an array can have; a larger product is refused by the
    constructor of arrays with its range error; any other list of
    dimensions is refused with the invalid-value error. *)
Theorem Matrix_new_zero_filled (d : list number) :
  (forall dz, d <> [] -> Forall2 repr d dz -> Forall (fun z => 0 < z) dz ->
     (prodZ dz <= MAX_ARRAY_LENGTH ->
      Matrix_new d None
      = Ok {| dim := d; data := zeros (Z.to_nat (prodZ dz)) |}) /\
     (MAX_ARRAY_LENGTH < prodZ dz -> Matrix_new d None = Err RangeError)) /\
  ((forall n, ~ valid_dims d n) -> Matrix_new d None = Err ValueError).
Proof.
  split.
  - intros dz Hne Hdz Hpos. unfold Matrix_new.
    destruct d as [|x d]; [contradiction|]. cbn [length Nat.leb].
    rewrite (Matrix_length_repr _ dz 1 Hdz Hpos), Z.mul_1_l. cbn [bind].
    unfold Array_new_fill. rewrite is_integer_int, lt_int, gt_int.
    pose proof (prodZ_pos dz Hpos).
    destruct (Z.ltb_spec (prodZ dz) 0); [lia|]. cbn [orb].
    split; intros Hmax.
    + destruct (Z.ltb_spec MAX_ARRAY_LENGTH (prodZ dz)); [lia|]. cbn [bind].
      unfold Array_fill, arr_length, zeros.
      rewrite length_upto_int, repeat_length, strict_ne_int.
      rewrite Z2Nat.id, Z.eqb_refl by lia. reflexivity.
    + destruct (Z.ltb_spec MAX_ARRAY_LENGTH (prodZ dz)); [|lia]. reflexivity.
  - intros Hn. unfold Matrix_new.
    destruct d as [|x d]; [reflexivity|]. cbn [length Nat.leb].
    destruct (Matrix_length (x :: d) (int 1)) as [len|e'] eqn:El; cbn [bind].
    + destruct (Matrix_length_inv _ _ _ El) as (dz & Hdz & Hpos).
      elim (Hn (Z.to_nat (prodZ dz))). split; [discriminate|].
      exists dz. split; [assumption|]. split; [assumption|].
      pose proof (prodZ_pos dz Hpos). lia.
    + now rewrite (Matrix_length_error _ _ _ El).
Qed.

Lemma Matrix_new_zero_filled_witness :
  Matrix_new [int 2; int 2] None
  = Ok {| dim := [int 2; int 2]; data := zeros 4 |} /\
  Matrix_new [int 65536; int 65536] None = Err RangeError.
Proof.
  split.
  - apply (proj1 (Matrix_new_zero_filled [int 2; int 2]) [2; 2]).
    + discriminate.
    + repeat constructor; apply repr_int.
    + repeat constructor.
    + vm_compute. discriminate.
  - apply (proj1 (Matrix_new_zero_filled [int 65536; int 65536])
                 [65536; 65536]).
    + discriminate.
    + repeat constructor; apply repr_int.
    + repeat constructor.
    + vm_compute. reflexivity.
Defined.

(* ================================================================== *)
(** ** Element access: offsets, errors, reads after writes *)
(* ================================================================== *)

Lemma is_integer_check (x : number) :
  strict_ne (js_rem x (int 1)) (int 0) = false <-> integral x.
Proof.
  split.
  - apply is_integer_inv.
  - intros [z Hz]. exact (is_integer_repr x z Hz).
Qed.

Lemma not_integral_check (x : number) :
  ~ integral x -> strict_ne (js_rem x (int 1)) (int 0) = true.
Proof.
  intros Hn. destruct (strict_ne _ _) eqn:E; [reflexivity|].
  elim Hn. now apply is_integer_check.
Qed.

Lemma getIndex_loop_out_of_range (zs dz : list Z) (acc : Z) :
  length zs = length dz -> ~ valid_index zs dz ->
  getIndex_loop (map int zs) (map int dz) (int acc) = Err RangeError.
Proof.
  revert dz acc. induction zs as [|z zs IH]; intros [|d dz] acc Hl Hn;
    simpl in Hl; try discriminate.
  - elim Hn. constructor.
  - cbn [map getIndex_loop].
    rewrite is_integer_int, neg_int, lt_int, ge_int.
    destruct (Z.ltb_spec z (- d)); [reflexivity|].
    destruct (Z.leb_spec d z); [reflexivity|].
    rewrite lt_int, of_bool_int, !mul_int, !add_int. apply IH; [lia|].
    intros Hv. apply Hn. constructor; [lia|exact Hv].
Qed.

(** [getIndex] on integer indices: the invalid-value error for a wrong
    number of indices, the range error when a component is outside
    [[-dim[j], dim[j])], and otherwise the row-major offset, which lies
    inside the buffer. *)
Theorem getIndex_spec (m : Matrix) (dz zs : list Z) :
  shaped m dz ->
  (length zs <> length dz -> getIndex m (map int zs) = Err ValueError) /\
  (length zs = length dz -> ~ valid_index zs dz ->
   getIndex m (map int zs) = Err RangeError) /\
  (valid_index zs dz ->
   getIndex m (map int zs) = Ok (int (flatZ zs dz)) /\
   0 <= flatZ zs dz < Z.of_nat (length (data m))).
Proof.
  intros (Hd & _ & _ & Hlen). split; [|split].
  - intros Hl. unfold getIndex. rewrite Hd, !length_map.
    destruct (Nat.eqb_spec (length zs) (length dz)); [contradiction|reflexivity].
  - intros Hl Hn. unfold getIndex. rewrite Hd, !length_map, Hl, Nat.eqb_refl.
    cbn [negb]. now apply getIndex_loop_out_of_range.
  - intros Hv. split; [now apply getIndex_int|].
    rewrite Hlen. now apply flatZ_bounds.
Qed.

Lemma getIndex_spec_witness :
  let m := {| dim := [int 2; int 3]; data := map int [0; 1; 2; 3; 4; 5] |} in
  getIndex m [int 1] = Err ValueError /\
  getIndex m [int 1; int 3] = Err RangeError /\
  getIndex m [int (-1); int 1] = Ok (int 4).
Proof.
  cbv zeta.
  assert (Hm : shaped {| dim := [int 2; int 3];
                         data := map int [0; 1; 2; 3; 4; 5] |} [2; 3]).
  { split; [reflexivity|]. split; [discriminate|].
    split; [repeat constructor|reflexivity]. }
  split; [|split].
  - apply (proj1 (getIndex_spec _ [2; 3] [1] Hm)). simpl. lia.
  - apply (proj1 (proj2 (getIndex_spec _ [2; 3] [1; 3] Hm))); [reflexivity|].
    intros Hv. inversion Hv as [|? ? ? ? _ Hv']; subst.
    inversion Hv' as [|? ? ? ? Hr _]; subst. lia.
  - assert (Hv : valid_index [-1; 1] [2; 3])
      by (repeat constructor; simpl; lia).
    exact (proj1 (proj2 (proj2 (getIndex_spec _ [2; 3] [-1; 1] Hm)) Hv)).
Defined.

(** In [getIndex] the integrality of a component is checked before its
    range: a component that is not an integer gives the invalid-value error
    even when it is out of range, as soon as the components before it are
    valid. *)
Theorem getIndex_not_integer (m : Matrix) (dz pre : list Z) (x : number)
  (post : list number) :
  shaped m dz ->
  length (map int pre ++ x :: post) = length dz ->
  valid_index pre (firstn (length pre) dz) ->
  ~ integral x ->
  getIndex m (map int pre ++ x :: post) = Err ValueError.
Proof.
  intros (Hd & _) Hl Hv Hx. unfold getIndex.
  rewrite Hd, length_map, Hl, Nat.eqb_refl. cbn [negb].
  rewrite length_app, length_map in Hl. cbn [length] in Hl.
  clear Hd. generalize 0 as acc. revert dz Hl Hv.
  induction pre as [|z pre IH]; intros [|d dz] Hl Hv acc; simpl in Hl; try lia.
  - cbn [map app getIndex_loop]. now rewrite not_integral_check.
  - cbn [length firstn] in Hv. inversion Hv as [|? ? ? ? Hz Hv']; subst.
    cbn [map app getIndex_loop].
    rewrite is_integer_int, neg_int, lt_int, ge_int.
    destruct (Z.ltb_spec z (- d)); [lia|]. destruct (Z.leb_spec d z); [lia|].
    rewrite lt_int, of_bool_int, !mul_int, !add_int. apply IH; [lia|assumption].
Qed.

Lemma not_integral_NaN : ~ integral NaN.
Proof. intros (z & q & H & _). discriminate H. Qed.

Lemma not_integral_half : ~ integral (Num (7 # 2)).
Proof.
  intros (z & q & H & Hq). injection H as <-.
  unfold Qeq, inject_Z in Hq. simpl in Hq. lia.
Qed.

Lemma getIndex_not_integer_witness :
  getIndex {| dim := [int 2; int 3]; data := map int [0; 1; 2; 3; 4; 5] |}
           [int 1; Num (7 # 2)] = Err ValueError.
Proof.
  apply (getIndex_not_integer _ [2; 3] [1] (Num (7 # 2)) []).
  - split; [reflexivity|]. split; [discriminate|].
    split; [repeat constructor|reflexivity].
  - reflexivity.
  - repeat constructor; simpl; lia.
  - exact not_integral_half.
Defined.

Lemma flatZ_injective (zs zs' dz : list Z) :
  valid_index zs dz -> valid_index zs' dz ->
  flatZ zs dz = flatZ zs' dz -> normalize zs dz = normalize zs' dz.
Proof.
  intros Hv Hv' E.
  rewrite <- (unflatZ_flatZ zs dz Hv), <- (unflatZ_flatZ zs' dz Hv').
  now rewrite E.
Qed.

(** Reading after writing: [set(value, idx)] on a valid multi-index
    succeeds and keeps the matrix well formed; [get(idx)] then returns
    [value], and [get] at every valid multi-index that names another
    element returns what it returned before. *)
Theorem set_then_get (m : Matrix) (dz zs : list Z) (value : number) :
  shaped m dz -> valid_index zs dz ->
  exists m',
    set value (map int zs) m = (m', Ok tt) /\
    shaped m' dz /\
    get m' (map int zs) = Ok value /\
    forall zs', valid_index zs' dz ->
                normalize zs' dz <> normalize zs dz ->
                get m' (map int zs') = get m (map int zs').
Proof.
  intros Hs Hv. pose proof Hs as (Hd & Hne & Hpos & Hlen).
  pose proof (flatZ_bounds zs dz Hv) as Hb.
  exists (set_data m (list_update (data m) (Z.to_nat (flatZ zs dz)) value)).
  split; [|split; [|split]].
  - unfold set. rewrite (getIndex_int m zs dz Hd Hv).
    now rewrite arr_set_int by lia.
  - split; [exact Hd|]. split; [exact Hne|]. split; [exact Hpos|].
    cbn [set_data data]. now rewrite length_list_update.
  - rewrite (get_int _ zs dz) by assumption. cbn [set_data data].
    f_equal. apply nth_list_update_eq. lia.
  - intros zs' Hv' Hneq.
    rewrite (get_int _ zs' dz), (get_int m zs' dz) by assumption.
    cbn [set_data data]. f_equal. apply nth_list_update_neq.
    intros E. apply Hneq. symmetry. apply flatZ_injective; try assumption.
    pose proof (flatZ_bounds zs' dz Hv'). lia.
Qed.

Lemma set_then_get_witness :
  let m := {| dim := [int 2; int 3]; data := map int [0; 1; 2; 3; 4; 5] |} in
  exists m', set (int 10) [int 1; int (-2)] m = (m', Ok tt) /\
             get m' [int 1; int (-2)] = Ok (int 10).
Proof.
  cbv zeta.
  destruct (set_then_get
              {| dim := [int 2; int 3]; data := map int [0; 1; 2; 3; 4; 5] |}
              [2; 3] [1; -2] (int 10)) as (m' & Hset & _ & Hget & _).
  - split; [reflexivity|]. split; [discriminate|].
    split; [repeat constructor|reflexivity].
  - repeat constructor; simpl; lia.
  - exists m'. split; [exact Hset|exact Hget].
Defined.

(** [getIndices] checks the range before the integrality: an offset that
    is negative or not below the buffer length gives the range error,
    integer or not; inside the range a non-integer (NaN included, which
    passes both comparisons) gives the invalid-value error; an integer
    offset inside the range gives its digits, one per axis and each inside
    its axis. *)
Theorem getIndices_spec (m : Matrix) (dz : list Z) :
  shaped m dz ->
  (forall x, lt x (int 0) = true \/ ge x (arr_length (data m)) = true ->
             getIndices m x = Err RangeError) /\
  (forall x, lt x (int 0) = false -> ge x (arr_length (data m)) = false ->
             ~ integral x -> getIndices m x = Err ValueError) /\
  getIndices m NaN = Err ValueError /\
  (forall f, 0 <= f < Z.of_nat (length (data m)) ->
     getIndices m (int f) = Ok (map int (unflatZ dz f)) /\
     Forall2 (fun z d => 0 <= z < d) (unflatZ dz f) dz).
Proof.
  intros Hs. pose proof Hs as (Hd & _ & Hpos & Hlen). repeat split.
  - intros x [H|H]; unfold getIndices; rewrite H; [reflexivity|].
    now rewrite orb_true_r.
  - intros x H1 H2 Hx. unfold getIndices. rewrite H1, H2. cbn [orb].
    now rewrite not_integral_check.
  - apply (getIndices_int m dz f Hs). lia.
  - apply unflatZ_valid; [assumption|lia].
Qed.

Lemma getIndices_spec_witness :
  let m := {| dim := [int 2; int 3]; data := map int [0; 1; 2; 3; 4; 5] |} in
  getIndices m (int 6) = Err RangeError /\
  getIndices m (Num (7 # 2)) = Err ValueError /\
  getIndices m (int 5) = Ok [int 1; int 2].
Proof.
  cbv zeta.
  assert (Hm : shaped {| dim := [int 2; int 3];
                         data := map int [0; 1; 2; 3; 4; 5] |} [2; 3]).
  { split; [reflexivity|]. split; [discriminate|].
    split; [repeat constructor|reflexivity]. }
  destruct (getIndices_spec _ _ Hm) as (H1 & H2 & _ & H4). split; [|split].
  - apply H1. right. reflexivity.
  - apply H2; [reflexivity|reflexivity|exact not_integral_half].
  - refine (proj1 (H4 5 _)). simpl. lia.
Defined.

(* ================================================================== *)
(** ** Identity, copies, transposition of square matrices *)
(* ================================================================== *)

Lemma to_nat_offset (i n j : Z) :
  0 <= i -> 0 <= n -> 0 <= j ->
  Z.to_nat (i * n + j) = (Z.to_nat i * Z.to_nat n + Z.to_nat j)%nat.
Proof.
  intros Hi Hn Hj.
  rewrite Z2Nat.inj_add by (try apply Z.mul_nonneg_nonneg; lia).
  now rewrite Z2Nat.inj_mul by lia.
Qed.

(** [Matrix.identity(n)], for an integer [n >= 1], is the [n] x [n] matrix
    whose element [(i, j)] is 1 on the diagonal and 0 elsewhere. *)
Theorem identity_spec (n : Z) :
  1 <= n ->
  exists m,
    identity (int n) = Ok m /\ shaped m [n; n] /\
    forall i j, 0 <= i < n -> 0 <= j < n ->
                get m [int i; int j] = Ok (int (if i =? j then 1 else 0)).
Proof.
  intros Hn. exists (identity_matrix n). split; [now apply identity_int|]. split.
  - apply (Matrix_new_shaped [n; n] (Some (identity_data (int n)))).
    apply (identity_int n Hn).
  - intros i j. now apply identity_entry.
Qed.

Lemma identity_spec_witness :
  exists m, identity (int 5) = Ok m /\
            get m [int 3; int 3] = Ok (int 1) /\
            get m [int 3; int 1] = Ok (int 0).
Proof.
  destruct (identity_spec 5 ltac:(lia)) as (m & Hm & _ & Hg).
  exists m. split; [exact Hm|]. split.
  - apply (Hg 3 3); lia.
  - apply (Hg 3 1); lia.
Defined.

Lemma transpose_twice_square_witness :
  let m := {| dim := [int 2; int 2]; data := map int [1; 2; 3; 4] |} in
  seq_ transpose transpose m = (m, Ok tt) /\
  (do t <- toTransposed m; toTransposed t) = Ok m.
Proof.
  cbv zeta. apply (transpose_twice_square _ 2).
  split; [reflexivity|]. split; [discriminate|].
  split; [repeat constructor|reflexivity].
Defined.

(** On a square matrix [transpose] swaps the two indices: afterwards
    [get(i, j)] returns what [get(j, i)] returned before, and the matrix is
    still well formed. *)
Theorem transpose_square_get (m : Matrix) (n i j : Z) :
  shaped m [n; n] -> 0 <= i < n -> 0 <= j < n ->
  exists m',
    transpose m = (m', Ok tt) /\ shaped m' [n; n] /\
    get m' [int i; int j] = get m [int j; int i].
Proof.
  intros Hs Hi Hj. pose proof Hs as (Hd & Hne & Hpos & Hlen).
  cbn [prodZ fold_right] in Hlen.
  exists (set_data m (transposed n n (data m))).
  split; [now apply transpose_shaped|].
  assert (Hs' : shaped (set_data m (transposed n n (data m))) [n; n]).
  { split; [exact Hd|]. split; [exact Hne|]. split; [exact Hpos|].
    cbn [set_data data prodZ fold_right].
    rewrite length_transposed, Nat2Z.inj_mul, !Z2Nat.id by lia. lia. }
  split; [exact Hs'|].
  rewrite (get_2D _ n n i j) by (assumption || apply Hs').
  rewrite (get_2D m n n j i) by assumption. f_equal. cbn [set_data data].
  rewrite (to_nat_offset i n j), (to_nat_offset j n i) by lia.
  now rewrite nth_transposed by lia.
Qed.

Lemma transpose_square_get_witness :
  exists m',
    transpose {| dim := [int 2; int 2]; data := map int [1; 2; 3; 4] |}
    = (m', Ok tt) /\
    get m' [int 0; int 1] = Ok (int 3).
Proof.
  destruct (transpose_square_get
              {| dim := [int 2; int 2]; data := map int [1; 2; 3; 4] |}
              2 0 1) as (m' & Ht & _ & Hg); try lia.
  - split; [reflexivity|]. split; [discriminate|].
    split; [repeat constructor|reflexivity].
  - exists m'. split; [exact Ht|]. rewrite Hg. vm_compute. reflexivity.
Defined.

(** [transpose] never touches the dimensions: on an [r] x [c] matrix it
    succeeds, the shape stays [[r, c]], and position [x * r + y] of the
    buffer receives element [(y, x)]. *)
Theorem transpose_keeps_dim (m : Matrix) (r c : Z) :
  shaped m [r; c] ->
  exists m',
    transpose m = (m', Ok tt) /\
    dim m' = dim m /\ shaped m' [r; c] /\
    forall x y, 0 <= x < c -> 0 <= y < r ->
                Ok (nth (Z.to_nat (x * r + y)) (data m') NaN)
                = get m [int y; int x].
Proof.
  intros Hs. pose proof Hs as (Hd & Hne & Hpos & Hlen).
  cbn [prodZ fold_right] in Hlen.
  exists (set_data m (transposed r c (data m))).
  split; [now apply transpose_shaped|]. split; [reflexivity|]. split.
  - split; [exact Hd|]. split; [exact Hne|]. split; [exact Hpos|].
    assert (Hr : 0 < r) by (inversion Hpos; assumption).
    assert (Hc : 0 < c)
      by (inversion Hpos as [|? ? _ H]; inversion H; assumption).
    cbn [set_data data prodZ fold_right].
    rewrite length_transposed, Nat2Z.inj_mul, !Z2Nat.id by lia. lia.
  - intros x y Hx Hy. rewrite (get_2D m r c y x) by assumption.
    f_equal. cbn [set_data data].
    rewrite (to_nat_offset x r y), (to_nat_offset y c x) by lia.
    now rewrite nth_transposed by lia.
Qed.

Lemma transpose_keeps_dim_witness :
  exists m',
    transpose {| dim := [int 2; int 3]; data := map int [0; 1; 2; 3; 4; 5] |}
    = (m', Ok tt) /\
    dim m' = [int 2; int 3].
Proof.
  destruct (transpose_keeps_dim
              {| dim := [int 2; int 3]; data := map int [0; 1; 2; 3; 4; 5] |}
              2 3) as (m' & Ht & Hd & _).
  - split; [reflexivity|]. split; [discriminate|].
    split; [repeat constructor|reflexivity].
  - exists m'. split; [exact Ht|exact Hd].
Defined.

Lemma shaped_2D_dims (m : Matrix) (r c : Z) :
  shaped m [r; c] ->
  dim m = [int r; int c] /\ 0 < r /\ Z.of_nat (length (data m)) = r * c.
Proof.
  intros (Hd & _ & Hpos & Hlen). cbn [prodZ fold_right] in Hlen.
  split; [exact Hd|]. split; [inversion Hpos; assumption|lia].
Qed.

Lemma Vec_size_shaped (v : Matrix) (n : Z) :
  shaped v [n; 1] -> Vec.size v = int n.
Proof.
  intros (Hd & _). unfold Vec.size. now rewrite Hd.
Qed.

Lemma copy_wf (m : Matrix) : wf m -> copy m = Ok m.
Proof.
  intros [dz (Hd & Hne & Hpos & Hlen)]. unfold copy. rewrite Hd.
  rewrite Matrix_new_int by assumption. rewrite <- Hd. now destruct m.
Qed.

(** [copy] of a well-formed matrix succeeds and returns an equal matrix; so
    does the [copy] of a vector, which casts the copy back to the vector's
    size; [toFilled] returns the matrix of the same shape with the value
    everywhere. *)
Theorem copy_equal (m : Matrix) :
  wf m ->
  copy m = Ok m /\
  (forall n, shaped m [n; 1] -> Vec.copy m = Ok m) /\
  (forall value,
     toFilled m value
     = Ok {| dim := dim m; data := repeat value (length (data m)) |}).
Proof.
  intros Hwf. pose proof (copy_wf m Hwf) as Hc.
  split; [exact Hc|]. split.
  - intros n Hs. unfold Vec.copy. rewrite Hc. cbn [bind].
    destruct (shaped_2D_dims m n 1 Hs) as (Hd & Hn & Hlen).
    unfold Vec.toVec'. rewrite (Vec_size_shaped m n Hs).
    rewrite (toVec_shaped m n n) by (assumption || lia).
    rewrite Z.min_id, Z.sub_diag. cbn [Z.to_nat repeat].
    rewrite app_nil_r, firstn_all2 by lia. rewrite <- Hd. now destruct m.
  - intros value. unfold toFilled. rewrite Hc. cbn [bind].
    unfold fill, set_data. cbn [fst].
    assert (E : forall l : list number,
              map (fun _ => value) l = repeat value (length l)).
    { induction l as [|x l IH]; [reflexivity|].
      cbn [map length repeat]. now rewrite IH. }
    now rewrite E.
Qed.

Lemma copy_equal_witness :
  copy {| dim := [int 2; int 3]; data := map int [0; 1; 2; 3; 4; 5] |}
  = Ok {| dim := [int 2; int 3]; data := map int [0; 1; 2; 3; 4; 5] |}.
Proof.
  apply copy_equal. exists [2; 3].
  split; [reflexivity|]. split; [discriminate|].
  split; [repeat constructor|reflexivity].
Defined.

Lemma slice_not_ascending_fails_witness :
  exists e,
    slice {| dim := [int 2; int 3]; data := map int [0; 1; 2; 3; 4; 5] |}
          [Single (int 0); Triple (int 2) (int 0) (int (-1))] = Err e.
Proof.
  apply (slice_not_ascending_fails _ [2; 3] _ 1 2 0 (Some (-1))).
  - split; [reflexivity|]. split; [discriminate|].
    split; [repeat constructor|reflexivity].
  - simpl. lia.
  - reflexivity.
  - vm_compute. discriminate.
Defined.
(* ================================================================== *)
(** ** The scalar helpers *)
(* ================================================================== *)

(** [mod(a, b)] on integers, [b] positive: the remainder of the floored
    division, which lies in [[0, b)] whatever the sign of [a] (where [a % b]
    has the sign of [a]) and differs from [a] by a multiple of [b].  The
    integers are taken where [a], and the intermediate sum [(a % b) + b],
    are held exactly.  With a NaN argument or the modulus zero the result
    is NaN. *)
Theorem mod_range :
  (forall a b : Z,
     safe_integer a -> 0 < b -> safe_integer (2 * b) ->
     mod_ (int a) (int b) = int (a mod b) /\
     0 <= a mod b < b /\ (b | a - a mod b) /\
     (a < 0 -> ~ (b | a) ->
      exists r, js_rem (int a) (int b) = int r /\ r < 0 /\ a mod b = r + b)) /\
  (forall a b, a = NaN \/ b = NaN \/ b = int 0 -> mod_ a b = NaN).
Proof.
  split.
  - intros a b _ Hb _. split; [now apply mod_int|].
    pose proof (Z.mod_pos_bound a b Hb) as Hm. split; [exact Hm|].
    split.
    + exists (a / b). pose proof (Z.div_mod a b ltac:(lia)). lia.
    + intros Ha Hnd. exists (Z.rem a b).
      split; [apply js_rem_int; lia|].
      pose proof (Z.rem_bound_pos_neg a b Hb (Z.lt_le_incl _ _ Ha)) as Hr.
      assert (Hr0 : Z.rem a b <> 0).
      { intros H0. apply Hnd. apply Z.rem_divide; [lia|exact H0]. }
      split; [lia|].
      pose proof (Z.quot_rem a b ltac:(lia)) as Hq.
      symmetry. apply (Z.mod_unique a b (Z.quot a b - 1)); lia.
  - intros a b [ -> | [ -> | -> ] ]; unfold mod_, js_rem, add, lift2;
      try destruct a; try destruct b; reflexivity.
Qed.

Lemma mod_range_witness :
  mod_ (int (-10)) (int 3) = int 2 /\
  exists r, js_rem (int (-10)) (int 3) = int r /\ r < 0.
Proof.
  destruct (proj1 mod_range (-10) 3) as (E & _ & _ & Hneg).
  - unfold safe_integer, MAX_SAFE_INTEGER. lia.
  - lia.
  - unfold safe_integer, MAX_SAFE_INTEGER. lia.
  - split; [exact E|].
    destruct Hneg as (r & Er & Hr & _).
    + lia.
    + intros (q & Hq). lia.
    + exists r. split; [exact Er|exact Hr].
Defined.

(** [angleDiffDegs(src, dst)] on whole degrees: the result is the whole
    number of degrees in [(-180, 180]] that differs from [dst - src] by a
    whole number of turns. *)
Theorem angleDiffDegs_range (src dst : Z) :
  safe_integer src -> safe_integer dst ->
  exists d,
    angleDiffDegs (int src) (int dst) = int d /\
    -180 < d <= 180 /\ (360 | dst - src - d) /\
    clampAngleDegs (int src) = int (src mod 360) /\
    0 <= src mod 360 < 360.
Proof.
  intros _ _. unfold angleDiffDegs, clampAngleDegs. cbv zeta.
  rewrite !mod_int, sub_int, mod_int, gt_int by lia.
  set (s := src mod 360). set (t := dst mod 360). set (m := (t - s) mod 360).
  pose proof (Z.mod_pos_bound src 360 ltac:(lia)) as Hs.
  pose proof (Z.mod_pos_bound dst 360 ltac:(lia)) as Ht.
  pose proof (Z.mod_pos_bound (t - s) 360 ltac:(lia)) as Hm.
  pose proof (Z.div_mod src 360 ltac:(lia)) as Es.
  pose proof (Z.div_mod dst 360 ltac:(lia)) as Et.
  pose proof (Z.div_mod (t - s) 360 ltac:(lia)) as Em.
  fold s in Hs, Es. fold t in Ht, Et. fold m in Hm, Em.
  destruct (Z.ltb_spec 180 m).
  - rewrite sub_int. exists (m - 360). split; [reflexivity|].
    split; [lia|]. split; [|split; [reflexivity|exact Hs]].
    exists (dst / 360 - src / 360 + (t - s) / 360 + 1). lia.
  - exists m. split; [reflexivity|].
    split; [lia|]. split; [|split; [reflexivity|exact Hs]].
    exists (dst / 360 - src / 360 + (t - s) / 360). lia.
Qed.

Lemma angleDiffDegs_range_witness :
  angleDiffDegs (int 10) (int 350) = int (-20).
Proof.
  destruct (angleDiffDegs_range 10 350) as (d & E & Hd & (q & Hq) & _).
  - unfold safe_integer, MAX_SAFE_INTEGER. lia.
  - unfold safe_integer, MAX_SAFE_INTEGER. lia.
  - rewrite E. f_equal. lia.
Defined.

(** [clamp(value, min, max)] works whichever way round the bounds are
    given: with [lo] the smaller and [hi] the larger, the result is [value]
    when it lies in [[lo, hi]], [lo] when it is below and [hi] when it is
    above; it always lies in [[lo, hi]]. *)
Theorem clamp_spec (v a b lo hi : Q) :
  ((a <= b)%Q /\ lo = a /\ hi = b) \/ ((b < a)%Q /\ lo = b /\ hi = a) ->
  exists r,
    clamp (Num v) (Num a) (Num b) = Num r /\
    (lo <= r)%Q /\ (r <= hi)%Q /\
    ((lo <= v)%Q -> (v <= hi)%Q -> (r == v)%Q) /\
    ((v < lo)%Q -> (r == lo)%Q) /\
    ((hi < v)%Q -> (r == hi)%Q).
Proof.
  intros Hb.
  assert (Hswap : gt (Num a) (Num b) = true <-> (b < a)%Q).
  { unfold gt, lt. rewrite negb_true_iff. split.
    - intros E. apply Qnot_le_lt. intros H. apply Qle_bool_iff in H. congruence.
    - intros H. destruct (Qle_bool a b) eqn:E; [|reflexivity].
      apply Qle_bool_iff in E. lra. }
  assert (Hlo : (lo <= hi)%Q) by (destruct Hb as [(? & -> & ->)|(? & -> & ->)]; lra).
  assert (E : clamp (Num v) (Num a) (Num b)
              = clampMax (clampMin (Num v) (Num lo)) (Num hi)).
  { unfold clamp. destruct Hb as [(H & -> & ->)|(H & -> & ->)].
    - destruct (gt (Num a) (Num b)) eqn:G; [|reflexivity].
      pose proof (proj1 Hswap eq_refl). lra.
    - now rewrite (proj2 Hswap H). }
  rewrite E. unfold clampMax, clampMin, Math_max.
  destruct (Qle_bool v lo) eqn:E1.
  - apply Qle_bool_iff in E1. unfold Math_min.
    rewrite (proj2 (Qle_bool_iff lo hi) Hlo). exists lo.
    split; [reflexivity|]. split; [lra|]. split; [lra|]. split; [|split].
    + intros H1 H2. lra.
    + reflexivity.
    + intros H. lra.
  - assert (H1 : (lo < v)%Q).
    { apply Qnot_le_lt. intros H. apply Qle_bool_iff in H. congruence. }
    unfold Math_min. destruct (Qle_bool v hi) eqn:E2.
    + apply Qle_bool_iff in E2. exists v.
      split; [reflexivity|]. split; [lra|]. split; [lra|].
      split; [reflexivity|]. split; intros; lra.
    + assert (H2 : (hi < v)%Q).
      { apply Qnot_le_lt. intros H. apply Qle_bool_iff in H. congruence. }
      exists hi. split; [reflexivity|]. split; [lra|]. split; [lra|].
      split; [intros; lra|]. split; [intros; lra|reflexivity].
Qed.

Lemma clamp_spec_witness :
  exists r,
    clamp (Num (-100 # 1)) (Num (10 # 1)) (Num (5 # 1)) = Num r /\
    (5 # 1 <= r)%Q /\ (r <= 10 # 1)%Q /\
    ((-100 # 1 < 5 # 1)%Q -> (r == 5 # 1)%Q).
Proof.
  destruct (clamp_spec (-100 # 1) (10 # 1) (5 # 1) (5 # 1) (10 # 1))
    as (r & H1 & H2 & H3 & _ & H5 & _).
  - right. split; [reflexivity|]. split; reflexivity.
  - exists r. auto.
Defined.

(* ================================================================== *)
(** ** The matrix product *)
(* ================================================================== *)

Lemma shaped_2D (m : Matrix) (r c : Z) :
  shaped m [r; c] ->
  dim m = [int r; int c] /\ 0 < r /\ 0 < c /\
  Z.of_nat (length (data m)) = r * c.
Proof.
  intros (Hd & _ & Hpos & Hlen). cbn [prodZ fold_right] in Hlen.
  split; [exact Hd|].
  split; [inversion Hpos; assumption|].
  split; [inversion Hpos as [|? ? _ H]; inversion H; assumption|lia].
Qed.

Lemma get_2D_nat (m : Matrix) (r c : Z) (i j : nat) :
  shaped m [r; c] -> (i < Z.to_nat r)%nat -> (j < Z.to_nat c)%nat ->
  get m [int (Z.of_nat i); int (Z.of_nat j)]
  = Ok (nth (i * Z.to_nat c + j) (data m) NaN).
Proof.
  intros Hs Hi Hj. destruct (shaped_2D m r c Hs) as (Hd & Hr & Hc & _).
  rewrite (get_2D m r c) by (assumption || lia).
  rewrite to_nat_offset by lia. now rewrite !Nat2Z.id.
Qed.

Lemma postMul_entry_loop (a b : Matrix) (r k c : Z) (row col : nat)
  (idx : list nat) (v : number) :
  shaped a [r; k] -> shaped b [k; c] ->
  (row < Z.to_nat r)%nat -> (col < Z.to_nat c)%nat ->
  Forall (fun i => (i < Z.to_nat k)%nat) idx ->
  foldM (fun value i =>
           do x <- get a [int (Z.of_nat row); i];
           do y <- get b [i; int (Z.of_nat col)];
           Ok (add value (mul x y)))
        (map (fun i => int (Z.of_nat i)) idx) v
  = Ok (fold_left (fun value i =>
                     add value (mul (nth (row * Z.to_nat k + i) (data a) NaN)
                                    (nth (i * Z.to_nat c + col) (data b) NaN)))
                  idx v).
Proof.
  intros Ha Hb Hrow Hcol H. revert v.
  induction H as [|i idx Hi _ IH]; intros v; [reflexivity|].
  cbn [map foldM fold_left].
  rewrite (get_2D_nat a r k), (get_2D_nat b k c) by assumption.
  cbn [bind]. apply IH.
Qed.

(** [postMul] on an [r] x [k] and a [k] x [c] matrix returns the
    well-formed [r] x [c] matrix whose element [(i, j)] is the sum over [l]
    of [this[i, l] * mat[l, j]], accumulated from 0 in the order of [l]. *)
Theorem postMul_shaped (a b : Matrix) (r k c : Z) :
  shaped a [r; k] -> shaped b [k; c] ->
  exists m,
    postMul a b = Ok m /\ shaped m [r; c] /\
    data m = product_data (data a) (data b)
                          (Z.to_nat r) (Z.to_nat k) (Z.to_nat c) /\
    forall i j, (i < Z.to_nat r)%nat -> (j < Z.to_nat c)%nat ->
      get m [int (Z.of_nat i); int (Z.of_nat j)]
      = Ok (product_entry (data a) (data b) (Z.to_nat k) (Z.to_nat c) i j).
Proof.
  intros Ha Hb.
  destruct (shaped_2D a r k Ha) as (Hda & Hr & Hk & Hla).
  destruct (shaped_2D b k c Hb) as (Hdb & _ & Hc & Hlb).
  set (P := product_data (data a) (data b)
                         (Z.to_nat r) (Z.to_nat k) (Z.to_nat c)).
  assert (HlP : length P = (Z.to_nat r * Z.to_nat c)%nat).
  { unfold P, product_data.
    rewrite (length_flat_map_uniform _ _ (Z.to_nat c))
      by (intros; now rewrite length_map, length_seq).
    now rewrite length_seq. }
  assert (Hpost : postMul a b = Ok {| dim := [int r; int c]; data := P |}).
  { unfold postMul, is2D. rewrite Hda, Hdb. cbn [length Nat.eqb negb].
    rewrite !arr_get_int by lia.
    change (Z.to_nat 0) with 0%nat. change (Z.to_nat 1) with 1%nat. cbn [nth].
    rewrite strict_ne_int, Z.eqb_refl. cbn [negb].
    rewrite !upto_int, mapM_map.
    rewrite (mapM_Ok _ (fun row =>
               map (fun col => product_entry (data a) (data b) (Z.to_nat k)
                                 (Z.to_nat c) row col)
                   (seq 0 (Z.to_nat c)))).
    - cbn [bind].
      replace (concat _) with P
        by (unfold P, product_data; now rewrite flat_map_concat_map).
      change [int r; int c] with (map int [r; c]). apply Matrix_new_int.
      + discriminate.
      + repeat constructor; lia.
      + rewrite HlP. cbn [prodZ fold_right]. lia.
    - intros row Hrow. apply in_seq in Hrow.
      rewrite mapM_map. apply mapM_Ok. intros col Hcol. apply in_seq in Hcol.
      rewrite (postMul_entry_loop a b r k c row col) by
        (try assumption; try lia; apply Forall_forall; intros i Hi;
         apply in_seq in Hi; lia).
      reflexivity. }
  eexists. split; [exact Hpost|].
  assert (Hs : shaped {| dim := [int r; int c]; data := P |} [r; c]).
  { split; [reflexivity|]. split; [discriminate|].
    split; [repeat constructor; lia|]. cbn [data prodZ fold_right]. lia. }
  split; [exact Hs|]. split; [reflexivity|].
  intros i j Hi Hj. rewrite (get_2D_nat _ r c) by assumption. f_equal.
  cbn [data]. unfold P, product_data.
  rewrite (nth_flat_map_uniform _ _ (Z.to_nat c) _ _ 0%nat)
    by (try (intros; now rewrite length_map, length_seq);
        try rewrite length_seq; lia).
  rewrite (nth_map_inside _ _ _ NaN 0%nat) by (rewrite length_seq; lia).
  now rewrite !seq_nth by lia.
Qed.

Lemma postMul_shaped_witness :
  exists m,
    postMul {| dim := [int 1; int 2]; data := [int 5; int 2] |}
            {| dim := [int 2; int 1]; data := [int 9; int 8] |} = Ok m /\
    get m [int 0; int 0] = Ok (int 61).
Proof.
  destruct (postMul_shaped
              {| dim := [int 1; int 2]; data := [int 5; int 2] |}
              {| dim := [int 2; int 1]; data := [int 9; int 8] |} 1 2 1)
    as (m & Hm & _ & _ & Hg).
  - split; [reflexivity|]. split; [discriminate|].
    split; [repeat constructor|reflexivity].
  - split; [reflexivity|]. split; [discriminate|].
    split; [repeat constructor|reflexivity].
  - exists m. split; [exact Hm|].
    change (get m [int 0; int 0])
      with (get m [int (Z.of_nat 0); int (Z.of_nat 0)]).
    rewrite (Hg 0%nat 0%nat) by (simpl; lia). vm_compute. reflexivity.
Defined.

(** [postMul] refuses its operands with the structural error when one of
    them is not 2D or when the inner dimensions differ. *)
Theorem postMul_mismatch (a b : Matrix) :
  (is2D a = false \/ is2D b = false -> postMul a b = Err TypeError) /\
  (forall r k k' c, shaped a [r; k] -> shaped b [k'; c] -> k <> k' ->
                    postMul a b = Err TypeError /\ preMul b a = Err TypeError).
Proof.
  split.
  - intros [H|H]; unfold postMul; rewrite H; [reflexivity|].
    now destruct (is2D a).
  - intros r k k' c Ha Hb Hne.
    destruct (shaped_2D a r k Ha) as (Hda & Hr & Hk & _).
    destruct (shaped_2D b k' c Hb) as (Hdb & Hk' & Hc & _).
    assert (E : postMul a b = Err TypeError).
    { unfold postMul, is2D. rewrite Hda, Hdb. cbn [length Nat.eqb negb].
      rewrite !arr_get_int by lia.
      change (Z.to_nat 0) with 0%nat. change (Z.to_nat 1) with 1%nat. cbn [nth].
      rewrite strict_ne_int. destruct (Z.eqb_spec k k'); [contradiction|].
      reflexivity. }
    split; [exact E|exact E].
Qed.

Lemma postMul_mismatch_witness :
  postMul {| dim := [int 1; int 2]; data := [int 5; int 2] |}
          {| dim := [int 1; int 2]; data := [int 9; int 8] |} = Err TypeError.
Proof.
  refine (proj1 (proj2 (postMul_mismatch _ _) 1 2 1 2 _ _ _)).
  - split; [reflexivity|]. split; [discriminate|].
    split; [repeat constructor|reflexivity].
  - split; [reflexivity|]. split; [discriminate|].
    split; [repeat constructor|reflexivity].
  - lia.
Defined.
(* ================================================================== *)
(** ** The determinant of small matrices *)
(* ================================================================== *)

Lemma get_square (n : Z) (d : list number) (i j : Z) :
  0 <= i < n -> 0 <= j < n ->
  get {| dim := [int n; int n]; data := d |} [int i; int j]
  = Ok (nth (Z.to_nat (i * n + j)) d NaN).
Proof. intros. now rewrite (get_2D _ n n) by (reflexivity || assumption). Qed.

(** The two diagonal products of [det] for one starting column of a
    3 x 3 matrix. *)
Lemma det_diagonals_3x3 (d : list number) (c : Z) :
  0 <= c < 3 ->
  det_diagonals {| dim := [int 3; int 3]; data := d |} (int 3) (int c)
  = Ok (mul (mul (mul (int 1) (nth (Z.to_nat (c mod 3)) d NaN))
                 (nth (Z.to_nat (3 + (c + 1) mod 3)) d NaN))
            (nth (Z.to_nat (6 + (c + 2) mod 3)) d NaN),
        mul (mul (mul (int 1) (nth (Z.to_nat (c mod 3)) d NaN))
                 (nth (Z.to_nat (3 + (c - 1) mod 3)) d NaN))
            (nth (Z.to_nat (6 + (c - 2) mod 3)) d NaN)).
Proof.
  intros Hc. unfold det_diagonals. rewrite upto_rangeZ.
  change (rangeZ 3) with [0; 1; 2]. cbn [map foldM].
  rewrite !add_int, !sub_int, !mod_int by lia.
  rewrite !get_square by (split; try lia; apply Z.mod_pos_bound; lia).
  cbn [bind fst snd]. rewrite Z.add_0_r, Z.sub_0_r. reflexivity.
Qed.


(* ================================================================== *)
(** ** The coordinates of a vector *)
(* ================================================================== *)

Lemma shaped_set_data (m : Matrix) (dz : list Z) (d : list number) :
  shaped m dz -> length d = length (data m) -> shaped (set_data m d) dz.
Proof.
  intros (Hd & Hne & Hpos & Hlen) Hl. unfold set_data.
  split; [exact Hd|]. split; [exact Hne|]. split; [exact Hpos|].
  cbn [data]. now rewrite Hl.
Qed.

Lemma size_shaped (v : Matrix) (n : Z) : shaped v [n; 1] -> Vec.size v = int n.
Proof.
  intros Hs. destruct (shaped_2D v n 1 Hs) as (Hd & _). unfold Vec.size.
  rewrite Hd. reflexivity.
Qed.

(** The named coordinates of a vector with [n] components: setting the
    [k]-th one (1 for [x], ... 4 for [w]) when it exists makes its getter
    return the value set and leaves the other coordinates alone; when it
    does not exist the getter returns NaN and the setter does nothing. *)
Theorem axis_set_then_get (v : Matrix) (n k : Z) (value : number) :
  shaped v [n; 1] -> In k [1; 2; 3; 4] ->
  (k <= n ->
   exists v', Vec.axis_set k value v = (v', Ok tt) /\
              shaped v' [n; 1] /\
              Vec.axis_get k v' = value /\
              forall k', In k' [1; 2; 3; 4] -> k' <> k ->
                         Vec.axis_get k' v' = Vec.axis_get k' v) /\
  (n < k ->
   Vec.axis_get k v = NaN /\ Vec.axis_set k value v = (v, Ok tt)).
Proof.
  intros Hs Hk.
  assert (Hk' : 1 <= k <= 4) by (simpl in Hk; lia).
  destruct (shaped_2D v n 1 Hs) as (Hd & Hn & _ & Hlen).
  pose proof (size_shaped v n Hs) as Hsz.
  split.
  - intros Hle. unfold Vec.axis_set. rewrite Hsz, lt_int.
    destruct (Z.ltb_spec n k); [lia|].
    eexists. split; [reflexivity|].
    rewrite arr_set_int by lia.
    assert (Hs' : shaped (set_data v (list_update (data v) (Z.to_nat (k - 1)) value))
                         [n; 1])
      by (apply shaped_set_data; [assumption|apply length_list_update]).
    split; [exact Hs'|].
    split.
    + unfold Vec.axis_get. rewrite (size_shaped _ n Hs'), lt_int.
      destruct (Z.ltb_spec n k); [lia|].
      rewrite arr_get_int by lia. cbn [set_data data].
      apply nth_list_update_eq. lia.
    + intros k' Hin Hne.
      assert (1 <= k' <= 4) by (simpl in Hin; lia).
      unfold Vec.axis_get. rewrite (size_shaped _ n Hs'), Hsz.
      destruct (lt (int n) (int k')); [reflexivity|].
      rewrite !arr_get_int by lia. cbn [set_data data].
      apply nth_list_update_neq. lia.
  - intros Hlt. unfold Vec.axis_get, Vec.axis_set. rewrite Hsz, lt_int.
    destruct (Z.ltb_spec n k); [|lia]. split; reflexivity.
Qed.

Lemma axis_set_then_get_witness :
  let v := {| dim := [int 2; int 1]; data := [int 5; int 8] |} in
  (exists v', Vec.set_y (int 7) v = (v', Ok tt) /\ Vec.y v' = int 7 /\
              Vec.x v' = int 5) /\
  Vec.z v = NaN /\ Vec.set_z (int 7) v = (v, Ok tt).
Proof.
  intros v.
  assert (Hs : shaped v [2; 1]).
  { split; [reflexivity|]. split; [discriminate|].
    split; [repeat constructor|reflexivity]. }
  split.
  - destruct (proj1 (axis_set_then_get v 2 2 (int 7) Hs
                       (or_intror (or_introl eq_refl))))
      as (v' & H1 & _ & H2 & H3); [lia|].
    exists v'. split; [exact H1|]. split; [exact H2|].
    apply (H3 1); [now left|lia].
  - apply (proj2 (axis_set_then_get v 2 3 (int 7) Hs
                    (or_intror (or_intror (or_introl eq_refl))))). lia.
Defined.

(** [getAxis] checks the range before integrality; in range it returns the
    component, which for the first four is the named coordinate. *)
Theorem getAxis_spec (v : Matrix) (n : Z) :
  shaped v [n; 1] ->
  (forall i, lt i (int 0) = true \/ ge i (int n) = true ->
             Vec.getAxis v i = Err RangeError) /\
  (forall i, lt i (int 0) = false -> ge i (int n) = false -> ~ integral i ->
             Vec.getAxis v i = Err ValueError) /\
  Vec.getAxis v NaN = Err ValueError /\
  (forall i, 0 <= i < n ->
             Vec.getAxis v (int i) = Ok (nth (Z.to_nat i) (data v) NaN)) /\
  (forall k, In k [1; 2; 3; 4] -> k <= n ->
             Vec.getAxis v (int (k - 1)) = Ok (Vec.axis_get k v)).
Proof.
  intros Hs. pose proof (size_shaped v n Hs) as Hsz.
  split; [|split; [|split; [|split]]].
  - intros i H. unfold Vec.getAxis. rewrite Hsz.
    destruct H as [-> | ->]; [reflexivity|]. now rewrite orb_true_r.
  - intros i H1 H2 Hni. unfold Vec.getAxis. rewrite Hsz, H1, H2.
    cbn [orb]. now rewrite (not_integral_check i Hni).
  - unfold Vec.getAxis. rewrite Hsz. reflexivity.
  - intros i Hi. now apply (getAxis_int v n).
  - intros k Hin Hle. assert (1 <= k <= 4) by (simpl in Hin; lia).
    rewrite (getAxis_int v n) by (assumption || lia).
    unfold Vec.axis_get. rewrite Hsz, lt_int.
    destruct (Z.ltb_spec n k); [lia|]. now rewrite arr_get_int by lia.
Qed.

Lemma getAxis_spec_witness :
  let v := {| dim := [int 2; int 1]; data := [int 5; int 8] |} in
  Vec.getAxis v (int 2) = Err RangeError /\
  Vec.getAxis v (Num (1 # 2)) = Err ValueError /\
  Vec.getAxis v (int 1) = Ok (int 8).
Proof.
  intros v.
  assert (Hs : shaped v [2; 1]).
  { split; [reflexivity|]. split; [discriminate|].
    split; [repeat constructor|reflexivity]. }
  destruct (getAxis_spec v 2 Hs) as (H1 & H2 & _ & H4 & _).
  split; [apply H1; right; reflexivity|].
  split; [apply H2; try reflexivity|apply (H4 1); lia].
  intros (z & q & H & Hq). injection H as <-.
  unfold Qeq, inject_Z in Hq. simpl in Hq. lia.
Defined.

(* ================================================================== *)
(** ** The cross product and the transform matrix *)
(* ================================================================== *)

Lemma cross_data (a1 a2 a3 b1 b2 b3 : number) :
  cross {| dim := [int 3; int 1]; data := [a1; a2; a3] |}
        {| dim := [int 3; int 1]; data := [b1; b2; b3] |}
  = Ok {| dim := [int 3; int 1];
          data := [add (add (add (int 0) (mul (int 0) b1)) (mul (neg a3) b2))
                       (mul a2 b3);
                   add (add (add (int 0) (mul a3 b1)) (mul (int 0) b2))
                       (mul (neg a1) b3);
                   add (add (add (int 0) (mul (neg a2) b1)) (mul a1 b2))
                       (mul (int 0) b3)] |}.
Proof. vm_compute. reflexivity. Qed.

Lemma cross_data_2 (a1 a2 b1 b2 : number) :
  cross {| dim := [int 2; int 1]; data := [a1; a2] |}
        {| dim := [int 2; int 1]; data := [b1; b2] |}
  = Ok {| dim := [int 3; int 1];
          data := [add (add (add (int 0) (mul (int 0) b1)) (mul (neg (int 0)) b2))
                       (mul a2 (int 0));
                   add (add (add (int 0) (mul (int 0) b1)) (mul (int 0) b2))
                       (mul (neg a1) (int 0));
                   add (add (add (int 0) (mul (neg a2) b1)) (mul a1 b2))
                       (mul (int 0) (int 0))] |}.
Proof. vm_compute. reflexivity. Qed.

(** The cross product.  On two 3-vectors, whatever their components, each
    component of the result is the sum the matrix product makes of it,
    starting from 0 and taking the row of the cross matrix from left to
    right.  On integers small enough for these products and sums to be
    exact this is the textbook formula; two 2-vectors are padded with a
    zero first, so that only the third component can be other than zero.
    An operand that is not a vector is refused. *)
Theorem cross_formula :
  (forall a1 a2 a3 b1 b2 b3 : number,
     cross {| dim := [int 3; int 1]; data := [a1; a2; a3] |}
           {| dim := [int 3; int 1]; data := [b1; b2; b3] |}
     = Ok {| dim := [int 3; int 1];
             data := [add (add (add (int 0) (mul (int 0) b1)) (mul (neg a3) b2))
                          (mul a2 b3);
                      add (add (add (int 0) (mul a3 b1)) (mul (int 0) b2))
                          (mul (neg a1) b3);
                      add (add (add (int 0) (mul (neg a2) b1)) (mul a1 b2))
                          (mul (int 0) b3)] |}) /\
  (forall a1 a2 a3 b1 b2 b3 : Z,
     Forall (fun z => Z.abs z <= 2 ^ 26) [a1; a2; a3; b1; b2; b3] ->
     cross {| dim := [int 3; int 1]; data := map int [a1; a2; a3] |}
           {| dim := [int 3; int 1]; data := map int [b1; b2; b3] |}
     = Ok {| dim := [int 3; int 1];
             data := map int [a2 * b3 - a3 * b2;
                              a3 * b1 - a1 * b3;
                              a1 * b2 - a2 * b1] |}) /\
  (forall a1 a2 b1 b2 : Z,
     Forall (fun z => Z.abs z <= 2 ^ 26) [a1; a2; b1; b2] ->
     cross {| dim := [int 2; int 1]; data := map int [a1; a2] |}
           {| dim := [int 2; int 1]; data := map int [b1; b2] |}
     = Ok {| dim := [int 3; int 1];
             data := map int [0; 0; a1 * b2 - a2 * b1] |}) /\
  (forall a b, isVector a = false -> cross a b = Err ValueError) /\
  (forall a b, wf a -> isVector a = true -> isVector b = false ->
               cross a b = Err ValueError).
Proof.
  split; [exact cross_data|]. split; [|split; [|split]].
  - intros a1 a2 a3 b1 b2 b3 _. cbn [map]. rewrite cross_data.
    rewrite !neg_int, !mul_int, !add_int.
    replace (0 + 0 * b1 + - a3 * b2 + a2 * b3) with (a2 * b3 - a3 * b2) by ring.
    replace (0 + a3 * b1 + 0 * b2 + - a1 * b3) with (a3 * b1 - a1 * b3) by ring.
    replace (0 + - a2 * b1 + a1 * b2 + 0 * b3) with (a1 * b2 - a2 * b1) by ring.
    reflexivity.
  - intros a1 a2 b1 b2 _. cbn [map]. rewrite cross_data_2.
    rewrite !neg_int, !mul_int, !add_int.
    replace (0 + 0 * b1 + - 0 * b2 + a2 * 0) with 0 by ring.
    replace (0 + 0 * b1 + 0 * b2 + - a1 * 0) with 0 by ring.
    replace (0 + - a2 * b1 + a1 * b2 + 0 * 0) with (a1 * b2 - a2 * b1) by ring.
    reflexivity.
  - intros a b H. unfold cross, getCrossMat, Vec.toVec. now rewrite H.
  - intros a b Hwf Ha Hb.
    destruct (isVector_shaped a Hwf Ha) as (k & Hs).
    unfold cross, getCrossMat.
    rewrite (toVec_shaped a 3 k) by (lia || assumption). cbn [bind].
    change [int 3; int 3] with (map int [3; 3]).
    rewrite Matrix_new_int
      by (discriminate || reflexivity || (repeat constructor; lia)).
    cbn [bind]. unfold Vec.toVec. now rewrite Hb.
Qed.

Lemma cross_formula_witness :
  cross {| dim := [int 2; int 1]; data := [int 5; int 8] |}
        {| dim := [int 2; int 2]; data := map int [1; 2; 3; 4] |}
  = Err ValueError /\
  cross {| dim := [int 3; int 1]; data := map int [1; 2; 3] |}
        {| dim := [int 3; int 1]; data := map int [4; 5; 6] |}
  = Ok {| dim := [int 3; int 1]; data := map int [-3; 6; -3] |}.
Proof.
  destruct cross_formula as (_ & H2 & _ & _ & H5). split.
  - apply H5; [|reflexivity|reflexivity].
    exists [2; 1]. split; [reflexivity|]. split; [discriminate|].
    split; [repeat constructor|reflexivity].
  - apply (H2 1 2 3 4 5 6). repeat constructor; vm_compute; discriminate.
Defined.

(** On 3-vectors of integers small enough for the products and sums to be
    exact: a vector crossed with itself is the zero vector, and exchanging
    the factors negates every component. *)
Theorem cross_laws (a1 a2 a3 b1 b2 b3 : Z) :
  Forall (fun z => Z.abs z <= 2 ^ 26) [a1; a2; a3; b1; b2; b3] ->
  let a := {| dim := [int 3; int 1]; data := map int [a1; a2; a3] |} in
  let b := {| dim := [int 3; int 1]; data := map int [b1; b2; b3] |} in
  cross a a = Ok {| dim := [int 3; int 1]; data := [int 0; int 0; int 0] |} /\
  exists c c',
    cross a b = Ok c /\ cross b a = Ok c' /\
    dim c' = dim c /\ data c' = map neg (data c).
Proof.
  intros _ a b. unfold a, b. cbn [map]. rewrite !cross_data.
  rewrite !neg_int, !mul_int, !add_int. split.
  - replace (0 + 0 * a1 + - a3 * a2 + a2 * a3) with 0 by ring.
    replace (0 + a3 * a1 + 0 * a2 + - a1 * a3) with 0 by ring.
    replace (0 + - a2 * a1 + a1 * a2 + 0 * a3) with 0 by ring.
    reflexivity.
  - do 2 eexists. split; [reflexivity|]. split; [reflexivity|].
    split; [reflexivity|]. cbn [data map]. rewrite !neg_int.
    replace (0 + 0 * a1 + - b3 * a2 + b2 * a3)
      with (- (0 + 0 * b1 + - a3 * b2 + a2 * b3)) by ring.
    replace (0 + b3 * a1 + 0 * a2 + - b1 * a3)
      with (- (0 + a3 * b1 + 0 * b2 + - a1 * b3)) by ring.
    replace (0 + - b2 * a1 + b1 * a2 + 0 * a3)
      with (- (0 + - a2 * b1 + a1 * b2 + 0 * b3)) by ring.
    reflexivity.
Qed.

Lemma cross_laws_witness :
  cross {| dim := [int 3; int 1]; data := map int [1; 2; 3] |}
        {| dim := [int 3; int 1]; data := map int [1; 2; 3] |}
  = Ok {| dim := [int 3; int 1]; data := [int 0; int 0; int 0] |}.
Proof.
  apply (cross_laws 1 2 3 4 5 6).
  repeat constructor; vm_compute; discriminate.
Defined.

Lemma getTransformMatrix_data (translate : Matrix)
  (r0 r1 r2 r3 r4 r5 r6 r7 r8 : number) :
  getTransformMatrix translate
    {| dim := [int 3; int 3]; data := [r0; r1; r2; r3; r4; r5; r6; r7; r8] |}
  = Ok {| dim := [int 4; int 4];
          data := [r0; r1; r2; Vec.x translate;
                   r3; r4; r5; Vec.y translate;
                   r6; r7; r8; Vec.z translate;
                   int 0; int 0; int 0; int 1] |}.
Proof.
  unfold getTransformMatrix.
  generalize (Vec.x translate) (Vec.y translate) (Vec.z translate).
  intros tx ty tz. vm_compute. reflexivity.
Qed.

(** [getTransformMatrix] accepts exactly the 3 x 3 rotations; the 4 x 4
    result holds the rotation in its upper left block, the translation in
    its last column and [0 0 0 1] in its last row. *)
Theorem getTransformMatrix_spec (translate rotation : Matrix) :
  (is2D rotation = false ->
   getTransformMatrix translate rotation = Err TypeError) /\
  (forall r c, shaped rotation [r; c] -> r <> 3 \/ c <> 3 ->
               getTransformMatrix translate rotation = Err TypeError) /\
  (shaped rotation [3; 3] ->
   exists m,
     getTransformMatrix translate rotation = Ok m /\
     shaped m [4; 4] /\
     (forall i j, 0 <= i < 3 -> 0 <= j < 3 ->
                  get m [int i; int j] = get rotation [int i; int j]) /\
     get m [int 0; int 3] = Ok (Vec.x translate) /\
     get m [int 1; int 3] = Ok (Vec.y translate) /\
     get m [int 2; int 3] = Ok (Vec.z translate) /\
     (forall j, 0 <= j < 3 -> get m [int 3; int j] = Ok (int 0)) /\
     get m [int 3; int 3] = Ok (int 1)).
Proof.
  split; [|split].
  - intros H. unfold getTransformMatrix. now rewrite H.
  - intros r c Hs Hne. destruct (shaped_2D _ r c Hs) as (Hd & Hr & Hc & _).
    unfold getTransformMatrix, is2D, shape. rewrite Hd.
    cbn [length Nat.eqb negb].
    rewrite !arr_get_int by lia.
    change (Z.to_nat 0) with 0%nat. change (Z.to_nat 1) with 1%nat. cbn [nth].
    rewrite !strict_ne_int.
    destruct (Z.eqb_spec r 3), (Z.eqb_spec c 3); try reflexivity. lia.
  - intros Hs. destruct (shaped_2D _ 3 3 Hs) as (Hd & _ & _ & Hlen).
    destruct rotation as [rd rdata]. cbn [dim data] in Hd, Hlen. subst rd.
    assert (Hl : length rdata = 9%nat) by lia. clear Hlen Hs.
    destruct rdata as [|r0 [|r1 [|r2 [|r3 [|r4 [|r5 [|r6 [|r7 [|r8 [|]]]]]]]]]];
      try discriminate Hl.
    rewrite getTransformMatrix_data. eexists. split; [reflexivity|].
    split; [split; [reflexivity|]; split; [discriminate|];
            split; [repeat constructor|reflexivity]|].
    split.
    + intros i j Hi Hj.
      assert (Ei : i = 0 \/ i = 1 \/ i = 2) by lia.
      assert (Ej : j = 0 \/ j = 1 \/ j = 2) by lia.
      destruct Ei as [ -> | [ -> | -> ] ], Ej as [ -> | [ -> | -> ] ];
        vm_compute; reflexivity.
    + generalize (Vec.x translate) (Vec.y translate) (Vec.z translate).
      intros tx ty tz.
      split; [vm_compute; reflexivity|].
      split; [vm_compute; reflexivity|].
      split; [vm_compute; reflexivity|].
      split; [|vm_compute; reflexivity].
      intros j Hj. assert (Ej : j = 0 \/ j = 1 \/ j = 2) by lia.
      destruct Ej as [ -> | [ -> | -> ] ]; vm_compute; reflexivity.
Qed.

Lemma getTransformMatrix_spec_witness :
  exists m,
    getTransformMatrix {| dim := [int 3; int 1]; data := map int [7; 8; 9] |}
                       (identity_matrix 3) = Ok m /\
    get m [int 1; int 3] = Ok (int 8) /\
    get m [int 1; int 1] = Ok (int 1).
Proof.
  destruct (proj2 (proj2 (getTransformMatrix_spec
                            {| dim := [int 3; int 1]; data := map int [7; 8; 9] |}
                            (identity_matrix 3))))
    as (m & E & _ & Hr & _ & Hy & _).
  - split; [reflexivity|]. split; [discriminate|].
    split; [repeat constructor|reflexivity].
  - exists m. split; [exact E|]. split; [exact Hy|].
    rewrite (Hr 1 1) by lia. vm_compute. reflexivity.
Defined.

(* ================================================================== *)
(** ** Sums and differences of matrices *)
(* ================================================================== *)

(** A loop [for (i = 0; i < d.length; i++) d[i] = h(i, d[i])] rewrites every
    element from its own old value. *)
Lemma fold_update_pointwise (h : nat -> number -> number) (cnt start : nat)
  (d : list number) :
  (start + cnt <= length d)%nat ->
  let d' := fold_left (fun d i => list_update d i (h i (nth i d NaN)))
                      (seq start cnt) d in
  length d' = length d /\
  forall j, (j < length d)%nat ->
    nth j d' NaN = if ((start <=? j) && (j <? start + cnt))%nat
                   then h j (nth j d NaN) else nth j d NaN.
Proof.
  revert start d. induction cnt as [|cnt IH]; intros start d Hle; cbn zeta.
  - cbn [seq fold_left]. split; [reflexivity|]. intros j Hj.
    destruct (Nat.leb_spec start j), (Nat.ltb_spec j (start + 0)); try reflexivity; lia.
  - cbn [seq fold_left].
    set (d1 := list_update d start (h start (nth start d NaN))).
    assert (Hl1 : length d1 = length d) by apply length_list_update.
    destruct (IH (S start) d1) as (Hlen & Hnth); [lia|].
    split; [now rewrite Hlen|].
    intros j Hj. rewrite Hnth by lia.
    destruct (Nat.eq_dec start j) as [<-|Hne].
    + destruct (Nat.leb_spec (S start) start); [lia|]. cbn [andb].
      unfold d1. rewrite nth_list_update_eq by lia.
      destruct (Nat.leb_spec start start), (Nat.ltb_spec start (start + S cnt));
        try lia. reflexivity.
    + unfold d1. rewrite nth_list_update_neq by assumption.
      destruct (Nat.leb_spec (S start) j), (Nat.leb_spec start j),
        (Nat.ltb_spec j (S start + cnt)), (Nat.ltb_spec j (start + S cnt));
        try lia; reflexivity.
Qed.

Lemma data_loop_pointwise (h : nat -> number -> number) (f : number -> list number -> number)
  (d : list number) :
  (forall k d0, f (int (Z.of_nat k)) d0 = h k (nth k d0 NaN)) ->
  data_loop f (arr_length d) d
  = map (fun k => h k (nth k d NaN)) (seq 0 (length d)).
Proof.
  intros Hf. unfold data_loop, arr_length. rewrite upto_int, Nat2Z.id.
  assert (E : forall idx d0,
             fold_left (fun d i => arr_set d i (f i d))
                       (map (fun k => int (Z.of_nat k)) idx) d0
             = fold_left (fun d i => list_update d i (h i (nth i d NaN))) idx d0).
  { induction idx as [|i idx IH]; intros d0; [reflexivity|].
    cbn [map fold_left]. rewrite arr_set_int, Nat2Z.id, Hf by lia. apply IH. }
  rewrite E.
  destruct (fold_update_pointwise h (length d) 0 d) as (Hlen & Hnth); [lia|].
  apply (nth_ext _ _ NaN NaN).
  - now rewrite Hlen, length_map, length_seq.
  - intros j Hj. rewrite Hlen in Hj. rewrite Hnth by assumption.
    rewrite (nth_map_inside _ _ _ NaN 0%nat) by (now rewrite length_seq).
    rewrite seq_nth by assumption.
    destruct (Nat.leb_spec 0 j), (Nat.ltb_spec j (0 + length d)); try lia.
    reflexivity.
Qed.

Lemma arr_get_dim (dz : list Z) (k : nat) :
  (k < length dz)%nat ->
  arr_get (map int dz) (int (Z.of_nat k)) = int (nth k dz 0).
Proof.
  intros Hk. rewrite arr_get_int, Nat2Z.id by lia.
  apply (nth_map_inside int dz k NaN 0 Hk).
Qed.

Lemma same_shape_equal (a b : Matrix) (dz : list Z) :
  dim a = map int dz -> dim b = map int dz -> same_shape a b = Ok tt.
Proof.
  intros Ha Hb. unfold same_shape. rewrite Ha, Hb, Nat.eqb_refl. cbn [negb].
  destruct (existsb _ _) eqn:E; [|reflexivity].
  apply existsb_exists in E. destruct E as (x & Hx & Hne).
  unfold arr_length in Hx. rewrite upto_int, Nat2Z.id in Hx.
  apply in_map_iff in Hx. destruct Hx as (k & <- & Hk). apply in_seq in Hk.
  rewrite length_map in Hk.
  rewrite arr_get_dim, strict_ne_int, Z.eqb_refl in Hne by lia. discriminate.
Qed.

Lemma lists_differ (l l' : list Z) :
  length l = length l' -> l <> l' ->
  exists k, (k < length l)%nat /\ nth k l 0 <> nth k l' 0.
Proof.
  revert l'. induction l as [|x l IH]; intros [|y l'] Hl Hne;
    try discriminate; [now elim Hne|].
  destruct (Z.eq_dec x y) as [->|Hxy].
  - destruct (IH l') as (k & Hk & Hn).
    + now injection Hl.
    + intros ->. now apply Hne.
    + exists (S k). split; [simpl; lia|exact Hn].
  - exists 0%nat. split; [simpl; lia|exact Hxy].
Qed.

Lemma same_shape_differ (a b : Matrix) (dz dz' : list Z) :
  dim a = map int dz -> dim b = map int dz' -> dz <> dz' ->
  same_shape a b = Err TypeError.
Proof.
  intros Ha Hb Hne. unfold same_shape. rewrite Ha, Hb, !length_map.
  destruct (Nat.eqb_spec (length dz) (length dz')) as [Hl|]; [|reflexivity].
  cbn [negb]. destruct (lists_differ dz dz' Hl Hne) as (k & Hk & Hn).
  replace (existsb _ _) with true; [reflexivity|].
  symmetry. apply existsb_exists. exists (int (Z.of_nat k)). split.
  - unfold arr_length. rewrite upto_int, Nat2Z.id, length_map.
    apply in_map_iff. exists k. split; [reflexivity|]. apply in_seq. lia.
  - rewrite !arr_get_dim, strict_ne_int by lia.
    destruct (Z.eqb_spec (nth k dz 0) (nth k dz' 0)); [contradiction|reflexivity].
Qed.

(** On two matrices of one shape [add] and [sub] never throw: the result has
    that shape and holds the sums (the differences) position by position;
    [withAdd] and [withSub] leave exactly that matrix in the receiver; and
    [add] gives the same matrix with its operands exchanged. *)
Theorem add_sub_shaped (a b : Matrix) (dz : list Z) :
  shaped a dz -> shaped b dz ->
  exists m s,
    add_ a b = Ok m /\ withAdd b a = (m, Ok tt) /\ add_ b a = Ok m /\
    sub_ a b = Ok s /\ withSub b a = (s, Ok tt) /\
    shaped m dz /\ shaped s dz /\
    forall k, (k < length (data a))%nat ->
      nth k (data m) NaN = add (nth k (data a) NaN) (nth k (data b) NaN) /\
      nth k (data s) NaN = sub (nth k (data a) NaN) (nth k (data b) NaN).
Proof.
  intros Ha Hb. pose proof Ha as (Hda & Hne & Hpos & Hla).
  pose proof Hb as (Hdb & _ & _ & Hlb).
  assert (Hl : length (data b) = length (data a)) by lia.
  set (dm := map (fun k => add (nth k (data a) NaN) (nth k (data b) NaN))
                 (seq 0 (length (data a)))).
  set (ds := map (fun k => sub (nth k (data a) NaN) (nth k (data b) NaN))
                 (seq 0 (length (data a)))).
  exists {| dim := dim a; data := dm |}, {| dim := dim a; data := ds |}.
  assert (Hmap : forall g : number -> number -> number,
            map (fun i => g (arr_get (data a) i) (arr_get (data b) i))
                (upto (arr_length (data a)))
            = map (fun k => g (nth k (data a) NaN) (nth k (data b) NaN))
                  (seq 0 (length (data a)))).
  { intros g. unfold arr_length. rewrite upto_int, Nat2Z.id, map_map.
    apply map_ext. intros k. now rewrite !arr_get_int, Nat2Z.id by lia. }
  assert (Hnew : forall d, length d = length (data a) ->
            Matrix_new (dim a) (Some d) = Ok {| dim := dim a; data := d |}).
  { intros d Hd. rewrite Hda. apply Matrix_new_int; try assumption.
    now rewrite Hd. }
  assert (Hlm : length dm = length (data a))
    by (unfold dm; now rewrite length_map, length_seq).
  assert (Hls : length ds = length (data a))
    by (unfold ds; now rewrite length_map, length_seq).
  split; [|split; [|split; [|split; [|split; [|split; [|split]]]]]].
  - unfold add_. rewrite (same_shape_equal a b dz) by assumption. cbn [bind].
    rewrite Hmap. now apply Hnew.
  - unfold withAdd. rewrite (same_shape_equal a b dz) by assumption.
    rewrite (data_loop_pointwise (fun k v => add v (nth k (data b) NaN))).
    + reflexivity.
    + intros k d0. now rewrite !arr_get_int, Nat2Z.id by lia.
  - unfold add_. rewrite (same_shape_equal b a dz) by assumption. cbn [bind].
    unfold arr_length. rewrite upto_int, Nat2Z.id, map_map, Hl, Hdb, <- Hda.
    rewrite <- (Hnew dm Hlm). do 2 f_equal. unfold dm.
    apply map_ext. intros k. rewrite !arr_get_int, Nat2Z.id by lia.
    unfold add, lift2.
    destruct (nth k (data a) NaN), (nth k (data b) NaN); try reflexivity.
    f_equal. apply Qred_complete. ring.
  - unfold sub_. rewrite (same_shape_equal a b dz) by assumption. cbn [bind].
    rewrite Hmap. now apply Hnew.
  - unfold withSub. rewrite (same_shape_equal a b dz) by assumption.
    rewrite (data_loop_pointwise (fun k v => sub v (nth k (data b) NaN))).
    + reflexivity.
    + intros k d0. now rewrite !arr_get_int, Nat2Z.id by lia.
  - split; [exact Hda|]. split; [exact Hne|]. split; [exact Hpos|].
    cbn [data]. now rewrite Hlm.
  - split; [exact Hda|]. split; [exact Hne|]. split; [exact Hpos|].
    cbn [data]. now rewrite Hls.
  - intros k Hk. cbn [data]. unfold dm, ds.
    rewrite !(nth_map_inside _ _ _ NaN 0%nat) by (now rewrite length_seq).
    rewrite seq_nth by assumption. split; reflexivity.
Qed.

Lemma add_sub_shaped_witness :
  exists m s,
    add_ {| dim := [int 2]; data := [int 1; int 2] |}
         {| dim := [int 2]; data := [int 10; int 20] |} = Ok m /\
    sub_ {| dim := [int 2]; data := [int 1; int 2] |}
         {| dim := [int 2]; data := [int 10; int 20] |} = Ok s /\
    nth 1 (data m) NaN = int 22 /\ nth 1 (data s) NaN = int (-18).
Proof.
  destruct (add_sub_shaped {| dim := [int 2]; data := [int 1; int 2] |}
                           {| dim := [int 2]; data := [int 10; int 20] |} [2])
    as (m & s & Hm & _ & _ & Hs & _ & _ & _ & Hk).
  - split; [reflexivity|]. split; [discriminate|].
    split; [repeat constructor|reflexivity].
  - split; [reflexivity|]. split; [discriminate|].
    split; [repeat constructor|reflexivity].
  - exists m, s. split; [exact Hm|]. split; [exact Hs|].
    destruct (Hk 1%nat) as (H1 & H2); [simpl; lia|].
    rewrite H1, H2. split; vm_compute; reflexivity.
Defined.

(** Two matrices of different shapes cannot be added or subtracted: the
    four methods throw the structural error, and the in-place ones leave
    the receiver as it was. *)
Theorem add_sub_mismatch (a b : Matrix) (dz dz' : list Z) :
  shaped a dz -> shaped b dz' -> dz <> dz' ->
  add_ a b = Err TypeError /\ sub_ a b = Err TypeError /\
  withAdd b a = (a, Err TypeError) /\ withSub b a = (a, Err TypeError).
Proof.
  intros (Ha & _) (Hb & _) Hne.
  unfold add_, sub_, withAdd, withSub.
  rewrite (same_shape_differ a b dz dz') by assumption.
  repeat split; reflexivity.
Qed.

Lemma add_sub_mismatch_witness :
  add_ {| dim := [int 2; int 1]; data := [int 1; int 2] |}
       {| dim := [int 1; int 2]; data := [int 10; int 20] |} = Err TypeError.
Proof.
  refine (proj1 (add_sub_mismatch
                   {| dim := [int 2; int 1]; data := [int 1; int 2] |}
                   {| dim := [int 1; int 2]; data := [int 10; int 20] |}
                   [2; 1] [1; 2] _ _ _)).
  - split; [reflexivity|]. split; [discriminate|].
    split; [repeat constructor|reflexivity].
  - split; [reflexivity|]. split; [discriminate|].
    split; [repeat constructor|reflexivity].
  - discriminate.
Defined.

(* ================================================================== *)
(** ** Mapping over the elements *)
(* ================================================================== *)

Lemma withMap_loop_pure (f : number -> list number -> number) (dz : list Z)
  (cnt start : nat) (this : Matrix) :
  shaped this dz -> (start + cnt <= length (data this))%nat ->
  withMap_loop (fun v idx => Ok (f v idx))
               (map (fun k => int (Z.of_nat k)) (seq start cnt)) this
  = (set_data this
       (fold_left (fun d i =>
                     list_update d i
                       (f (nth i d NaN) (map int (unflatZ dz (Z.of_nat i)))))
                  (seq start cnt) (data this)),
     Ok tt).
Proof.
  revert start this. induction cnt as [|cnt IH]; intros start this Hs Hle.
  - cbn [seq map withMap_loop fold_left]. now destruct this.
  - cbn [seq map withMap_loop fold_left].
    pose proof Hs as (_ & _ & _ & Hlen).
    rewrite (getIndices_int this dz) by (assumption || lia). cbn [bind].
    rewrite arr_get_int, arr_set_int, Nat2Z.id by lia.
    rewrite IH.
    + reflexivity.
    + apply shaped_set_data; [assumption|apply length_list_update].
    + cbn [set_data data]. rewrite length_list_update. lia.
Qed.

Lemma map_withMap_pure (m : Matrix) (dz : list Z)
  (f : number -> list number -> number) :
  shaped m dz ->
  let m' := {| dim := dim m;
               data := map (fun k => f (nth k (data m) NaN)
                                       (map int (unflatZ dz (Z.of_nat k))))
                           (seq 0 (length (data m))) |} in
  map_ m (fun v idx => Ok (f v idx)) = Ok m' /\
  withMap (fun v idx => Ok (f v idx)) m = (m', Ok tt) /\
  shaped m' dz.
Proof.
  intros Hs m'. pose proof Hs as (Hd & Hne & Hpos & Hlen).
  assert (Hs' : shaped m' dz).
  { split; [exact Hd|]. split; [exact Hne|]. split; [exact Hpos|].
    unfold m'. cbn [data]. now rewrite length_map, length_seq. }
  split; [|split; [|exact Hs']].
  - unfold map_, arr_length. rewrite upto_int, Nat2Z.id, mapM_map.
    rewrite (mapM_Ok _ (fun k => f (nth k (data m) NaN)
                                   (map int (unflatZ dz (Z.of_nat k))))).
    + cbn [bind]. unfold m'. rewrite Hd. apply Matrix_new_int; try assumption.
      now rewrite length_map, length_seq.
    + intros k Hk. apply in_seq in Hk.
      rewrite (getIndices_int m dz) by (assumption || lia). cbn [bind].
      now rewrite arr_get_int, Nat2Z.id by lia.
  - unfold withMap, arr_length. rewrite upto_int, Nat2Z.id.
    rewrite (withMap_loop_pure f dz) by (assumption || lia).
    unfold set_data, m'. do 2 f_equal.
    destruct (fold_update_pointwise
                (fun i v => f v (map int (unflatZ dz (Z.of_nat i))))
                (length (data m)) 0 (data m)) as (Hl & Hn); [lia|].
    apply (nth_ext _ _ NaN NaN).
    + now rewrite Hl, length_map, length_seq.
    + intros j Hj. rewrite Hl in Hj. rewrite Hn by assumption.
      rewrite (nth_map_inside _ _ _ NaN 0%nat) by (now rewrite length_seq).
      rewrite seq_nth by assumption.
      destruct (Nat.leb_spec 0 j), (Nat.ltb_spec j (0 + length (data m)));
        try lia. reflexivity.
Qed.



(** The scalar operations: [addScalar], [subScalar] and [mulScalar] return,
    and their in-place forms leave in the receiver, the matrix of the same
    shape whose every element has been combined with the scalar. *)
Theorem scalar_ops (m : Matrix) (dz : list Z) (a : number) :
  shaped m dz ->
  exists p q r,
    addScalar m a = Ok p /\ withAddScalar a m = (p, Ok tt) /\
    subScalar m a = Ok q /\ withSubScalar a m = (q, Ok tt) /\
    mulScalar m a = Ok r /\ withMulScalar a m = (r, Ok tt) /\
    shaped p dz /\ shaped q dz /\ shaped r dz /\
    data p = map (fun v => add v a) (data m) /\
    data q = map (fun v => sub v a) (data m) /\
    data r = map (fun v => mul v a) (data m).
Proof.
  intros Hs.
  destruct (map_withMap_pure m dz (fun v _ => add v a) Hs) as (A1 & A2 & A3).
  destruct (map_withMap_pure m dz (fun v _ => sub v a) Hs) as (S1 & S2 & S3).
  destruct (map_withMap_pure m dz (fun v _ => mul v a) Hs) as (M1 & M2 & M3).
  assert (E : forall op : number -> number -> number,
              map (fun k => op (nth k (data m) NaN) a) (seq 0 (length (data m)))
              = map (fun v => op v a) (data m)).
  { intros op.
    rewrite <- (map_map (fun k => nth k (data m) NaN) (fun v => op v a)).
    f_equal. rewrite map_nth_seq by lia. apply firstn_all. }
  do 3 eexists.
  split; [exact A1|]. split; [exact A2|].
  split; [exact S1|]. split; [exact S2|].
  split; [exact M1|]. split.
  { unfold withMulScalar.
    rewrite (data_loop_pointwise (fun k v => mul v a)).
    - reflexivity.
    - intros k d0. now rewrite arr_get_int, Nat2Z.id by lia. }
  split; [exact A3|]. split; [exact S3|]. split; [exact M3|].
  cbn [data]. split; [apply E|]. split; apply E.
Qed.

Lemma scalar_ops_witness :
  exists r,
    mulScalar {| dim := [int 2]; data := [int 3; int 4] |} (int 5) = Ok r /\
    withMulScalar (int 5) {| dim := [int 2]; data := [int 3; int 4] |}
    = (r, Ok tt) /\
    data r = [int 15; int 20].
Proof.
  destruct (scalar_ops {| dim := [int 2]; data := [int 3; int 4] |} [2] (int 5))
    as (p & q & r & _ & _ & _ & _ & M1 & M2 & _ & _ & _ & _ & _ & E).
  - split; [reflexivity|]. split; [discriminate|].
    split; [repeat constructor|reflexivity].
  - exists r. split; [exact M1|]. split; [exact M2|]. rewrite E.
    vm_compute. reflexivity.
Defined.

(* ================================================================== *)
(** ** The slices that are served *)
(* ================================================================== *)

Lemma served_count_pos (d : Z) (sel : selector) : served d sel -> 0 < count d sel.
Proof.
  destruct sel as [r|s t p]; cbn [served count]; [lia|].
  intros (_ & _ & Hlt & Hp & (q & Hq)). rewrite Hq, Z.div_mul by lia. nia.
Qed.

Lemma served_index (d : Z) (sel : selector) (k : Z) :
  served d sel -> 0 < d -> 0 <= k < count d sel ->
  0 <= first_index d sel + k * stride sel < d.
Proof.
  destruct sel as [r|s t p]; cbn [served count first_index stride]; [lia|].
  intros (Hs & Ht & Hlt & Hp & (q & Hq)) Hd Hk.
  rewrite Hq, Z.div_mul in Hk by lia.
  assert (0 <= normZ d s < d) by (apply normZ_bounds; lia).
  assert (normZ d t <= d) by (unfold normZ; destruct (Z.ltb_spec t 0); lia).
  nia.
Qed.

Lemma slice_range_served (d : Z) (sel : selector) :
  0 < d -> served d sel ->
  slice_range (to_range sel) (int d)
  = Ok (to_nrange d sel, int (count d sel)).
Proof.
  intros Hd. destruct sel as [r|s t p]; cbn [served count to_nrange].
  - intros Hr. cbn [to_range slice_range].
    rewrite lt_int, ge_int, is_integer_int.
    destruct (Z.ltb_spec r 0), (Z.leb_spec d r); try lia. reflexivity.
  - intros (Hs & Ht & Hlt & Hp & Hdiv).
    assert (E : slice_bounds (int s) (int t) (option_map int p) (int d)
                = Ok (NRange (int (normZ d s)) (int (normZ d t)) (int (span_step p)),
                      int ((normZ d t - normZ d s) / span_step p))).
    { unfold slice_bounds. cbv zeta.
      rewrite !is_integer_int, neg_int, !lt_int, ge_int, !gt_int.
      destruct (Z.ltb_spec s (- d)), (Z.leb_spec d s); try lia.
      destruct (Z.ltb_spec t (- d)), (Z.ltb_spec d t); try lia.
      rewrite !of_bool_int, !mul_int, !add_int.
      replace (s + d * (if s <? 0 then 1 else 0)) with (normZ d s)
        by (unfold normZ; destruct (s <? 0); lia).
      replace (t + d * (if t <? 0 then 1 else 0)) with (normZ d t)
        by (unfold normZ; destruct (t <? 0); lia).
      rewrite !gt_int, !lt_int.
      destruct (Z.ltb_spec (normZ d s) (normZ d t)); [|lia].
      replace (match option_map int p with
               | Some s0 => s0
               | None => int 1
               end) with (int (span_step p)) by (now destruct p).
      rewrite is_integer_int, strict_eq_int, lt_int, gt_int.
      destruct (Z.eqb_spec (span_step p) 0); [lia|].
      destruct (Z.ltb_spec (span_step p) 0); [lia|].
      destruct (Z.ltb_spec (normZ d t) (normZ d s)); [lia|]. cbn [andb].
      rewrite sub_int, Math_abs_int, floor_div_int by lia.
      do 3 f_equal. rewrite <- Z.abs_opp. rewrite Z.abs_eq by lia. f_equal. lia. }
    destruct p; exact E.
Qed.

Lemma slice_ranges_served (dz : list Z) (sels : list selector) :
  Forall (fun d => 0 < d) dz -> Forall2 served dz sels ->
  slice_ranges (map to_range sels) (map int dz)
  = Ok (nranges dz sels, map int (counts dz sels)).
Proof.
  intros Hpos H. induction H as [|d sel dz sels Hs _ IH]; [reflexivity|].
  cbn [map slice_ranges nranges counts].
  rewrite slice_range_served by (inversion Hpos; assumption). cbn [bind fst snd].
  rewrite IH by (inversion Hpos; assumption). reflexivity.
Qed.

Lemma counts_pos (dz : list Z) (sels : list selector) :
  Forall2 served dz sels -> Forall (fun c => 0 < c) (counts dz sels).
Proof.
  induction 1 as [|d sel dz sels Hs _ IH]; cbn [counts]; constructor;
    [now apply served_count_pos|exact IH].
Qed.

Lemma length_visited (dz : list Z) (sels : list selector) (prefix : list Z) :
  Forall2 served dz sels ->
  length (visited dz sels prefix) = Z.to_nat (prodZ (counts dz sels)).
Proof.
  intros H. revert prefix.
  induction H as [|d sel dz sels Hs H IH]; intros prefix; [reflexivity|].
  cbn [visited counts]. change (prodZ (?c :: ?l)) with (c * prodZ l).
  rewrite (length_flat_map_uniform _ _ (Z.to_nat (prodZ (counts dz sels))))
    by (intros; apply IH).
  rewrite length_rangeZ.
  pose proof (served_count_pos d sel Hs).
  pose proof (prodZ_pos _ (counts_pos dz sels H)). nia.
Qed.

Lemma nth_visited (dz : list Z) (sels : list selector) (prefix ks : list Z) :
  Forall2 served dz sels ->
  Forall2 (fun k c => 0 <= k < c) ks (counts dz sels) ->
  nth (Z.to_nat (flatZ ks (counts dz sels))) (visited dz sels prefix) []
  = prefix ++ picked dz sels ks.
Proof.
  intros H. revert prefix ks.
  induction H as [|d sel dz sels Hs H IH]; intros prefix ks Hks.
  - cbn [counts] in Hks. inversion Hks; subst. cbn. now rewrite app_nil_r.
  - cbn [counts] in Hks. inversion Hks as [|k c ks' cs Hk Hks' E1 E2]; subst.
    cbn [counts flatZ visited picked].
    rewrite normZ_nonneg by lia.
    pose proof (prodZ_pos _ (counts_pos dz sels H)) as Hpp.
    pose proof (flatZ_bounds ks' (counts dz sels) (valid_weaken _ _ Hks')) as Hfb.
    replace (Z.to_nat (k * prodZ (counts dz sels) + flatZ ks' (counts dz sels)))
      with (Z.to_nat k * Z.to_nat (prodZ (counts dz sels))
            + Z.to_nat (flatZ ks' (counts dz sels)))%nat by nia.
    rewrite (nth_flat_map_uniform _ _ (Z.to_nat (prodZ (counts dz sels))) _ _ 0)
      by (try (intros; now apply length_visited); try rewrite length_rangeZ; lia).
    rewrite (nth_rangeZ (count d sel)) by lia. rewrite Z2Nat.id by lia.
    rewrite IH by assumption. now rewrite <- app_assoc.
Qed.

Lemma picked_valid (dz : list Z) (sels : list selector) (ks : list Z) :
  Forall (fun d => 0 < d) dz -> Forall2 served dz sels ->
  Forall2 (fun k c => 0 <= k < c) ks (counts dz sels) ->
  Forall2 (fun z d => 0 <= z < d) (picked dz sels ks) dz.
Proof.
  intros Hpos H. revert ks.
  induction H as [|d sel dz sels Hs H IH]; intros ks Hks.
  - constructor.
  - cbn [counts] in Hks. inversion Hks; subst. cbn [picked].
    inversion Hpos; subst.
    constructor; [now apply served_index|now apply IH].
Qed.

Lemma list_update_middle {A} (l1 l2 : list A) (x v : A) :
  list_update (l1 ++ x :: l2) (length l1) v = l1 ++ v :: l2.
Proof. induction l1 as [|a l1 IH]; cbn; [reflexivity|now rewrite IH]. Qed.

Lemma arr_set_next (prefix : list Z) (j0 : number) (junk : list number) (idx : Z) :
  arr_set (map int prefix ++ j0 :: junk) (int (Z.of_nat (length prefix))) (int idx)
  = map int (prefix ++ [idx]) ++ junk.
Proof.
  rewrite arr_set_int, Nat2Z.id by lia.
  rewrite <- (length_map int prefix), list_update_middle.
  now rewrite map_app, <- app_assoc.
Qed.

Lemma slice_dfs_visited (m : Matrix) (dzall : list Z) :
  dim m = map int dzall ->
  forall dz sels, Forall2 served dz sels ->
  forall prefix dpre junk,
    dzall = dpre ++ dz -> Forall (fun d => 0 < d) dz ->
    Forall2 (fun z d => 0 <= z < d) prefix dpre ->
    length junk = length dz ->
    slice_dfs m (nranges dz sels) (int (Z.of_nat (length prefix)))
              (map int prefix ++ junk)
    = Ok (map (fun zs => nth (Z.to_nat (flatZ zs dzall)) (data m) NaN)
              (visited dz sels prefix)).
Proof.
  intros Hd dz sels H.
  induction H as [|d sel dz sels Hs H IH]; intros prefix dpre junk E Hpos Hpre Hj.
  - destruct junk; [|discriminate]. rewrite app_nil_r in *. subst dpre.
    cbn [nranges slice_dfs visited map].
    rewrite (get_int m prefix dzall) by (try assumption; now apply valid_weaken).
    reflexivity.
  - destruct junk as [|j0 junk]; [discriminate|]. injection Hj as Hj.
    inversion Hpos as [|? ? Hd0 Hpos']; subst.
    assert (Hnext : forall k, 0 <= k < count d sel ->
              slice_dfs m (nranges dz sels)
                (add (int (Z.of_nat (length prefix))) (int 1))
                (arr_set (map int prefix ++ j0 :: junk)
                         (int (Z.of_nat (length prefix)))
                         (int (first_index d sel + k * stride sel)))
              = Ok (map (fun zs => nth (Z.to_nat (flatZ zs (dpre ++ d :: dz)))
                                       (data m) NaN)
                        (visited dz sels
                           (prefix ++ [first_index d sel + k * stride sel])))).
    { intros k Hk. rewrite arr_set_next, add_int.
      replace (Z.of_nat (length prefix) + 1)
        with (Z.of_nat (length (prefix ++ [first_index d sel + k * stride sel])))
        by (rewrite length_app; cbn [length]; lia).
      apply (IH _ (dpre ++ [d])); try assumption.
      - now rewrite <- app_assoc.
      - apply Forall2_app; [assumption|]. constructor; [|constructor].
        now apply served_index. }
    cbn [nranges visited]. destruct sel as [r|s t p]; cbn [to_nrange slice_dfs].
    + specialize (Hnext 0 ltac:(cbn [count]; lia)).
      cbn [first_index stride] in Hnext. rewrite Z.mul_0_l, Z.add_0_r in Hnext.
      rewrite Hnext. cbn [count first_index stride].
      change (rangeZ 1) with [0]. cbn [flat_map].
      now rewrite app_nil_r, Z.mul_0_l, Z.add_0_r.
    + pose proof Hs as (Hs1 & Ht1 & Hlt & Hp & (q & Hq)).
      destruct (range_indices_int (normZ d s) (normZ d t) (span_step p))
        as (Hup & _ & _).
      rewrite Hup by assumption.
      replace ((normZ d t - normZ d s + span_step p - 1) / span_step p)
        with (count d (Span s t p)).
      * unfold stepsZ. rewrite mapM_map, mapM_map.
        rewrite (mapM_Ok _ (fun k =>
                   map (fun zs => nth (Z.to_nat (flatZ zs (dpre ++ d :: dz)))
                                      (data m) NaN)
                       (visited dz sels
                          (prefix ++ [normZ d s + Z.of_nat k * span_step p])))).
        -- cbn [bind]. f_equal. unfold rangeZ.
           rewrite !flat_map_concat_map, concat_map, !map_map. reflexivity.
        -- intros k Hk. apply in_seq in Hk.
           apply (Hnext (Z.of_nat k)).
           pose proof (served_count_pos d _ Hs). lia.
      * cbn [count]. rewrite Hq, Z.div_mul by lia.
        replace (q * span_step p + span_step p - 1)
          with (span_step p - 1 + q * span_step p) by lia.
        rewrite Z.div_add by lia. rewrite Z.div_small by lia. lia.
Qed.

Lemma all_axes_served (dz : list Z) (sels : list selector) :
  Forall (fun d => 0 < d) dz -> (length sels <= length dz)%nat ->
  Forall2 served (firstn (length sels) dz) sels ->
  Forall2 served dz (all_axes dz sels).
Proof.
  intros Hpos Hl H. unfold all_axes.
  rewrite <- (firstn_skipn (length sels) dz) at 1.
  apply Forall2_app; [exact H|].
  assert (Hsk : Forall (fun d => 0 < d) (skipn (length sels) dz)).
  { rewrite <- (firstn_skipn (length sels) dz) in Hpos.
    now apply Forall_app in Hpos. }
  induction Hsk as [|d l Hd _ IH]; cbn [map]; constructor; [|exact IH].
  cbn [served span_step]. rewrite !normZ_nonneg by lia.
  rewrite Z.sub_0_r. repeat split; try lia. exists d. lia.
Qed.

Lemma slice_served_result (m : Matrix) (dz : list Z) (sels : list selector) :
  shaped m dz -> (length sels <= length dz)%nat ->
  Forall2 served (firstn (length sels) dz) sels ->
  slice m (map to_range sels)
  = Ok {| dim := map int (counts dz (all_axes dz sels));
          data := map (fun zs => nth (Z.to_nat (flatZ zs dz)) (data m) NaN)
                      (visited dz (all_axes dz sels) []) |}.
Proof.
  intros Hs Hl Hsel. pose proof Hs as (Hd & Hne & Hpos & Hlen).
  pose proof (all_axes_served dz sels Hpos Hl Hsel) as Hfull.
  set (full := all_axes dz sels) in *.
  assert (Hcp : Forall (fun c => 0 < c) (counts dz full))
    by now apply counts_pos.
  assert (Hcne : counts dz full <> []).
  { destruct Hfull; [now elim Hne|discriminate]. }
  unfold slice. rewrite Hd, !length_map.
  destruct (Nat.ltb_spec (length dz) (length sels)); [lia|].
  replace (map to_range sels
           ++ map (fun d => Pair (int 0) d) (skipn (length sels) (map int dz)))
    with (map to_range full)
    by (unfold full, all_axes; rewrite map_app, skipn_map, !map_map;
        reflexivity).
  rewrite slice_ranges_served by assumption. cbn [bind fst snd].
  assert (Ef : Array_fill (arr_length (map int dz)) (int 0)
               = map int [] ++ repeat (int 0) (length dz)).
  { unfold Array_fill, arr_length.
    rewrite length_upto_int, Nat2Z.id, length_map. reflexivity. }
  rewrite Ef.
  rewrite (slice_dfs_visited m dz Hd dz full Hfull [] [] _ eq_refl Hpos)
    by (constructor || apply repeat_length).
  cbn [bind]. apply Matrix_new_int; try assumption.
  rewrite length_map, length_visited by assumption.
  pose proof (prodZ_pos _ Hcp). lia.
Qed.

(** [slice] on ranges it serves: single indices inside their axes and
    ascending ranges with a positive step dividing the distance, the axes
    without a range taken whole.  The call returns a well-formed matrix with
    one axis per axis of the source, as long as the number of indices taken
    there, and position [ks] of it shows the element of the source at
    [first + k * step] on every axis. *)
Theorem slice_served (m : Matrix) (dz : list Z) (sels : list selector) :
  shaped m dz -> (length sels <= length dz)%nat ->
  Forall2 served (firstn (length sels) dz) sels ->
  exists m',
    slice m (map to_range sels) = Ok m' /\
    shaped m' (counts dz (all_axes dz sels)) /\
    forall ks,
      Forall2 (fun k c => 0 <= k < c) ks (counts dz (all_axes dz sels)) ->
      get m' (map int ks) = get m (map int (picked dz (all_axes dz sels) ks)).
Proof.
  intros Hs Hl Hsel. pose proof Hs as (Hd & Hne & Hpos & Hlen).
  pose proof (all_axes_served dz sels Hpos Hl Hsel) as Hfull.
  pose proof (slice_served_result m dz sels Hs Hl Hsel) as E.
  set (full := all_axes dz sels) in *.
  assert (Hcp : Forall (fun c => 0 < c) (counts dz full))
    by now apply counts_pos.
  assert (Hcne : counts dz full <> []).
  { destruct Hfull; [now elim Hne|discriminate]. }
  eexists. split; [exact E|].
  match type of E with _ = Ok ?r => set (m' := r) in * end.
  assert (Hs' : shaped m' (counts dz full)).
  { split; [reflexivity|]. split; [exact Hcne|]. split; [exact Hcp|].
    unfold m'. cbn [data]. rewrite length_map, length_visited by assumption.
    pose proof (prodZ_pos _ Hcp). lia. }
  split; [exact Hs'|].
  intros ks Hks.
  rewrite (get_int _ ks (counts dz full)) by (reflexivity || now apply valid_weaken).
  rewrite (get_int m _ dz)
    by (try assumption; apply valid_weaken; now apply picked_valid).
  f_equal. unfold m'. cbn [data].
  pose proof (flatZ_bounds ks _ (valid_weaken _ _ Hks)) as Hb.
  rewrite (nth_map_inside _ _ _ NaN [])
    by (rewrite length_visited by assumption; lia).
  rewrite nth_visited by assumption. reflexivity.
Qed.

Lemma slice_served_witness :
  exists m',
    slice {| dim := [int 2; int 4]; data := map int [0; 1; 2; 3; 4; 5; 6; 7] |}
          [Single (int 1); Triple (int (-4)) (int 4) (int 2)] = Ok m' /\
    dim m' = [int 1; int 2] /\
    get m' [int 0; int 1] = Ok (int 6).
Proof.
  destruct (slice_served
              {| dim := [int 2; int 4];
                 data := map int [0; 1; 2; 3; 4; 5; 6; 7] |}
              [2; 4] [One 1; Span (-4) 4 (Some 2)]) as (m' & E & (Hd & _) & Hg).
  - split; [reflexivity|]. split; [discriminate|].
    split; [repeat constructor|reflexivity].
  - simpl; lia.
  - constructor; [simpl; lia|]. constructor; [|constructor].
    cbn [served span_step]. change (normZ 4 (-4)) with 0.
    change (normZ 4 4) with 4. repeat split; try lia. exists 2. reflexivity.
  - exists m'. split; [exact E|]. split; [exact Hd|].
    change [int 0; int 1] with (map int [0; 1]).
    rewrite (Hg [0; 1]) by (repeat constructor; vm_compute; congruence).
    vm_compute. reflexivity.
Defined.

Lemma counts_whole (dz : list Z) :
  Forall (fun d => 0 < d) dz -> counts dz (map (fun d => Span 0 d None) dz) = dz.
Proof.
  induction 1 as [|d dz Hd _ IH]; [reflexivity|]. cbn [map counts count span_step].
  rewrite IH, !normZ_nonneg by lia. f_equal. rewrite Z.sub_0_r. apply Z.div_1_r.
Qed.

Lemma picked_whole (dz ks : list Z) :
  Forall2 (fun k d => 0 <= k < d) ks dz ->
  picked dz (map (fun d => Span 0 d None) dz) ks = ks.
Proof.
  induction 1 as [|k d ks dz Hk _ IH]; [reflexivity|].
  cbn [map picked first_index stride span_step].
  rewrite IH, normZ_nonneg by lia. f_equal. lia.
Qed.

(** [slice()] without a range returns the whole matrix: the same shape and
    the same elements. *)
Theorem slice_whole (m : Matrix) (dz : list Z) :
  shaped m dz -> slice m [] = Ok m.
Proof.
  intros Hs. pose proof Hs as (Hd & Hne & Hpos & Hlen).
  change (@nil range) with (map to_range []).
  rewrite (slice_served_result m dz []) by (assumption || constructor || (cbn; lia)).
  unfold all_axes. cbn [length skipn app].
  set (full := map (fun d => Span 0 d None) dz).
  assert (Hfull : Forall2 served dz full).
  { apply (all_axes_served dz [] Hpos); [cbn; lia|constructor]. }
  rewrite counts_whole by assumption. destruct m as [md mdata].
  cbn [dim data] in *. subst md. do 2 f_equal.
  apply (nth_ext _ _ NaN NaN).
  - rewrite length_map, length_visited by assumption.
    unfold full. rewrite counts_whole by assumption. lia.
  - intros j Hj. rewrite length_map, length_visited in Hj by assumption.
    unfold full in Hj. rewrite counts_whole in Hj by assumption.
    rewrite (nth_map_inside _ _ _ NaN [])
      by (rewrite length_visited by assumption; unfold full;
          rewrite counts_whole by assumption; lia).
    assert (Hjb : 0 <= Z.of_nat j < prodZ dz) by lia.
    pose proof (unflatZ_valid dz (Z.of_nat j) Hpos Hjb) as Hv.
    replace j with (Z.to_nat (flatZ (unflatZ dz (Z.of_nat j))
                                    (counts dz full))) at 1
      by (unfold full; rewrite counts_whole, flatZ_unflatZ by assumption; lia).
    rewrite nth_visited
      by (try assumption; unfold full; now rewrite counts_whole by assumption).
    cbn [app]. unfold full. rewrite picked_whole by assumption.
    rewrite flatZ_unflatZ by assumption. now rewrite Nat2Z.id.
Qed.

Lemma slice_whole_witness :
  slice {| dim := [int 2; int 3]; data := map int [0; 1; 2; 3; 4; 5] |} []
  = Ok {| dim := [int 2; int 3]; data := map int [0; 1; 2; 3; 4; 5] |}.
Proof.
  apply (slice_whole _ [2; 3]).
  split; [reflexivity|]. split; [discriminate|].
  split; [repeat constructor|reflexivity].
Defined.

